(** * Card reordering in [useCardOperations]

    A shallow embedding of [src/hooks/useCardOperations.ts] (the hook
    returned by [useCardOperations(deckId)]) together with the parts of
    [src/types/index.ts] it uses, and the properties of the reordering
    subsystem: the adjacent swap computed by [moveCardUp] / [moveCardDown],
    the batched commit of [reorderCards], the failure behaviour of the
    guards and of the [try]/[catch] blocks, and the frame of [updateCard].

    Conventions.
    - JavaScript numbers that hold indices are [Z] ([findIndex] returns
      [-1]); lengths are [nat].  An [orderIndex] is a number that holds an
      integer; a sum of such numbers is rounded as the doubles round it
      ([Js.addNumbers]).
    - A JavaScript string is a sequence of 16-bit code units.  The strings
      of the model are those whose code units are all below 256, one
      character per code unit; [trim] and [toLowerCase] treat these code
      units as JavaScript does.
    - A JavaScript array read out of range yields [undefined]; arrays that
      the code indexes are [JsArray]s, lists of [option] with [None] for
      [undefined].
    - An [async] function is a state-and-exception computation over a
      [World]: the hook's React state, the Firestore documents, and the
      replies of the network to the awaited calls.  [Async] is a call run
      from start to completion with no other call in between; [Overlap]
      has the same operations in pieces, one piece per awaited call, for
      calls that run while another is in flight. *)

From Stdlib Require Import ZArith.
From stdpp Require Import gmap strings list.

Open Scope Z_scope.

(** ** JavaScript values used by the hook *)

Module Js.

(** [new Error(message)] *)
Record Error := mkError { message : string }.

#[global] Instance Error_eq_dec : EqDecision Error.
Proof. solve_decision. Defined.

(** The outcome of an expression that may throw, and of a promise. *)
Inductive Completion (A : Type) :=
| Resolved (a : A)
| Rejected (e : Error).
#[global] Arguments Resolved {A} a.
#[global] Arguments Rejected {A} e.

(** [s || fallback] on strings: the empty string is falsy. *)
Definition orElse (s fallback : string) : string :=
  if String.eqb s "" then fallback else s.

(** [z || 0] on numbers. *)
Definition orZero (z : Z) : Z := if z =? 0 then 0 else z.

(** The number that holds the integer [z] when [z] is the exact result of
    an arithmetic operation on numbers: [z] itself up to [2^53] in
    magnitude; beyond, the nearest integer that a double represents (a
    multiple of the spacing of the doubles at that magnitude), a tie going
    to the one with the even significand. *)
Definition toNumber (z : Z) : Z :=
  let a := Z.abs z in
  if a <=? 2 ^ 53 then z
  else
    let ulp := 2 ^ (Z.log2 a - 52) in
    let q := a / ulp in
    let r := a mod ulp in
    let q' :=
      if 2 * r <? ulp then q
      else if ulp <? 2 * r then q + 1
      else if Z.even q then q else q + 1 in
    Z.sgn z * (q' * ulp).

(** [x + y] on numbers that hold integers. *)
Definition addNumbers (x y : Z) : Z := toNumber (x + y).

(** [Array.prototype.findIndex]: the first index whose element passes the
    test, scanning upwards from [k]; [-1] when there is none. *)
Fixpoint findIndexFrom {A} (p : A -> bool) (k : Z) (l : list A) : Z :=
  match l with
  | [] => -1
  | x :: l' => if p x then k else findIndexFrom p (k + 1) l'
  end.

Definition findIndex {A} (p : A -> bool) (l : list A) : Z :=
  findIndexFrom p 0 l.

(** An array whose elements may be [undefined]. *)
Abbreviation JsArray A := (list (option A)) (only parsing).

(** [[...xs]] *)
Definition spread {A} (xs : list A) : JsArray A := Some <$> xs.

(** [a[i]]: [undefined] outside [0 .. length-1]. *)
Definition arrayGet {A} (a : JsArray A) (i : Z) : option A :=
  if i <? 0 then None else mjoin (a !! Z.to_nat i).

(** [a[i] = v]: in range it overwrites; past the end the array grows,
    the gap being holes; a negative [i] names a property, not an
    element. *)
Definition arraySet {A} (a : JsArray A) (i : Z) (v : option A) : JsArray A :=
  if i <? 0 then a
  else if (Z.to_nat i <? length a)%nat then <[Z.to_nat i := v]> a
  else a ++ replicate (Z.to_nat i - length a)%nat None ++ [v].

(** [a.map(card => card.id)] for a field [id]: the callback throws on an
    [undefined] element.  ([map] does not visit holes; the arrays below have
    a hole only when they also store an [undefined], and then [map] throws
    all the same.) *)
Definition undefinedRead : Error :=
  mkError "Cannot read properties of undefined (reading 'id')".

Fixpoint mapField {A B} (field : A -> B) (a : JsArray A)
  : Completion (list B) :=
  match a with
  | [] => Resolved []
  | None :: _ => Rejected undefinedRead
  | Some x :: a' =>
      match mapField field a' with
      | Resolved ys => Resolved (field x :: ys)
      | Rejected e => Rejected e
      end
  end.

(** [String.prototype.trim] strips the white space and line terminator
    code units.  Below 256 these are TAB, LF, VT, FF, CR, SPACE and
    NO-BREAK SPACE (U+00A0). *)
Definition isWhiteSpace (c : Ascii.ascii) : bool :=
  match Ascii.nat_of_ascii c with
  | 9%nat | 10%nat | 11%nat | 12%nat | 13%nat | 32%nat | 160%nat => true
  | _ => false
  end.

Fixpoint trimStart (s : string) : string :=
  match s with
  | EmptyString => EmptyString
  | String c s' => if isWhiteSpace c then trimStart s' else s
  end.

Definition trim (s : string) : string :=
  String.rev (trimStart (String.rev (trimStart s))).

End Js.
Import Js.

(** ** [src/types/index.ts] *)

(** A [Date], and the time of the Firestore server, in ticks. *)
Abbreviation Date := nat (only parsing).

Module User.
Record t := mk {
  uid : string;
  email : option string;
  displayName : option string;
  photoURL : option string;
  createdAt : Date
}.
End User.

Module Card.
Record t := mk {
  id : string;
  deckId : string;
  title : string;
  body : string;
  orderIndex : Z;
  createdAt : Date;
  updatedAt : Date
}.
End Card.

(** ** The ordering computed by the move operations

    [moveCardUp] and [moveCardDown] contain the whole ordering logic: the
    search for the target, the bounds guard, and the swap of two adjacent
    array slots followed by [map(card => card.id)].  The definitions below
    are those fragments; the hook operations further down are built from
    them. *)

Definition InvalidMoveUp : Error := mkError "Card cannot be moved up".
Definition InvalidMoveDown : Error := mkError "Card cannot be moved down".

(** [currentCards.findIndex(card => card.id === cardId)] *)
Definition cardIndexOf (cardId : string) (currentCards : list Card.t) : Z :=
  findIndex (fun card => String.eqb (Card.id card) cardId) currentCards.

(** The body of the [try] block of [moveCardUp] up to the call of
    [reorderCards]. *)
Definition swapWithAbove (cardIndex : Z) (currentCards : list Card.t)
  : Completion (list string) :=
  let newCardOrder := spread currentCards in
  let cardToMove := arrayGet newCardOrder cardIndex in
  let cardAbove := arrayGet newCardOrder (cardIndex - 1) in
  let newCardOrder := arraySet newCardOrder (cardIndex - 1) cardToMove in
  let newCardOrder := arraySet newCardOrder cardIndex cardAbove in
  mapField Card.id newCardOrder.

(** The body of the [try] block of [moveCardDown] up to the call of
    [reorderCards]. *)
Definition swapWithBelow (cardIndex : Z) (currentCards : list Card.t)
  : Completion (list string) :=
  let newCardOrder := spread currentCards in
  let cardToMove := arrayGet newCardOrder cardIndex in
  let cardBelow := arrayGet newCardOrder (cardIndex + 1) in
  let newCardOrder := arraySet newCardOrder (cardIndex + 1) cardToMove in
  let newCardOrder := arraySet newCardOrder cardIndex cardBelow in
  mapField Card.id newCardOrder.

(** The guard of [moveCardUp]: [cardIndex <= 0]. *)
Definition cannotMoveUp (cardIndex : Z) : bool := cardIndex <=? 0.

(** The guard of [moveCardDown]:
    [cardIndex >= currentCards.length - 1 || cardIndex === -1]. *)
Definition cannotMoveDown (cardIndex : Z) (currentCards : list Card.t) : bool :=
  (cardIndex >=? Z.of_nat (length currentCards) - 1) || (cardIndex =? -1).

(** Search, guard and swap of [moveCardUp] in sequence: the new order of
    identifiers the operation hands to [reorderCards]. *)
Definition computeMoveUp (cardId : string) (currentCards : list Card.t)
  : Completion (list string) :=
  let cardIndex := cardIndexOf cardId currentCards in
  if cannotMoveUp cardIndex then Rejected InvalidMoveUp
  else swapWithAbove cardIndex currentCards.

(** Search, guard and swap of [moveCardDown] in sequence. *)
Definition computeMoveDown (cardId : string) (currentCards : list Card.t)
  : Completion (list string) :=
  let cardIndex := cardIndexOf cardId currentCards in
  if cannotMoveDown cardIndex currentCards then Rejected InvalidMoveDown
  else swapWithBelow cardIndex currentCards.

(** ** The persistence collaborator: Firestore

    The hook reaches storage only through [getDocs], [addDoc],
    [updateDoc], [deleteDoc] and a [writeBatch].  Their behaviour is that of
    the Firestore client: [update] fails when the document does not exist, a
    batch applies its writes in the order they were added and as one unit,
    and [serverTimestamp()] is replaced by the time of the write on the
    server, which is later than that of every earlier write. *)

Module Firestore.

(** A timestamp field in written data: a client [Date] or the
    [serverTimestamp()] sentinel. *)
Inductive TimeField :=
| atDate (d : Date)
| serverTimestamp.

Definition resolveTime (now : Date) (f : TimeField) : Date :=
  match f with
  | atDate d => d
  | serverTimestamp => now
  end.

(** A document of the [cards] collection. *)
Module CardDoc.
Record t := mk {
  deckId : string;
  title : string;
  body : string;
  orderIndex : Z;
  createdAt : Date;
  updatedAt : Date
}.
End CardDoc.

(** A document of the [decks] collection. *)
Module DeckDoc.
Record t := mk {
  title : string;
  ownerId : string;
  createdAt : Date;
  updatedAt : Date;
  cardCount : option Z
}.
End DeckDoc.

(** The data of an update of a card document: the fields present are
    overwritten, the others kept. *)
Module CardFields.
Record t := mk {
  deckId : option string;
  title : option string;
  body : option string;
  orderIndex : option Z;
  createdAt : option TimeField;
  updatedAt : option TimeField
}.
End CardFields.

(** The data of an update of a deck document. *)
Module DeckFields.
Record t := mk {
  cardCount : option Z;
  updatedAt : option TimeField
}.
End DeckFields.

(** The data [addDoc] receives in [createCard]. *)
Module NewCard.
Record t := mk {
  deckId : string;
  title : string;
  body : string;
  orderIndex : Z;
  createdAt : TimeField;
  updatedAt : TimeField
}.
End NewCard.

Record Db := mkDb {
  cards : gmap string CardDoc.t;
  decks : gmap string DeckDoc.t;
  serverTime : Date
}.

(** [update(doc(db, 'cards', id), data)] and
    [update(doc(db, 'decks', id), data)]. *)
Inductive Write :=
| updateCardDoc (id : string) (data : CardFields.t)
| updateDeckDoc (id : string) (data : DeckFields.t).

Definition patchCard (now : Date) (data : CardFields.t) (d : CardDoc.t)
  : CardDoc.t :=
  CardDoc.mk
    (default (CardDoc.deckId d) (CardFields.deckId data))
    (default (CardDoc.title d) (CardFields.title data))
    (default (CardDoc.body d) (CardFields.body data))
    (default (CardDoc.orderIndex d) (CardFields.orderIndex data))
    (default (CardDoc.createdAt d)
       (resolveTime now <$> CardFields.createdAt data))
    (default (CardDoc.updatedAt d)
       (resolveTime now <$> CardFields.updatedAt data)).

Definition patchDeck (now : Date) (data : DeckFields.t) (d : DeckDoc.t)
  : DeckDoc.t :=
  DeckDoc.mk
    (DeckDoc.title d)
    (DeckDoc.ownerId d)
    (DeckDoc.createdAt d)
    (default (DeckDoc.updatedAt d)
       (resolveTime now <$> DeckFields.updatedAt data))
    (match DeckFields.cardCount data with
     | Some n => Some n
     | None => DeckDoc.cardCount d
     end).

(** One update at server time [now]; [None] when the document is
    missing. *)
Definition applyWrite (now : Date) (w : Write) (s : Db) : option Db :=
  match w with
  | updateCardDoc id data =>
      match cards s !! id with
      | Some d =>
          Some (mkDb (<[id := patchCard now data d]> (cards s)) (decks s)
                  (serverTime s))
      | None => None
      end
  | updateDeckDoc id data =>
      match decks s !! id with
      | Some d =>
          Some (mkDb (cards s) (<[id := patchDeck now data d]> (decks s))
                  (serverTime s))
      | None => None
      end
  end.

(** The writes of a batch, in the order they were added. *)
Fixpoint applyWrites (now : Date) (ws : list Write) (s : Db) : option Db :=
  match ws with
  | [] => Some s
  | w :: ws' =>
      match applyWrite now w s with
      | Some s' => applyWrites now ws' s'
      | None => None
      end
  end.

Definition notFound : Error := mkError "No document to update".

(** The server executes a list of updates as one unit at the next
    server time: all of them, or none when one of them fails. *)
Definition commit (ws : list Write) (s : Db) : Completion unit * Db :=
  let now := S (serverTime s) in
  match applyWrites now ws s with
  | Some s' => (Resolved tt, mkDb (cards s') (decks s') now)
  | None => (Rejected notFound, s)
  end.

(** [getDocs(query(collection(db, 'cards'), where('deckId', '==', d)))] *)
Definition cardsOfDeck (d : string) (s : Db) : list (string * CardDoc.t) :=
  map_to_list (filter (fun kv => CardDoc.deckId kv.2 = d) (cards s)).

(** [addDoc(collection(db, 'cards'), data)]: the document is stored under
    an identifier no card uses yet. *)
Definition add (data : NewCard.t) (s : Db) : string * Db :=
  let now := S (serverTime s) in
  let id := fresh (dom (cards s)) in
  let d := CardDoc.mk (NewCard.deckId data) (NewCard.title data)
             (NewCard.body data) (NewCard.orderIndex data)
             (resolveTime now (NewCard.createdAt data))
             (resolveTime now (NewCard.updatedAt data)) in
  (id, mkDb (<[id := d]> (cards s)) (decks s) now).

(** [deleteDoc(doc(db, 'cards', id))]: succeeds whether or not the
    document exists. *)
Definition remove (id : string) (s : Db) : Db :=
  mkDb (delete id (cards s)) (decks s) (S (serverTime s)).

(** The calls the hook awaits. *)
Inductive Request :=
| getDocsOf (deckId : string)
| addDocOf (data : NewCard.t)
| updateDocOf (w : Write)
| deleteDocOf (cardId : string)
| commitOf (batch : list Write).

End Firestore.
Import Firestore.

(** ** Asynchronous computations of the hook *)

(** What is recorded each time the hook awaits a Firestore call: the busy
    flag the caller sees while the call is in flight, the call, and the
    database as any reader finds it once the server has answered. *)
Record Await := mkAwait {
  busy : bool;
  request : Request;
  seen : Db
}.

(** The hook's React state ([loading], [error]), the database, the client
    clock read by [new Date()], the replies of the network to the coming
    calls ([Some e]: the call is rejected with [e] and changes nothing;
    [None], or no entry left: the server executes it), and the calls awaited
    so far. *)
Record World := mkWorld {
  loading : bool;
  error : option string;
  db : Db;
  today : Date;
  replies : list (option Error);
  awaits : list Await
}.

(** A call of an [async] function, run from its start to its completion
    with no other call of the hook in between. *)
Definition Async (A : Type) : Type := World -> Completion A * World.

#[global] Instance Async_ret : MRet Async :=
  fun A (a : A) w => (Resolved a, w).

#[global] Instance Async_bind : MBind Async :=
  fun A B (k : A -> Async B) (m : Async A) w =>
    match m w with
    | (Resolved a, w') => k a w'
    | (Rejected e, w') => (Rejected e, w')
    end.

(** [throw e] *)
Definition throw {A} (e : Error) : Async A :=
  fun w => (Rejected e, w).

(** [if (c) { throw new Error(msg) }] *)
Definition throwIf (c : bool) (msg : string) : Async unit :=
  if c then throw (mkError msg) else mret tt.

(** [try { m } catch (err) { handler err }] *)
Definition tryCatch {A} (m : Async A) (handler : Error -> Async A) : Async A :=
  fun w =>
    match m w with
    | (Resolved a, w') => (Resolved a, w')
    | (Rejected e, w') => handler e w'
    end.

(** A synchronous expression that may throw, inside an [async] body. *)
Definition eval {A} (c : Completion A) : Async A :=
  fun w => (c, w).

Definition setLoading (b : bool) : Async unit :=
  fun w => (Resolved tt,
            mkWorld b (error w) (db w) (today w) (replies w) (awaits w)).

Definition setError (e : option string) : Async unit :=
  fun w => (Resolved tt,
            mkWorld (loading w) e (db w) (today w) (replies w) (awaits w)).

(** [new Date()] *)
Definition newDate : Async Date :=
  fun w => (Resolved (today w), w).

(** [await call]: the next reply of the network decides whether the server
    executes the call; either way the call is recorded. *)
Definition await {A} (req : Request) (serve : Db -> Completion A * Db)
  : Async A :=
  fun w =>
    let fault := mjoin (head (replies w)) in
    let '(res, s) :=
      match fault with
      | Some e => (Rejected e, db w)
      | None => serve (db w)
      end in
    (res, mkWorld (loading w) (error w) s (today w) (tail (replies w))
            (awaits w ++ [mkAwait (loading w) req s])).

Definition getDocs (deckId : string) : Async (list (string * CardDoc.t)) :=
  await (getDocsOf deckId) (fun s => (Resolved (cardsOfDeck deckId s), s)).

Definition addDoc (data : NewCard.t) : Async string :=
  await (addDocOf data) (fun s => let '(id, s') := add data s in (Resolved id, s')).

Definition updateDoc (w : Write) : Async unit :=
  await (updateDocOf w) (commit [w]).

Definition deleteDoc (cardId : string) : Async unit :=
  await (deleteDocOf cardId) (fun s => (Resolved tt, remove cardId s)).

(** [writeBatch(db)], [batch.update(ref, data)], [batch.commit()] *)
Abbreviation WriteBatch := (list Write) (only parsing).
Definition writeBatch : WriteBatch := [].
Definition batchUpdate (batch : WriteBatch) (w : Write) : WriteBatch :=
  batch ++ [w].
Definition batchCommit (batch : WriteBatch) : Async unit :=
  await (commitOf batch) (commit batch).

(** ** [src/hooks/useCardOperations.ts] *)

Definition Unauthenticated : Error := mkError "User must be authenticated".
Definition InvalidArgument : Error := mkError "Card IDs are required".

(** [!x] for a value that is an object or [null]. *)
Definition isNull {A} (x : option A) : bool :=
  match x with
  | Some _ => false
  | None => true
  end.

(** [!s] for a string. *)
Definition isEmpty (s : string) : bool := String.eqb s "".

(** The type of [updates] in [updateCard]:
    [Partial<Omit<Card, 'id' | 'deckId' | 'createdAt' | 'orderIndex'>>]. *)
Module CardUpdates.
Record t := mk {
  title : option string;
  body : option string;
  updatedAt : option Date
}.
End CardUpdates.

Section useCardOperations.

(** The argument of the hook and the result of [useAuth()]. *)
Variable deckId : string.
Variable user : option User.t.

Definition createCard (title : string) (body : option string) : Async Card.t :=
  let body := default "" body in
  throwIf (isNull user) "User must be authenticated" ;;
  throwIf (isEmpty deckId) "Deck ID is required" ;;
  throwIf (isEmpty (trim title)) "Card title is required" ;;
  setLoading true ;;
  setError None ;;
  tryCatch
    (existingCards ← getDocs deckId ;
     let maxOrderIndex :=
       foldl (fun max doc =>
                let orderIndex := orZero (CardDoc.orderIndex doc.2) in
                Z.max max orderIndex)
             (-1) existingCards in
     let cardData :=
       NewCard.mk deckId (trim title) (trim body)
         (addNumbers maxOrderIndex 1)
         serverTimestamp serverTimestamp in
     docRef ← addDoc cardData ;
     updateDoc
       (updateDeckDoc deckId
          (DeckFields.mk (Some (Z.of_nat (length existingCards) + 1))
             (Some serverTimestamp))) ;;
     createdAt ← newDate ;
     updatedAt ← newDate ;
     let newCard :=
       Card.mk docRef deckId (trim title) (trim body)
         (addNumbers maxOrderIndex 1)
         createdAt updatedAt in
     setLoading false ;;
     setError None ;;
     mret newCard)
    (fun err =>
       let errorMessage := orElse (message err) "Failed to create card" in
       setError (Some errorMessage) ;;
       setLoading false ;;
       throw err).

Definition updateCard (cardId : string) (updates : CardUpdates.t) : Async unit :=
  throwIf (isNull user) "User must be authenticated" ;;
  throwIf (isEmpty (trim cardId)) "Card ID is required" ;;
  setLoading true ;;
  setError None ;;
  tryCatch
    (let updateData :=
       CardFields.mk None (CardUpdates.title updates)
         (CardUpdates.body updates) None None (Some serverTimestamp) in
     updateDoc (updateCardDoc cardId updateData) ;;
     updateDoc (updateDeckDoc deckId (DeckFields.mk None (Some serverTimestamp))) ;;
     setLoading false ;;
     setError None)
    (fun err =>
       let errorMessage := orElse (message err) "Failed to update card" in
       setError (Some errorMessage) ;;
       setLoading false ;;
       throw err).

Definition deleteCard (cardId : string) : Async unit :=
  throwIf (isNull user) "User must be authenticated" ;;
  throwIf (isEmpty (trim cardId)) "Card ID is required" ;;
  setLoading true ;;
  setError None ;;
  tryCatch
    (deleteDoc cardId ;;
     remainingCards ← getDocs deckId ;
     updateDoc
       (updateDeckDoc deckId
          (DeckFields.mk (Some (Z.of_nat (length remainingCards)))
             (Some serverTimestamp))) ;;
     setLoading false ;;
     setError None)
    (fun err =>
       let errorMessage := orElse (message err) "Failed to delete card" in
       setError (Some errorMessage) ;;
       setLoading false ;;
       throw err).

(** The batch [reorderCards] builds: one update per identifier, carrying
    its position, then the update of the deck. *)
Definition reorderBatch (cardIds : list string) : WriteBatch :=
  let batch := writeBatch in
  let batch :=
    foldl batchUpdate batch
      (imap (fun index cardId =>
               updateCardDoc cardId
                 (CardFields.mk None None None (Some (Z.of_nat index)) None
                    (Some serverTimestamp)))
            cardIds) in
  batchUpdate batch
    (updateDeckDoc deckId (DeckFields.mk None (Some serverTimestamp))).

Definition reorderCards (cardIds : list string) : Async unit :=
  throwIf (isNull user) "User must be authenticated" ;;
  throwIf (Nat.eqb (length cardIds) 0) "Card IDs are required" ;;
  setLoading true ;;
  setError None ;;
  tryCatch
    (batchCommit (reorderBatch cardIds) ;;
     setLoading false ;;
     setError None)
    (fun err =>
       let errorMessage := orElse (message err) "Failed to reorder cards" in
       setError (Some errorMessage) ;;
       setLoading false ;;
       throw err).

Definition moveCardUp (cardId : string) (currentCards : list Card.t) : Async unit :=
  throwIf (isNull user) "User must be authenticated" ;;
  let cardIndex := cardIndexOf cardId currentCards in
  throwIf (cannotMoveUp cardIndex) "Card cannot be moved up" ;;
  setLoading true ;;
  setError None ;;
  tryCatch
    (cardIds ← eval (swapWithAbove cardIndex currentCards) ;
     reorderCards cardIds)
    (fun err =>
       let errorMessage := orElse (message err) "Failed to move card up" in
       setError (Some errorMessage) ;;
       setLoading false ;;
       throw err).

Definition moveCardDown (cardId : string) (currentCards : list Card.t) : Async unit :=
  throwIf (isNull user) "User must be authenticated" ;;
  let cardIndex := cardIndexOf cardId currentCards in
  throwIf (cannotMoveDown cardIndex currentCards) "Card cannot be moved down" ;;
  setLoading true ;;
  setError None ;;
  tryCatch
    (cardIds ← eval (swapWithBelow cardIndex currentCards) ;
     reorderCards cardIds)
    (fun err =>
       let errorMessage := orElse (message err) "Failed to move card down" in
       setError (Some errorMessage) ;;
       setLoading false ;;
       throw err).

End useCardOperations.

(** ** Calls of the hook that overlap

    An [async] function runs from its call to its first [await] and, after
    each answer, from there to its next [await]; in between, other calls of
    the same hook run, on the same [loading] and [error] state.  [Async]
    above is an operation run on its own, from its call to its completion.
    Here the operations are written once more with their pieces kept apart
    ([Overlap.Task]), so that calls can be interleaved; run on its own, each
    is the operation above ([Overlap.alone], and the lemmas [alone_...]
    below). *)

Module Overlap.

(** What is left to run of a call: nothing, a state update, a reading of
    the clock, or an awaited call with what follows its answer. *)
Inductive Task (A : Type) : Type :=
| Settled (c : Completion A)
| SetLoading (b : bool) (next : Task A)
| SetError (e : option string) (next : Task A)
| NewDate (next : Date -> Task A)
| Awaiting {B : Type} (req : Request) (serve : Db -> Completion B * Db)
    (next : Completion B -> Task A).
#[global] Arguments Settled {A} c.
#[global] Arguments SetLoading {A} b next.
#[global] Arguments SetError {A} e next.
#[global] Arguments NewDate {A} next.
#[global] Arguments Awaiting {A B} req serve next.

(** A task run on its own: every awaited call is answered at once. *)
Fixpoint alone {A} (t : Task A) : Async A :=
  match t with
  | Settled c => eval c
  | SetLoading b next => fun w => alone next (snd (setLoading b w))
  | SetError e next => fun w => alone next (snd (setError e w))
  | NewDate next => fun w => alone (next (today w)) w
  | Awaiting req serve next =>
      fun w => let '(r, w') := await req serve w in alone (next r) w'
  end.

(** The synchronous piece at the head of a task: it runs up to the next
    awaited call, or to the end. *)
Fixpoint advance {A} (t : Task A) (w : World) : Task A * World :=
  match t with
  | SetLoading b next => advance next (snd (setLoading b w))
  | SetError e next => advance next (snd (setError e w))
  | NewDate next => advance (next (today w)) w
  | Settled _ | Awaiting _ _ _ => (t, w)
  end.

(** The answer to the call a task is waiting for: the server executes the
    call (or the network fails it), and the task runs on to its next
    call. *)
Definition answer {A} (t : Task A) (w : World) : Task A * World :=
  match t with
  | Awaiting req serve next =>
      let '(r, w') := await req serve w in advance (next r) w'
  | _ => (t, w)
  end.


(** One instance of the hook: its state and the calls made so far, each as
    far as it has got. *)
Record Hook := mkHook {
  state : World;
  tasks : list (Task unit)
}.

(** What happens to a hook: an operation is called, and runs up to its
    first awaited call; or the call that the [i]-th task is waiting for is
    answered, and that task runs on. *)
Inductive Event :=
| Called (t : Task unit)
| Answered (i : nat).

Definition step (h : Hook) (e : Event) : Hook :=
  match e with
  | Called t =>
      let '(t', w') := advance t (state h) in
      mkHook w' (tasks h ++ [t'])
  | Answered i =>
      match tasks h !! i with
      | Some t =>
          let '(t', w') := answer t (state h) in
          mkHook w' (<[i := t']> (tasks h))
      | None => h
      end
  end.

Definition play (events : list Event) (h : Hook) : Hook :=
  foldl step h events.

#[global] Instance Task_ret : MRet Task :=
  fun A (a : A) => Settled (Resolved a).

Fixpoint Task_bind_fix {A B} (k : A -> Task B) (t : Task A) : Task B :=
  match t with
  | Settled (Resolved a) => k a
  | Settled (Rejected e) => Settled (Rejected e)
  | SetLoading b next => SetLoading b (Task_bind_fix k next)
  | SetError e next => SetError e (Task_bind_fix k next)
  | NewDate next => NewDate (fun d => Task_bind_fix k (next d))
  | Awaiting req serve next =>
      Awaiting req serve (fun r => Task_bind_fix k (next r))
  end.

#[global] Instance Task_bind : MBind Task :=
  fun A B (k : A -> Task B) (t : Task A) => Task_bind_fix k t.

(** [throw e] *)
Definition throw {A} (e : Error) : Task A := Settled (Rejected e).

(** [if (c) { throw new Error(msg) }] *)
Definition throwIf (c : bool) (msg : string) : Task unit :=
  if c then throw (mkError msg) else mret tt.

(** [try { t } catch (err) { handler err }] *)
Fixpoint tryCatch {A} (t : Task A) (handler : Error -> Task A) : Task A :=
  match t with
  | Settled (Resolved a) => Settled (Resolved a)
  | Settled (Rejected e) => handler e
  | SetLoading b next => SetLoading b (tryCatch next handler)
  | SetError e next => SetError e (tryCatch next handler)
  | NewDate next => NewDate (fun d => tryCatch (next d) handler)
  | Awaiting req serve next =>
      Awaiting req serve (fun r => tryCatch (next r) handler)
  end.

Definition eval {A} (c : Completion A) : Task A := Settled c.

Definition setLoading (b : bool) : Task unit :=
  SetLoading b (Settled (Resolved tt)).

Definition setError (e : option string) : Task unit :=
  SetError e (Settled (Resolved tt)).

Definition newDate : Task Date := NewDate (fun d => Settled (Resolved d)).

Definition await {A} (req : Request) (serve : Db -> Completion A * Db)
  : Task A :=
  Awaiting req serve Settled.

Definition getDocs (deckId : string) : Task (list (string * CardDoc.t)) :=
  await (getDocsOf deckId) (fun s => (Resolved (cardsOfDeck deckId s), s)).

Definition addDoc (data : NewCard.t) : Task string :=
  await (addDocOf data) (fun s => let '(id, s') := add data s in (Resolved id, s')).

Definition updateDoc (w : Write) : Task unit :=
  await (updateDocOf w) (commit [w]).

Definition deleteDoc (cardId : string) : Task unit :=
  await (deleteDocOf cardId) (fun s => (Resolved tt, remove cardId s)).

Definition batchCommit (batch : list Write) : Task unit :=
  await (commitOf batch) (commit batch).

Section useCardOperations.

Variable deckId : string.
Variable user : option User.t.

Definition createCard (title : string) (body : option string) : Task Card.t :=
  let body := default "" body in
  throwIf (isNull user) "User must be authenticated" ;;
  throwIf (isEmpty deckId) "Deck ID is required" ;;
  throwIf (isEmpty (trim title)) "Card title is required" ;;
  setLoading true ;;
  setError None ;;
  tryCatch
    (existingCards ← getDocs deckId ;
     let maxOrderIndex :=
       foldl (fun max doc =>
                let orderIndex := orZero (CardDoc.orderIndex doc.2) in
                Z.max max orderIndex)
             (-1) existingCards in
     let cardData :=
       NewCard.mk deckId (trim title) (trim body)
         (addNumbers maxOrderIndex 1)
         serverTimestamp serverTimestamp in
     docRef ← addDoc cardData ;
     updateDoc
       (updateDeckDoc deckId
          (DeckFields.mk (Some (Z.of_nat (length existingCards) + 1))
             (Some serverTimestamp))) ;;
     createdAt ← newDate ;
     updatedAt ← newDate ;
     let newCard :=
       Card.mk docRef deckId (trim title) (trim body)
         (addNumbers maxOrderIndex 1)
         createdAt updatedAt in
     setLoading false ;;
     setError None ;;
     mret newCard)
    (fun err =>
       let errorMessage := orElse (message err) "Failed to create card" in
       setError (Some errorMessage) ;;
       setLoading false ;;
       throw err).

Definition updateCard (cardId : string) (updates : CardUpdates.t) : Task unit :=
  throwIf (isNull user) "User must be authenticated" ;;
  throwIf (isEmpty (trim cardId)) "Card ID is required" ;;
  setLoading true ;;
  setError None ;;
  tryCatch
    (let updateData :=
       CardFields.mk None (CardUpdates.title updates)
         (CardUpdates.body updates) None None (Some serverTimestamp) in
     updateDoc (updateCardDoc cardId updateData) ;;
     updateDoc (updateDeckDoc deckId (DeckFields.mk None (Some serverTimestamp))) ;;
     setLoading false ;;
     setError None)
    (fun err =>
       let errorMessage := orElse (message err) "Failed to update card" in
       setError (Some errorMessage) ;;
       setLoading false ;;
       throw err).

Definition deleteCard (cardId : string) : Task unit :=
  throwIf (isNull user) "User must be authenticated" ;;
  throwIf (isEmpty (trim cardId)) "Card ID is required" ;;
  setLoading true ;;
  setError None ;;
  tryCatch
    (deleteDoc cardId ;;
     remainingCards ← getDocs deckId ;
     updateDoc
       (updateDeckDoc deckId
          (DeckFields.mk (Some (Z.of_nat (length remainingCards)))
             (Some serverTimestamp))) ;;
     setLoading false ;;
     setError None)
    (fun err =>
       let errorMessage := orElse (message err) "Failed to delete card" in
       setError (Some errorMessage) ;;
       setLoading false ;;
       throw err).

Definition reorderCards (cardIds : list string) : Task unit :=
  throwIf (isNull user) "User must be authenticated" ;;
  throwIf (Nat.eqb (length cardIds) 0) "Card IDs are required" ;;
  setLoading true ;;
  setError None ;;
  tryCatch
    (batchCommit (reorderBatch deckId cardIds) ;;
     setLoading false ;;
     setError None)
    (fun err =>
       let errorMessage := orElse (message err) "Failed to reorder cards" in
       setError (Some errorMessage) ;;
       setLoading false ;;
       throw err).

Definition moveCardUp (cardId : string) (currentCards : list Card.t) : Task unit :=
  throwIf (isNull user) "User must be authenticated" ;;
  let cardIndex := cardIndexOf cardId currentCards in
  throwIf (cannotMoveUp cardIndex) "Card cannot be moved up" ;;
  setLoading true ;;
  setError None ;;
  tryCatch
    (cardIds ← eval (swapWithAbove cardIndex currentCards) ;
     reorderCards cardIds)
    (fun err =>
       let errorMessage := orElse (message err) "Failed to move card up" in
       setError (Some errorMessage) ;;
       setLoading false ;;
       throw err).

Definition moveCardDown (cardId : string) (currentCards : list Card.t) : Task unit :=
  throwIf (isNull user) "User must be authenticated" ;;
  let cardIndex := cardIndexOf cardId currentCards in
  throwIf (cannotMoveDown cardIndex currentCards) "Card cannot be moved down" ;;
  setLoading true ;;
  setError None ;;
  tryCatch
    (cardIds ← eval (swapWithBelow cardIndex currentCards) ;
     reorderCards cardIds)
    (fun err =>
       let errorMessage := orElse (message err) "Failed to move card down" in
       setError (Some errorMessage) ;;
       setLoading false ;;
       throw err).

End useCardOperations.

End Overlap.

(** ** [src/features/cards/CardScreen.tsx]

    The parts of the card screen that decide what the hook is called with:
    the search filter, the enabling of the move controls, the handlers of
    the move controls, and the preview of a card body. *)

Module CardScreen.

(** [String.prototype.toLowerCase]: below 256 the upper case letters are
    [A] to [Z] (65 to 90) and the letters U+00C0 to U+00DE but for the
    multiplication sign U+00D7 (192 to 222 but for 215); the lower case
    letter of each is 32 further on, and every other code unit is kept. *)
Definition isUpperCase (c : Ascii.ascii) : bool :=
  let n := Ascii.nat_of_ascii c in
  ((65 <=? n) && (n <=? 90) ||
   (192 <=? n) && (n <=? 222) && negb (n =? 215))%nat.

Definition lowerChar (c : Ascii.ascii) : Ascii.ascii :=
  if isUpperCase c then Ascii.ascii_of_nat (Ascii.nat_of_ascii c + 32)
  else c.

Fixpoint toLowerCase (s : string) : string :=
  match s with
  | EmptyString => EmptyString
  | String c s' => String (lowerChar c) (toLowerCase s')
  end.

(** [s.includes(query)] *)
Fixpoint includes (s query : string) : bool :=
  String.prefix query s ||
  match s with
  | EmptyString => false
  | String _ s' => includes s' query
  end.

(** [truncateBody(body, maxLength = 120)] of [CardListItem], for a
    [maxLength] that is a natural number (the component calls it with the
    body only). *)
Definition truncateBody (body : string) (maxLength : option nat) : string :=
  let maxLength := default 120%nat maxLength in
  if (String.length body <=? maxLength)%nat then body
  else String.append (String.substring 0 maxLength body) "...".

(** The callback of [cards.filter] in [filteredCards]. *)
Definition matches (query : string) (card : Card.t) : bool :=
  includes (toLowerCase (Card.title card)) query ||
  includes (toLowerCase (Card.body card)) query.

(** The memoised [filteredCards]. *)
Definition filteredCards (cards : list Card.t) (searchQuery : string)
  : list Card.t :=
  if isEmpty (trim searchQuery) then cards
  else
    let query := trim (toLowerCase searchQuery) in
    List.filter (matches query) cards.

(** [canMoveUp={index > 0}] and
    [canMoveDown={index < filteredCards.length - 1}] of the rendered
    list. *)
Definition canMoveUp (index : nat) : bool := 0 <? Z.of_nat index.

Definition canMoveDown (index : nat) (shown : list Card.t) : bool :=
  Z.of_nat index <? Z.of_nat (length shown) - 1.

Section Handlers.

Variable deckId : string.
Variable user : option User.t.

(** [handleMoveCardUp] and [handleMoveCardDown]: the move is made on the
    filtered list, and a failure is logged, not rethrown. *)
Definition handleMoveCardUp (cards : list Card.t) (searchQuery : string)
  (cardId : string) : Async unit :=
  tryCatch
    (moveCardUp deckId user cardId (filteredCards cards searchQuery))
    (fun error => mret tt).

Definition handleMoveCardDown (cards : list Card.t) (searchQuery : string)
  (cardId : string) : Async unit :=
  tryCatch
    (moveCardDown deckId user cardId (filteredCards cards searchQuery))
    (fun error => mret tt).

End Handlers.

End CardScreen.

(** ** Sample data *)

Module Sample.

Definition alice : User.t := User.mk "test-user" None None None 0%nat.

Definition card (id : string) (orderIndex : Z) : Card.t :=
  Card.mk id "deck" id "" orderIndex 0%nat 0%nat.

Definition cardDoc (orderIndex : Z) : CardDoc.t :=
  CardDoc.mk "deck" "title" "" orderIndex 0%nat 0%nat.

Definition deckDoc : DeckDoc.t := DeckDoc.mk "Deck" "test-user" 0%nat 0%nat None.

(** A deck with the cards A, B, C, D in this order. *)
Definition store : Db :=
  mkDb (list_to_map [("A", cardDoc 0); ("B", cardDoc 1);
                     ("C", cardDoc 2); ("D", cardDoc 3)])
       (list_to_map [("deck", deckDoc)])
       0%nat.

Definition idle : World := mkWorld false None store 0%nat [] [].

Definition abcd : list Card.t :=
  [card "A" 0; card "B" 1; card "C" 2; card "D" 3].

(** The same, with a network that fails the next call. *)
Definition offline : World :=
  mkWorld false None store 0%nat [Some (mkError "unavailable")] [].

(** The cards of the deck as the screen holds them, with titles to search
    in. *)
Definition fruits : list Card.t :=
  [Card.mk "A" "deck" "Apple" "" 0 0%nat 0%nat;
   Card.mk "B" "deck" "Banana" "" 1 0%nat 0%nat;
   Card.mk "C" "deck" "Apricot" "" 2 0%nat 0%nat;
   Card.mk "D" "deck" "Damson" "" 3 0%nat 0%nat].

(** A space, a no-break space and a tab. *)
Definition blank : string :=
  String (Ascii.ascii_of_nat 32)
    (String (Ascii.ascii_of_nat 160) (String (Ascii.ascii_of_nat 9) "")).

End Sample.

(** ** Notions used to state the properties *)

(** [l] with the elements at positions [j] and [j+1] exchanged. *)
Definition swapAdjacent {A} (j : nat) (l : list A) : list A :=
  match l !! j, l !! S j with
  | Some a, Some b => <[S j := a]> (<[j := b]> l)
  | _, _ => l
  end.

(** The identifiers of a list of cards, in order. *)
Definition idsOf (cards : list Card.t) : list string := Card.id <$> cards.

(** The update [reorderCards] adds for the identifier at position
    [index]. *)
Definition positionWrite (index : nat) (cardId : string) : Write :=
  updateCardDoc cardId
    (CardFields.mk None None None (Some (Z.of_nat index)) None
       (Some serverTimestamp)).

Definition deckWrite (deckId : string) : Write :=
  updateDeckDoc deckId (DeckFields.mk None (Some serverTimestamp)).

(** From a world satisfying [P], the computation [m] resolves with a value
    [a] in a world satisfying [Q a], or rejects with an error [e] in a world
    satisfying [E e]. *)
Definition triple {A} (P : World -> Prop) (m : Async A)
  (Q : A -> World -> Prop) (E : Error -> World -> Prop) : Prop :=
  forall w, P w ->
    match m w with
    | (Resolved a, w') => Q a w'
    | (Rejected e, w') => E e w'
    end.

(** [m] keeps the invariant [I], however it completes. *)
Definition keeps {A} (I : World -> Prop) (m : Async A) : Prop :=
  triple I m (fun _ => I) (fun _ => I).



(** No stored modification time is later than [t]. *)
Definition notAfter (t : Date) (s : Db) : Prop :=
  (forall id d, cards s !! id = Some d -> (CardDoc.updatedAt d <= t)%nat) /\
  (forall id d, decks s !! id = Some d -> (DeckDoc.updatedAt d <= t)%nat).

(** No stored modification time is later than the last write of the
    server. *)
Definition timely (s : Db) : Prop := notAfter (serverTime s) s.


(** The fields of a stored card that an edit must not touch. *)
Definition fixedFields (d : CardDoc.t) : Z * string * Date :=
  (CardDoc.orderIndex d, CardDoc.deckId d, CardDoc.createdAt d).

(** The [orderIndex] of the stored cards [ids], in the order of [ids]. *)
Definition orderIndexes (s : Db) (ids : list string) : list (option Z) :=
  (fun id => CardDoc.orderIndex <$> cards s !! id) <$> ids.

(** Every update of the batch of [reorderCards] is in effect in [s]: each
    supplied card carries the index of a position at which it was supplied
    and the time [now] of the commit, and so does the deck. *)
Definition allWritten (deckId : string) (cardIds : list string) (now : Date)
  (s : Db) : Prop :=
  (forall id, id ∈ cardIds ->
     exists (k : nat) d,
       cardIds !! k = Some id /\
       cards s !! id = Some d /\
       CardDoc.orderIndex d = Z.of_nat k /\
       CardDoc.updatedAt d = now) /\
  (exists d, decks s !! deckId = Some d /\ DeckDoc.updatedAt d = now).

(** A property of the database, as a property of the world. *)
Definition onDb (J : Db -> Prop) : World -> Prop := fun w => J (db w).

(** An update that carries no [orderIndex], [deckId] or [createdAt]. *)
Definition keepsFixedFields (w : Write) : Prop :=
  match w with
  | updateCardDoc _ data =>
      CardFields.orderIndex data = None /\
      CardFields.deckId data = None /\
      CardFields.createdAt data = None
  | updateDeckDoc _ _ => True
  end.

(** An update whose modification time, if any, is the server's. *)
Definition serverStamped (w : Write) : Prop :=
  match w with
  | updateCardDoc _ data =>
      CardFields.updatedAt data = None \/
      CardFields.updatedAt data = Some serverTimestamp
  | updateDeckDoc _ data =>
      DeckFields.updatedAt data = None \/
      DeckFields.updatedAt data = Some serverTimestamp
  end.

(** What a card says, and what a deck says: the fields reordering has no
    business with. *)
Definition cardContent (d : CardDoc.t) : string * string * string * Date :=
  (CardDoc.deckId d, CardDoc.title d, CardDoc.body d, CardDoc.createdAt d).

Definition deckContent (d : DeckDoc.t) : string * string * Date * option Z :=
  (DeckDoc.title d, DeckDoc.ownerId d, DeckDoc.createdAt d,
   DeckDoc.cardCount d).

(** The [error] state after one call of an operation [op] from the world
    [w] tells how the call went: [null] when it resolved; the message of the
    failure, or [fallback] when the message is empty, when it rejected, unless
    a guard rejected the call, which then left the world as it was. *)
Definition reportsOutcome {A} (fallback : string) (op : Async A) (w : World)
  : Prop :=
  match fst (op w) with
  | Resolved _ =>
      error (snd (op w)) = None /\ loading (snd (op w)) = false
  | Rejected e =>
      snd (op w) = w \/
      (error (snd (op w)) = Some (orElse (message e) fallback) /\
       loading (snd (op w)) = false)
  end.

(** * Properties *)

(** ** Arrays *)

Section ArrayFacts.
Context {A : Type}.
Implicit Types (p : A -> bool) (l : list A) (k : Z).

Lemma findIndexFrom_range p k l :
  0 <= k ->
  findIndexFrom p k l = -1 \/
  k <= findIndexFrom p k l < k + Z.of_nat (length l).
Proof.
  revert k. induction l as [|x l IH]; intros k Hk; simpl.
  - by left.
  - destruct (p x); [right; lia|].
    destruct (IH (k + 1)) as [->|?]; [lia | by left | right; lia].
Qed.

Lemma findIndexFrom_none p k l :
  Forall (fun x => p x = false) l -> findIndexFrom p k l = -1.
Proof.
  intros H. revert k. induction H as [|x l Hx _ IH]; intros k; simpl.
  - done.
  - by rewrite Hx.
Qed.

Lemma findIndexFrom_first p k l (i : nat) x :
  l !! i = Some x ->
  p x = true ->
  (forall (j : nat) y, (j < i)%nat -> l !! j = Some y -> p y = false) ->
  findIndexFrom p k l = k + Z.of_nat i.
Proof.
  revert k i. induction l as [|y l IH]; intros k i Hi Hx Hbefore.
  - by rewrite lookup_nil in Hi.
  - destruct i as [|i]; simpl in *.
    + injection Hi as ->. rewrite Hx. lia.
    + rewrite (Hbefore 0%nat y) by (done || lia).
      rewrite (IH (k + 1) i); [lia | done | done |].
      intros j z Hj Hz. apply (Hbefore (S j) z); [lia | done].
Qed.

Lemma findIndexFrom_found p k l (i : nat) :
  findIndexFrom p k l = k + Z.of_nat i ->
  0 <= k ->
  exists x, l !! i = Some x /\ p x = true /\
    forall (j : nat) y, (j < i)%nat -> l !! j = Some y -> p y = false.
Proof.
  revert k i. induction l as [|y l IH]; intros k i Hfind Hk; simpl in *.
  - lia.
  - destruct (p y) eqn:Hy.
    + assert (i = 0%nat) as -> by lia. exists y. repeat split; [done|].
      intros j z Hj. lia.
    + destruct (findIndexFrom_range p (k + 1) l) as [E|E]; [lia|lia|].
      destruct i as [|i]; [lia|].
      destruct (IH (k + 1) i) as (x & Hx & Hpx & Hbefore); [lia | lia |].
      exists x. repeat split; [done | done |].
      intros [|j] z Hj Hz; simpl in Hz.
      * by injection Hz as <-.
      * apply (Hbefore j z); [lia | done].
Qed.

Lemma arrayGet_spread l (n : nat) :
  arrayGet (spread l) (Z.of_nat n) = l !! n.
Proof.
  unfold arrayGet, spread.
  destruct (Z.ltb_spec (Z.of_nat n) 0) as [?|_]; [lia|].
  rewrite Nat2Z.id, list_lookup_fmap. by destruct (l !! n).
Qed.

Lemma arraySet_spread l (n : nat) x :
  (n < length l)%nat ->
  arraySet (spread l) (Z.of_nat n) (Some x) = spread (<[n := x]> l).
Proof.
  intros Hn. unfold arraySet, spread.
  destruct (Z.ltb_spec (Z.of_nat n) 0) as [?|_]; [lia|].
  rewrite Nat2Z.id, length_fmap.
  destruct (Nat.ltb_spec n (length l)) as [_|?]; [|lia].
  by rewrite list_fmap_insert.
Qed.

Lemma mapField_spread {B} (field : A -> B) l :
  mapField field (spread l) = Resolved (field <$> l).
Proof.
  induction l as [|x l IH]; [done|].
  change (spread (x :: l)) with (Some x :: spread l).
  simpl. by rewrite IH.
Qed.

Lemma swapAdjacent_cons x (j : nat) l :
  swapAdjacent (S j) (x :: l) = x :: swapAdjacent j l.
Proof.
  unfold swapAdjacent; simpl.
  by destruct (l !! j), (l !! S j).
Qed.

Lemma swapAdjacent_length (j : nat) l :
  length (swapAdjacent j l) = length l.
Proof.
  unfold swapAdjacent.
  destruct (l !! j), (l !! S j); by rewrite ?length_insert.
Qed.

Lemma swapAdjacent_perm (j : nat) l : swapAdjacent j l ≡ₚ l.
Proof.
  revert j. induction l as [|x l IH]; intros j.
  - by destruct j.
  - destruct j as [|j].
    + destruct l as [|y l]; [done|]. apply perm_swap.
    + rewrite swapAdjacent_cons. by rewrite IH.
Qed.

Lemma swapAdjacent_lookup (j : nat) l (k : nat) :
  (S j < length l)%nat ->
  swapAdjacent j l !! k =
    if decide (k = j) then l !! S j
    else if decide (k = S j) then l !! j
    else l !! k.
Proof.
  intros Hj. unfold swapAdjacent.
  destruct (lookup_lt_is_Some_2 l j) as [a Ha]; [lia|].
  destruct (lookup_lt_is_Some_2 l (S j)) as [b Hb]; [done|].
  rewrite Ha, Hb.
  destruct (decide (k = j)) as [->|Hkj].
  - rewrite list_lookup_insert_ne by lia.
    rewrite list_lookup_insert_eq by lia. done.
  - destruct (decide (k = S j)) as [->|HkSj].
    + rewrite list_lookup_insert_eq by (rewrite length_insert; lia). done.
    + by rewrite !list_lookup_insert_ne by lia.
Qed.

Lemma swapAdjacent_involutive (j : nat) l :
  swapAdjacent j (swapAdjacent j l) = l.
Proof.
  destruct (decide (S j < length l)%nat) as [Hj|Hj].
  - apply list_eq. intros k.
    rewrite swapAdjacent_lookup by (by rewrite swapAdjacent_length).
    rewrite !swapAdjacent_lookup by done.
    repeat case_decide; subst; done || lia.
  - assert (swapAdjacent j l = l) as E.
    { unfold swapAdjacent. rewrite (lookup_ge_None_2 l (S j)) by lia.
      by destruct (l !! j). }
    by rewrite E, E.
Qed.

Lemma swapAdjacent_fmap {B} (f : A -> B) (j : nat) l :
  f <$> swapAdjacent j l = swapAdjacent j (f <$> l).
Proof.
  unfold swapAdjacent. rewrite !list_lookup_fmap.
  destruct (l !! j), (l !! S j); simpl; by rewrite ?list_fmap_insert.
Qed.

End ArrayFacts.

(** ** The ordering computation *)

Section Ordering.
Implicit Types (cards : list Card.t) (cardId : string).

Lemma cardIndexOf_range cardId cards :
  cardIndexOf cardId cards = -1 \/
  0 <= cardIndexOf cardId cards < Z.of_nat (length cards).
Proof.
  unfold cardIndexOf, findIndex.
  destruct (findIndexFrom_range
              (fun card => String.eqb (Card.id card) cardId) 0 cards);
    [lia | by left | right; lia].
Qed.

Lemma cardIndexOf_absent cardId cards :
  cardId ∉ idsOf cards -> cardIndexOf cardId cards = -1.
Proof.
  intros Hnot. apply findIndexFrom_none, Forall_forall.
  intros c Hc. apply String.eqb_neq. intros <-.
  apply Hnot. unfold idsOf. by apply list_elem_of_fmap_2.
Qed.

Lemma cardIndexOf_first cardId cards (i : nat) c :
  cards !! i = Some c ->
  Card.id c = cardId ->
  (forall (j : nat) c', (j < i)%nat -> cards !! j = Some c' -> Card.id c' <> cardId) ->
  cardIndexOf cardId cards = Z.of_nat i.
Proof.
  intros Hi Hid Hbefore. unfold cardIndexOf, findIndex.
  rewrite (findIndexFrom_first _ 0 cards i c); [lia | done | |].
  - by apply String.eqb_eq.
  - intros j c' Hj Hc'. apply String.eqb_neq. by apply (Hbefore j).
Qed.

Lemma cardIndexOf_found cardId cards (i : nat) :
  cardIndexOf cardId cards = Z.of_nat i ->
  exists c, cards !! i = Some c /\ Card.id c = cardId /\
    forall (j : nat) c', (j < i)%nat -> cards !! j = Some c' -> Card.id c' <> cardId.
Proof.
  intros Hfind.
  destruct (findIndexFrom_found
              (fun card => String.eqb (Card.id card) cardId) 0 cards i)
    as (c & Hc & Hid & Hbefore); [done | lia |].
  exists c. split; [done|]. split; [by apply String.eqb_eq|].
  intros j c' Hj Hc'. apply String.eqb_neq. by apply (Hbefore j).
Qed.

Lemma cardIndexOf_NoDup cards (i : nat) c :
  NoDup (idsOf cards) ->
  cards !! i = Some c ->
  cardIndexOf (Card.id c) cards = Z.of_nat i.
Proof.
  intros Hnodup Hi. apply (cardIndexOf_first _ _ i c); [done | done |].
  intros j c' Hj Hc' Heq.
  assert (j = i); [|lia].
  apply (NoDup_lookup (idsOf cards) j i (Card.id c)); [done | |];
    unfold idsOf; rewrite list_lookup_fmap.
  - by rewrite Hc', <- Heq.
  - by rewrite Hi.
Qed.

Lemma swapWithAbove_swaps (j : nat) cards :
  (S j < length cards)%nat ->
  swapWithAbove (Z.of_nat (S j)) cards = Resolved (swapAdjacent j (idsOf cards)).
Proof.
  intros Hj. unfold swapWithAbove.
  replace (Z.of_nat (S j) - 1) with (Z.of_nat j) by lia.
  rewrite !arrayGet_spread.
  destruct (lookup_lt_is_Some_2 cards j) as [a Ha]; [lia|].
  destruct (lookup_lt_is_Some_2 cards (S j)) as [b Hb]; [done|].
  rewrite Ha, Hb.
  rewrite arraySet_spread by lia.
  rewrite arraySet_spread by (rewrite length_insert; lia).
  rewrite mapField_spread. f_equal.
  unfold idsOf. rewrite <- swapAdjacent_fmap. unfold swapAdjacent.
  by rewrite Ha, Hb.
Qed.

Lemma swapWithBelow_swaps (j : nat) cards :
  (S j < length cards)%nat ->
  swapWithBelow (Z.of_nat j) cards = Resolved (swapAdjacent j (idsOf cards)).
Proof.
  intros Hj. unfold swapWithBelow.
  replace (Z.of_nat j + 1) with (Z.of_nat (S j)) by lia.
  rewrite !arrayGet_spread.
  destruct (lookup_lt_is_Some_2 cards j) as [a Ha]; [lia|].
  destruct (lookup_lt_is_Some_2 cards (S j)) as [b Hb]; [done|].
  rewrite Ha, Hb.
  rewrite arraySet_spread by lia.
  rewrite arraySet_spread by (rewrite length_insert; lia).
  rewrite mapField_spread. f_equal.
  unfold idsOf. rewrite <- swapAdjacent_fmap. unfold swapAdjacent.
  rewrite Ha, Hb. f_equal. apply list_insert_insert_ne. lia.
Qed.

Lemma computeMoveUp_valid cardId cards (j : nat) :
  cardIndexOf cardId cards = Z.of_nat (S j) ->
  computeMoveUp cardId cards = Resolved (swapAdjacent j (idsOf cards)).
Proof.
  intros Hidx. unfold computeMoveUp, cannotMoveUp. rewrite Hidx.
  destruct (Z.leb_spec (Z.of_nat (S j)) 0) as [?|_]; [lia|].
  apply swapWithAbove_swaps.
  destruct (cardIndexOf_range cardId cards); lia.
Qed.

Lemma computeMoveUp_invalid cardId cards :
  cardIndexOf cardId cards <= 0 ->
  computeMoveUp cardId cards = Rejected InvalidMoveUp.
Proof.
  intros Hidx. unfold computeMoveUp, cannotMoveUp.
  by destruct (Z.leb_spec (cardIndexOf cardId cards) 0) as [_|?]; [|lia].
Qed.

Lemma computeMoveDown_valid cardId cards (j : nat) :
  cardIndexOf cardId cards = Z.of_nat j ->
  (S j < length cards)%nat ->
  computeMoveDown cardId cards = Resolved (swapAdjacent j (idsOf cards)).
Proof.
  intros Hidx Hj. unfold computeMoveDown, cannotMoveDown. rewrite Hidx.
  destruct (Z.geb_spec (Z.of_nat j) (Z.of_nat (length cards) - 1)) as [?|_]; [lia|].
  destruct (Z.eqb_spec (Z.of_nat j) (-1)) as [?|_]; [lia|].
  simpl. by apply swapWithBelow_swaps.
Qed.

Lemma computeMoveDown_invalid cardId cards :
  cardIndexOf cardId cards = -1 \/
  cardIndexOf cardId cards >= Z.of_nat (length cards) - 1 ->
  computeMoveDown cardId cards = Rejected InvalidMoveDown.
Proof.
  intros Hidx. unfold computeMoveDown, cannotMoveDown.
  destruct (Z.geb_spec (cardIndexOf cardId cards) (Z.of_nat (length cards) - 1));
    [done|].
  destruct (Z.eqb_spec (cardIndexOf cardId cards) (-1)); [done | lia].
Qed.

End Ordering.

(** ** Batches *)

Section Batches.
Implicit Types (s : Db) (ws : list Write) (now : nat) (ids : list string).

Lemma applyWrites_app now ws1 ws2 s :
  applyWrites now (ws1 ++ ws2) s =
    match applyWrites now ws1 s with
    | Some s' => applyWrites now ws2 s'
    | None => None
    end.
Proof.
  revert s. induction ws1 as [|w ws1 IH]; intros s; simpl; [done|].
  destruct (applyWrite now w s); [apply IH | done].
Qed.

Lemma foldl_batchUpdate (batch ws : list Write) :
  foldl batchUpdate batch ws = batch ++ ws.
Proof.
  revert batch. induction ws as [|w ws IH]; intros batch; simpl.
  - by rewrite app_nil_r.
  - rewrite IH. unfold batchUpdate. by rewrite <- app_assoc.
Qed.

Lemma reorderBatch_writes deckId ids :
  reorderBatch deckId ids = imap positionWrite ids ++ [deckWrite deckId].
Proof.
  unfold reorderBatch, writeBatch. rewrite foldl_batchUpdate. done.
Qed.

(** What the position updates of a batch do to the database. *)
Lemma applyWrites_positions (g : nat -> nat) now ids s s' :
  applyWrites now (imap (fun i => positionWrite (g i)) ids) s = Some s' ->
  decks s' = decks s /\
  serverTime s' = serverTime s /\
  (forall id, id ∉ ids -> cards s' !! id = cards s !! id) /\
  (forall id, id ∈ ids ->
     exists (k : nat) d0 d,
       ids !! k = Some id /\
       (forall k' : nat, (k < k')%nat -> ids !! k' <> Some id) /\
       cards s !! id = Some d0 /\
       cards s' !! id = Some d /\
       CardDoc.orderIndex d = Z.of_nat (g k) /\
       CardDoc.updatedAt d = now /\
       CardDoc.deckId d = CardDoc.deckId d0 /\
       CardDoc.title d = CardDoc.title d0 /\
       CardDoc.body d = CardDoc.body d0 /\
       CardDoc.createdAt d = CardDoc.createdAt d0).
Proof.
  revert g s. induction ids as [|x ids IH]; intros g s Happly.
  - injection Happly as <-.
    split; [done|]. split; [done|]. split; [done|].
    intros id Hid. by apply elem_of_nil in Hid.
  - simpl in Happly.
    destruct (cards s !! x) as [dx|] eqn:Hx; [|done].
    apply IH in Happly as (Hdecks & Htime & Hother & Hin). simpl in *.
    split; [done|]. split; [done|]. split.
    + intros id Hid. apply not_elem_of_cons in Hid as [Hne Hid].
      rewrite (Hother id Hid). by apply lookup_insert_ne.
    + intros id Hid.
      destruct (decide (id ∈ ids)) as [Hlater|Hnot].
      * destruct (Hin id Hlater)
          as (k & d0 & d & Hk & Hlast & Hd0 & Hd & Hidx & Hupd & Hrest).
        destruct (decide (x = id)) as [->|Hne].
        -- rewrite lookup_insert_eq in Hd0. injection Hd0 as <-.
           exists (S k), dx, d. repeat split; try done; try apply Hrest.
           intros [|k'] Hk'; [lia|]. apply Hlast. lia.
        -- rewrite lookup_insert_ne in Hd0 by done.
           exists (S k), d0, d. repeat split; try done; try apply Hrest.
           intros [|k'] Hk'; [lia|]. apply Hlast. lia.
      * assert (id = x) as -> by (apply elem_of_cons in Hid as [?|?]; done).
        exists 0%nat, dx, (patchCard now
                            (CardFields.mk None None None
                               (Some (Z.of_nat (g 0%nat))) None
                               (Some serverTimestamp)) dx).
        repeat split; try done.
        -- intros [|k'] Hk' Hlook; [lia|]. simpl in Hlook.
           apply Hnot. by apply list_elem_of_lookup_2 in Hlook.
        -- rewrite (Hother x Hnot). apply lookup_insert_eq.
Qed.

(** The whole batch of [reorderCards], when the server executes it. *)
Lemma applyWrites_reorderBatch deckId now ids s s' :
  applyWrites now (reorderBatch deckId ids) s = Some s' ->
  serverTime s' = serverTime s /\
  (forall id, id ∉ ids -> cards s' !! id = cards s !! id) /\
  (forall id, id ∈ ids ->
     exists (k : nat) d0 d,
       ids !! k = Some id /\
       (forall k' : nat, (k < k')%nat -> ids !! k' <> Some id) /\
       cards s !! id = Some d0 /\
       cards s' !! id = Some d /\
       CardDoc.orderIndex d = Z.of_nat k /\
       CardDoc.updatedAt d = now /\
       CardDoc.deckId d = CardDoc.deckId d0 /\
       CardDoc.title d = CardDoc.title d0 /\
       CardDoc.body d = CardDoc.body d0 /\
       CardDoc.createdAt d = CardDoc.createdAt d0) /\
  (exists d0, decks s !! deckId = Some d0 /\
     decks s' = <[deckId := patchDeck now (DeckFields.mk None (Some serverTimestamp)) d0]> (decks s)).
Proof.
  rewrite reorderBatch_writes, applyWrites_app.
  destruct (applyWrites now (imap positionWrite ids) s) as [s1|] eqn:Hcards;
    [|done].
  apply (applyWrites_positions (fun i => i)) in Hcards
    as (Hdecks & Htime & Hother & Hin).
  unfold deckWrite. simpl. rewrite Hdecks.
  destruct (decks s !! deckId) as [d0|] eqn:Hdeck; [|done].
  intros [= <-]. simpl. repeat split; try done.
  by exists d0.
Qed.

End Batches.

(** ** Running the operations *)

Ltac unfold_flow :=
  unfold throwIf, tryCatch, eval, batchCommit, updateDoc, deleteDoc, addDoc,
    getDocs, newDate, setLoading, setError, throw,
    mbind, Async_bind, mret, Async_ret.

Ltac unfold_async := unfold_flow; unfold await.

Section Running.
Variable deckId : string.
Implicit Types (w : World) (u : User.t) (cardIds : list string)
  (cards : list Card.t).

Lemma reorderCards_unauthenticated cardIds w :
  reorderCards deckId None cardIds w = (Rejected Unauthenticated, w).
Proof. reflexivity. Qed.

Lemma reorderCards_empty u w :
  reorderCards deckId (Some u) [] w = (Rejected InvalidArgument, w).
Proof. reflexivity. Qed.

(** Past its guards, [reorderCards] awaits exactly one call, the commit of
    its batch, with the busy flag raised, and settles the flags according
    to the outcome. *)
Lemma reorderCards_run u cardIds w :
  cardIds <> [] ->
  reorderCards deckId (Some u) cardIds w =
    let batch := reorderBatch deckId cardIds in
    let now := S (serverTime (db w)) in
    let failed e :=
      (Rejected e,
       mkWorld false (Some (orElse (message e) "Failed to reorder cards"))
         (db w) (today w) (tail (replies w))
         (awaits w ++ [mkAwait true (commitOf batch) (db w)])) in
    match mjoin (head (replies w)) with
    | Some e => failed e
    | None =>
        match applyWrites now batch (db w) with
        | Some s' =>
            let s := mkDb (cards s') (decks s') now in
            (Resolved tt,
             mkWorld false None s (today w) (tail (replies w))
               (awaits w ++ [mkAwait true (commitOf batch) s]))
        | None => failed notFound
        end
    end.
Proof.
  intros Hne. destruct cardIds as [|x xs]; [done|].
  unfold reorderCards. remember (reorderBatch deckId (x :: xs)) as batch.
  unfold_async. simpl.
  destruct (mjoin (head (replies w))) as [e|]; [done|].
  unfold commit.
  by destruct (applyWrites (S (serverTime (db w))) batch (db w)).
Qed.

(** The flags found at the call do not matter to [reorderCards] once it
    is past its guards. *)
Lemma reorderCards_flags u cardIds w l e :
  cardIds <> [] ->
  reorderCards deckId (Some u) cardIds
    (mkWorld l e (db w) (today w) (replies w) (awaits w)) =
  reorderCards deckId (Some u) cardIds w.
Proof. intros Hne. by rewrite !reorderCards_run. Qed.

Lemma moveCardUp_unauthenticated cardId cards w :
  moveCardUp deckId None cardId cards w = (Rejected Unauthenticated, w).
Proof. reflexivity. Qed.

Lemma moveCardDown_unauthenticated cardId cards w :
  moveCardDown deckId None cardId cards w = (Rejected Unauthenticated, w).
Proof. reflexivity. Qed.

Lemma moveCardUp_guard u cardId cards w :
  cannotMoveUp (cardIndexOf cardId cards) = true ->
  moveCardUp deckId (Some u) cardId cards w = (Rejected InvalidMoveUp, w).
Proof.
  intros Hguard. unfold moveCardUp. rewrite Hguard. reflexivity.
Qed.

Lemma moveCardDown_guard u cardId cards w :
  cannotMoveDown (cardIndexOf cardId cards) cards = true ->
  moveCardDown deckId (Some u) cardId cards w = (Rejected InvalidMoveDown, w).
Proof.
  intros Hguard. unfold moveCardDown. rewrite Hguard. reflexivity.
Qed.

(** Past its guards, [moveCardUp] is [reorderCards] on the swapped
    identifiers; a rejection is recorded in [error] once more and
    rethrown. *)
Lemma moveCardUp_run u cardId cards cardIds w :
  cannotMoveUp (cardIndexOf cardId cards) = false ->
  swapWithAbove (cardIndexOf cardId cards) cards = Resolved cardIds ->
  cardIds <> [] ->
  moveCardUp deckId (Some u) cardId cards w =
    match reorderCards deckId (Some u) cardIds w with
    | (Resolved a, w') => (Resolved a, w')
    | (Rejected e, w') =>
        (Rejected e,
         mkWorld false (Some (orElse (message e) "Failed to move card up"))
           (db w') (today w') (replies w') (awaits w'))
    end.
Proof.
  intros Hguard Hswap Hne. unfold moveCardUp. rewrite Hguard, Hswap.
  rewrite <- (reorderCards_flags u cardIds w true None Hne).
  unfold_async. simpl.
  by destruct (reorderCards deckId (Some u) cardIds _) as [[a|e] w'].
Qed.

Lemma moveCardDown_run u cardId cards cardIds w :
  cannotMoveDown (cardIndexOf cardId cards) cards = false ->
  swapWithBelow (cardIndexOf cardId cards) cards = Resolved cardIds ->
  cardIds <> [] ->
  moveCardDown deckId (Some u) cardId cards w =
    match reorderCards deckId (Some u) cardIds w with
    | (Resolved a, w') => (Resolved a, w')
    | (Rejected e, w') =>
        (Rejected e,
         mkWorld false (Some (orElse (message e) "Failed to move card down"))
           (db w') (today w') (replies w') (awaits w'))
    end.
Proof.
  intros Hguard Hswap Hne. unfold moveCardDown. rewrite Hguard, Hswap.
  rewrite <- (reorderCards_flags u cardIds w true None Hne).
  unfold_async. simpl.
  by destruct (reorderCards deckId (Some u) cardIds _) as [[a|e] w'].
Qed.

End Running.

(** ** The move operations as ordering computation followed by commit *)

Section Composition.
Variable deckId : string.
Implicit Types (w : World) (u : User.t) (cardId : string)
  (cardIds : list string) (cards : list Card.t).

Lemma findIndexFrom_missing {A} (p : A -> bool) (k : Z) (l : list A) :
  0 <= k ->
  findIndexFrom p k l = -1 ->
  Forall (fun x => p x = false) l.
Proof.
  revert k. induction l as [|x l IH]; intros k Hk Hfind; simpl in *.
  - constructor.
  - destruct (p x) eqn:Hx; [lia|].
    constructor; [done|]. apply (IH (k + 1)); [lia | done].
Qed.

Lemma cardIndexOf_missing cardId cards :
  cardIndexOf cardId cards = -1 -> cardId ∉ idsOf cards.
Proof.
  intros Hfind Hin. unfold idsOf in Hin.
  apply list_elem_of_fmap in Hin as (c & -> & Hc).
  apply findIndexFrom_missing in Hfind; [|lia].
  rewrite Forall_forall in Hfind. specialize (Hfind c Hc). simpl in Hfind.
  by apply String.eqb_neq in Hfind.
Qed.

(** The ordering computation of [moveCardUp] either yields the adjacent
    swap or fails with [InvalidMoveUp]; it never reads an [undefined]
    slot. *)
Lemma computeMoveUp_resolved cardId cards cardIds :
  computeMoveUp cardId cards = Resolved cardIds ->
  exists j : nat,
    cardIndexOf cardId cards = Z.of_nat (S j) /\
    (S j < length cards)%nat /\
    cardIds = swapAdjacent j (idsOf cards).
Proof.
  intros Hmove.
  destruct (cardIndexOf_range cardId cards) as [Hidx|Hidx].
  - rewrite computeMoveUp_invalid in Hmove by lia. done.
  - destruct (decide (cardIndexOf cardId cards = 0)) as [Hz|Hnz].
    + rewrite computeMoveUp_invalid in Hmove by lia. done.
    + exists (Z.to_nat (cardIndexOf cardId cards) - 1)%nat.
      assert (cardIndexOf cardId cards
              = Z.of_nat (S (Z.to_nat (cardIndexOf cardId cards) - 1))) as E
        by lia.
      split; [done|]. split; [lia|].
      rewrite (computeMoveUp_valid _ _ _ E) in Hmove. congruence.
Qed.

Lemma computeMoveUp_rejected cardId cards e :
  computeMoveUp cardId cards = Rejected e ->
  e = InvalidMoveUp /\ cannotMoveUp (cardIndexOf cardId cards) = true.
Proof.
  intros Hmove. unfold cannotMoveUp.
  destruct (Z.leb_spec (cardIndexOf cardId cards) 0) as [Hle|Hgt].
  - rewrite computeMoveUp_invalid in Hmove by done. split; congruence.
  - destruct (cardIndexOf_range cardId cards) as [Hidx|Hidx]; [lia|].
    assert (cardIndexOf cardId cards
            = Z.of_nat (S (Z.to_nat (cardIndexOf cardId cards) - 1))) as E
      by lia.
    rewrite (computeMoveUp_valid _ _ _ E) in Hmove. done.
Qed.

Lemma computeMoveDown_resolved cardId cards cardIds :
  computeMoveDown cardId cards = Resolved cardIds ->
  exists j : nat,
    cardIndexOf cardId cards = Z.of_nat j /\
    (S j < length cards)%nat /\
    cardIds = swapAdjacent j (idsOf cards).
Proof.
  intros Hmove.
  destruct (cardIndexOf_range cardId cards) as [Hidx|Hidx].
  - rewrite computeMoveDown_invalid in Hmove by (by left). done.
  - destruct (decide (cardIndexOf cardId cards >= Z.of_nat (length cards) - 1))
      as [Hlast|Hin].
    + rewrite computeMoveDown_invalid in Hmove by (by right). done.
    + exists (Z.to_nat (cardIndexOf cardId cards)).
      assert (cardIndexOf cardId cards
              = Z.of_nat (Z.to_nat (cardIndexOf cardId cards))) as E by lia.
      split; [done|]. split; [lia|].
      rewrite (computeMoveDown_valid _ _ _ E) in Hmove by lia. congruence.
Qed.

Lemma computeMoveDown_rejected cardId cards e :
  computeMoveDown cardId cards = Rejected e ->
  e = InvalidMoveDown /\
  cannotMoveDown (cardIndexOf cardId cards) cards = true.
Proof.
  intros Hmove.
  destruct (cannotMoveDown (cardIndexOf cardId cards) cards) eqn:Hguard.
  - unfold computeMoveDown in Hmove. rewrite Hguard in Hmove.
    split; congruence.
  - unfold cannotMoveDown in Hguard.
    apply orb_false_iff in Hguard as [Hlast Hfound].
    rewrite Z.geb_leb in Hlast. apply Z.leb_gt in Hlast.
    apply Z.eqb_neq in Hfound.
    destruct (cardIndexOf_range cardId cards) as [Hidx|Hidx]; [lia|].
    assert (cardIndexOf cardId cards
            = Z.of_nat (Z.to_nat (cardIndexOf cardId cards))) as E by lia.
    rewrite (computeMoveDown_valid _ _ _ E) in Hmove by lia. done.
Qed.

Lemma swapAdjacent_nonempty {A} (j : nat) (l : list A) :
  (S j < length l)%nat -> swapAdjacent j l <> [].
Proof.
  intros Hj Hnil. apply (f_equal length) in Hnil.
  rewrite swapAdjacent_length in Hnil. simpl in Hnil. lia.
Qed.

(** For a signed-in caller [moveCardUp] is its ordering computation
    followed by [reorderCards] on the result. *)
Lemma moveCardUp_rejects u cardId cards e w :
  computeMoveUp cardId cards = Rejected e ->
  moveCardUp deckId (Some u) cardId cards w = (Rejected e, w).
Proof.
  intros Hmove. apply computeMoveUp_rejected in Hmove as [-> Hguard].
  by apply moveCardUp_guard.
Qed.

Lemma moveCardUp_commits u cardId cards cardIds w :
  computeMoveUp cardId cards = Resolved cardIds ->
  moveCardUp deckId (Some u) cardId cards w =
    match reorderCards deckId (Some u) cardIds w with
    | (Resolved a, w') => (Resolved a, w')
    | (Rejected e, w') =>
        (Rejected e,
         mkWorld false (Some (orElse (message e) "Failed to move card up"))
           (db w') (today w') (replies w') (awaits w'))
    end.
Proof.
  intros Hmove.
  destruct (computeMoveUp_resolved _ _ _ Hmove) as (j & Hidx & Hj & ->).
  apply moveCardUp_run.
  - unfold cannotMoveUp. apply Z.leb_gt. lia.
  - rewrite Hidx. by apply swapWithAbove_swaps.
  - apply swapAdjacent_nonempty. unfold idsOf. by rewrite length_fmap.
Qed.

Lemma moveCardDown_rejects u cardId cards e w :
  computeMoveDown cardId cards = Rejected e ->
  moveCardDown deckId (Some u) cardId cards w = (Rejected e, w).
Proof.
  intros Hmove. apply computeMoveDown_rejected in Hmove as [-> Hguard].
  by apply moveCardDown_guard.
Qed.

Lemma moveCardDown_commits u cardId cards cardIds w :
  computeMoveDown cardId cards = Resolved cardIds ->
  moveCardDown deckId (Some u) cardId cards w =
    match reorderCards deckId (Some u) cardIds w with
    | (Resolved a, w') => (Resolved a, w')
    | (Rejected e, w') =>
        (Rejected e,
         mkWorld false (Some (orElse (message e) "Failed to move card down"))
           (db w') (today w') (replies w') (awaits w'))
    end.
Proof.
  intros Hmove.
  destruct (computeMoveDown_resolved _ _ _ Hmove) as (j & Hidx & Hj & ->).
  apply moveCardDown_run.
  - unfold cannotMoveDown. apply orb_false_iff. split.
    + rewrite Z.geb_leb. apply Z.leb_gt. lia.
    + apply Z.eqb_neq. lia.
  - rewrite Hidx. by apply swapWithBelow_swaps.
  - apply swapAdjacent_nonempty. unfold idsOf. by rewrite length_fmap.
Qed.

(** The calls awaited by [reorderCards] past its guards, and by the move
    operations. *)
Lemma reorderCards_requests u cardIds w :
  cardIds <> [] ->
  request <$> awaits (snd (reorderCards deckId (Some u) cardIds w)) =
    (request <$> awaits w) ++ [commitOf (reorderBatch deckId cardIds)].
Proof.
  intros Hne. rewrite reorderCards_run by done. simpl.
  destruct (mjoin (head (replies w))); simpl.
  - by rewrite fmap_app.
  - destruct (applyWrites _ _ _); simpl; by rewrite fmap_app.
Qed.

Lemma moveCardUp_requests u cardId cards cardIds w :
  computeMoveUp cardId cards = Resolved cardIds ->
  request <$> awaits (snd (moveCardUp deckId (Some u) cardId cards w)) =
    (request <$> awaits w) ++ [commitOf (reorderBatch deckId cardIds)].
Proof.
  intros Hmove. rewrite (moveCardUp_commits _ _ _ _ _ Hmove).
  destruct (computeMoveUp_resolved _ _ _ Hmove) as (j & _ & Hj & ->).
  rewrite <- (reorderCards_requests u); [|apply swapAdjacent_nonempty;
    unfold idsOf; by rewrite length_fmap].
  by destruct (reorderCards deckId (Some u) _ w) as [[a|e] w'].
Qed.

Lemma moveCardDown_requests u cardId cards cardIds w :
  computeMoveDown cardId cards = Resolved cardIds ->
  request <$> awaits (snd (moveCardDown deckId (Some u) cardId cards w)) =
    (request <$> awaits w) ++ [commitOf (reorderBatch deckId cardIds)].
Proof.
  intros Hmove. rewrite (moveCardDown_commits _ _ _ _ _ Hmove).
  destruct (computeMoveDown_resolved _ _ _ Hmove) as (j & _ & Hj & ->).
  rewrite <- (reorderCards_requests u); [|apply swapAdjacent_nonempty;
    unfold idsOf; by rewrite length_fmap].
  by destruct (reorderCards deckId (Some u) _ w) as [[a|e] w'].
Qed.

End Composition.

(** ** Move up, move down *)

(** C3. In a list of [n >= 2] cards with distinct identifiers, moving up
    the card at position [i], [1 <= i <= n-1], yields the identifiers of
    the input with positions [i-1] and [i] exchanged and every other
    position kept: same length, a permutation of the input; this sequence is
    what a signed-in caller's [moveCardUp] commits.  For a target at
    position [0] or absent from the list the computation fails with
    [InvalidMoveUp]; [moveCardUp] rejects with that error for a signed-in
    caller, and, whoever calls, awaits no storage call and leaves the world,
    hence every [orderIndex], as it was. *)
Theorem moveCardUp_swaps_with_the_card_above
  (deckId : string) (u : User.t) (cards : list Card.t) (w : World) :
  (forall (i : nat) (c : Card.t),
     NoDup (idsOf cards) ->
     (2 <= length cards)%nat ->
     (1 <= i)%nat ->
     cards !! i = Some c ->
     exists newOrder,
       computeMoveUp (Card.id c) cards = Resolved newOrder /\
       length newOrder = length cards /\
       newOrder !! (i - 1)%nat = idsOf cards !! i /\
       newOrder !! i = idsOf cards !! (i - 1)%nat /\
       (forall k : nat,
          k <> (i - 1)%nat -> k <> i -> newOrder !! k = idsOf cards !! k) /\
       newOrder ≡ₚ idsOf cards /\
       request <$>
         awaits (snd (moveCardUp deckId (Some u) (Card.id c) cards w)) =
         (request <$> awaits w) ++ [commitOf (reorderBatch deckId newOrder)]) /\
  (forall cardId,
     (exists c, cards !! 0%nat = Some c /\ Card.id c = cardId) \/
     cardId ∉ idsOf cards ->
     computeMoveUp cardId cards = Rejected InvalidMoveUp /\
     moveCardUp deckId (Some u) cardId cards w = (Rejected InvalidMoveUp, w) /\
     forall user, snd (moveCardUp deckId user cardId cards w) = w).
Proof.
  split.
  - intros i c Hnodup Hlen Hi Hc.
    destruct i as [|j]; [lia|].
    assert (S j < length cards)%nat as Hj by (by apply lookup_lt_Some in Hc).
    assert (S j < length (idsOf cards))%nat as Hj'
      by (unfold idsOf; by rewrite length_fmap).
    pose proof (cardIndexOf_NoDup cards (S j) c Hnodup Hc) as Hidx.
    pose proof (computeMoveUp_valid _ _ _ Hidx) as Hmove.
    exists (swapAdjacent j (idsOf cards)).
    replace (S j - 1)%nat with j by lia.
    split; [done|].
    split; [rewrite swapAdjacent_length; unfold idsOf; by rewrite length_fmap|].
    split; [rewrite swapAdjacent_lookup by done; by rewrite decide_True|].
    split.
    { rewrite swapAdjacent_lookup by done.
      rewrite decide_False by lia. by rewrite decide_True. }
    split.
    { intros k Hk1 Hk2. rewrite swapAdjacent_lookup by done.
      by rewrite !decide_False. }
    split; [apply swapAdjacent_perm|].
    by apply moveCardUp_requests.
  - intros cardId Htarget.
    assert (cardIndexOf cardId cards <= 0) as Hidx.
    { destruct Htarget as [(c & Hc & Hid)|Habsent].
      - rewrite (cardIndexOf_first cardId cards 0 c); [lia | done | done |].
        intros j c' Hj. lia.
      - rewrite cardIndexOf_absent by done. lia. }
    pose proof (computeMoveUp_invalid _ _ Hidx) as Hmove.
    split; [done|]. split; [by apply moveCardUp_rejects|].
    intros [u'|].
    + by rewrite (moveCardUp_rejects _ _ _ _ _ _ Hmove).
    + by rewrite moveCardUp_unauthenticated.
Qed.

Lemma moveCardUp_swaps_with_the_card_above_witness :
  (exists newOrder,
     computeMoveUp "C" Sample.abcd = Resolved newOrder /\
     newOrder = ["A"; "C"; "B"; "D"] /\
     request <$>
       awaits (snd (moveCardUp "deck" (Some Sample.alice) "C" Sample.abcd
                      Sample.idle)) =
       [commitOf (reorderBatch "deck" newOrder)]) /\
  moveCardUp "deck" (Some Sample.alice) "A" Sample.abcd Sample.idle =
    (Rejected InvalidMoveUp, Sample.idle).
Proof.
  destruct (moveCardUp_swaps_with_the_card_above
              "deck" Sample.alice Sample.abcd Sample.idle) as [Hvalid Hinvalid].
  split.
  - destruct (Hvalid 2%nat (Sample.card "C" 2))
      as (newOrder & Hmove & _ & _ & _ & _ & _ & Hreq).
    + apply (bool_decide_unpack _). vm_compute. exact I.
    + simpl. lia.
    + lia.
    + reflexivity.
    + exists newOrder. split; [exact Hmove|]. split; [|exact Hreq].
      vm_compute in Hmove. congruence.
  - apply (Hinvalid "A"). left. exists (Sample.card "A" 0).
    split; reflexivity.
Defined.

(** C4. Moving a card down fails with [InvalidMoveDown] when its
    identifier is not in the list, when the list is empty, and when the
    target is the last card of the list; a signed-in caller's
    [moveCardDown] rejects with that error and awaits nothing.  Otherwise
    the target is the card at a position [i] with [0 <= i < n-1], and the
    result is the identifier sequence with positions [i] and [i+1] exchanged
    and every other position kept; this sequence is what a signed-in
    caller's [moveCardDown] commits.  The position of the target is the
    position of the card of the list that carries the identifier, the first
    one should several carry it; the three cases are exhaustive. *)
Theorem moveCardDown_swaps_with_the_card_below
  (deckId : string) (u : User.t) (cardId : string) (cards : list Card.t)
  (w : World) :
  let isTargetAt (i : nat) :=
    (exists c, cards !! i = Some c /\ Card.id c = cardId) /\
    (forall (j : nat) c',
       (j < i)%nat -> cards !! j = Some c' -> Card.id c' <> cardId) in
  let fails :=
    computeMoveDown cardId cards = Rejected InvalidMoveDown /\
    moveCardDown deckId (Some u) cardId cards w
    = (Rejected InvalidMoveDown, w) in
  (cardId ∉ idsOf cards \/ cards = [] -> fails) /\
  (forall i : nat, isTargetAt i -> S i = length cards -> fails) /\
  (forall i : nat,
     isTargetAt i ->
     (S i < length cards)%nat ->
     exists newOrder,
       computeMoveDown cardId cards = Resolved newOrder /\
       length newOrder = length cards /\
       newOrder !! S i = Some cardId /\
       newOrder !! i = idsOf cards !! S i /\
       newOrder !! S i = idsOf cards !! i /\
       (forall k : nat,
          k <> i -> k <> S i -> newOrder !! k = idsOf cards !! k) /\
       request <$>
         awaits (snd (moveCardDown deckId (Some u) cardId cards w)) =
         (request <$> awaits w) ++ [commitOf (reorderBatch deckId newOrder)]) /\
  (cardId ∉ idsOf cards \/
   exists i : nat,
     isTargetAt i /\ (S i = length cards \/ (S i < length cards)%nat)) /\
  (NoDup (idsOf cards) ->
   forall (i : nat) c,
     cards !! i = Some c -> Card.id c = cardId -> isTargetAt i).
Proof.
  intros isTargetAt fails.
  assert (forall i : nat,
            isTargetAt i -> cardIndexOf cardId cards = Z.of_nat i) as Hpin.
  { intros i [(c & Hc & Hid) Hfirst]. by apply (cardIndexOf_first _ _ i c). }
  assert (cardIndexOf cardId cards = -1 \/
          cardIndexOf cardId cards >= Z.of_nat (length cards) - 1 -> fails)
    as Hfails.
  { intros Hidx.
    assert (computeMoveDown cardId cards = Rejected InvalidMoveDown) as Hmove
      by (by apply computeMoveDown_invalid).
    split; [done | by apply moveCardDown_rejects]. }
  split; [|split; [|split; [|split]]].
  - intros [Habsent| ->]; apply Hfails.
    + left. by apply cardIndexOf_absent.
    + by left.
  - intros i Htarget Hlast. apply Hfails. right.
    rewrite (Hpin i Htarget). lia.
  - intros i Htarget Hi.
    pose proof (Hpin i Htarget) as Hidx.
    destruct Htarget as [(c & Hc & Hid) _].
    assert (S i < length (idsOf cards))%nat as Hj'
      by (unfold idsOf; by rewrite length_fmap).
    pose proof (computeMoveDown_valid _ _ _ Hidx Hi) as Hmove.
    exists (swapAdjacent i (idsOf cards)).
    split; [done|].
    split; [rewrite swapAdjacent_length; unfold idsOf; by rewrite length_fmap|].
    assert (swapAdjacent i (idsOf cards) !! S i = idsOf cards !! i) as Hbelow.
    { rewrite swapAdjacent_lookup by done.
      rewrite decide_False by lia. by rewrite decide_True. }
    assert (idsOf cards !! i = Some cardId) as Hat.
    { unfold idsOf. rewrite list_lookup_fmap, Hc. simpl. by rewrite Hid. }
    split; [by rewrite Hbelow|].
    split; [rewrite swapAdjacent_lookup by done; by rewrite decide_True|].
    split; [done|].
    split.
    { intros k Hk1 Hk2. rewrite swapAdjacent_lookup by done.
      by rewrite !decide_False. }
    by apply moveCardDown_requests.
  - destruct (cardIndexOf_range cardId cards) as [Hidx|Hidx].
    + left. by apply cardIndexOf_missing.
    + right. exists (Z.to_nat (cardIndexOf cardId cards)).
      destruct (cardIndexOf_found cardId cards
                  (Z.to_nat (cardIndexOf cardId cards)))
        as (c & Hc & Hid & Hfirst); [lia|].
      split; [split; [by exists c | done]|]. lia.
  - intros Hnodup i c Hc Hid.
    split; [by exists c|].
    intros j c' Hj Hc' Heq.
    assert (j = i); [|lia].
    apply (NoDup_lookup (idsOf cards) j i cardId); [done | |];
      unfold idsOf; rewrite list_lookup_fmap.
    + by rewrite Hc', <- Heq.
    + by rewrite Hc, <- Hid.
Qed.

Lemma moveCardDown_swaps_with_the_card_below_witness :
  (exists newOrder,
     computeMoveDown "A" Sample.abcd = Resolved newOrder /\
     newOrder = ["B"; "A"; "C"; "D"] /\
     request <$>
       awaits (snd (moveCardDown "deck" (Some Sample.alice) "A" Sample.abcd
                      Sample.idle)) =
       [commitOf (reorderBatch "deck" newOrder)]) /\
  moveCardDown "deck" (Some Sample.alice) "D" Sample.abcd Sample.idle =
    (Rejected InvalidMoveDown, Sample.idle).
Proof.
  split.
  - destruct (moveCardDown_swaps_with_the_card_below
                "deck" Sample.alice "A" Sample.abcd Sample.idle)
      as (_ & _ & Hvalid & _).
    destruct (Hvalid 0%nat) as (newOrder & Hmove & _ & _ & _ & _ & _ & Hreq).
    + split; [by exists (Sample.card "A" 0)|]. intros j c' Hj. lia.
    + simpl. lia.
    + exists newOrder. split; [exact Hmove|]. split; [|exact Hreq].
      vm_compute in Hmove. congruence.
  - destruct (moveCardDown_swaps_with_the_card_below
                "deck" Sample.alice "D" Sample.abcd Sample.idle)
      as (_ & Hlast & _).
    apply (Hlast 3%nat); [|reflexivity].
    split; [by exists (Sample.card "D" 3)|].
    intros j c' Hj Hc'.
    destruct j as [|[|[|j]]]; [| | |lia]; injection Hc' as <-; discriminate.
Defined.

(** C8. In a list of [n >= 2] cards with distinct identifiers, moving up
    the card at position [i], [1 <= i <= n-1], and then moving the same card
    down in the list so ordered gives back the original order of
    identifiers; a signed-in caller's [moveCardUp] followed by
    [moveCardDown] commits first the swapped and then the original order. *)
Theorem moveCardUp_then_moveCardDown_restores_the_order
  (deckId : string) (u : User.t) (cards : list Card.t) (w : World)
  (i : nat) (c : Card.t) :
  NoDup (idsOf cards) ->
  (2 <= length cards)%nat ->
  (1 <= i)%nat ->
  cards !! i = Some c ->
  exists movedUp,
    computeMoveUp (Card.id c) cards = Resolved movedUp /\
    forall cards',
      idsOf cards' = movedUp ->
      computeMoveDown (Card.id c) cards' = Resolved (idsOf cards) /\
      let w1 := snd (moveCardUp deckId (Some u) (Card.id c) cards w) in
      let w2 := snd (moveCardDown deckId (Some u) (Card.id c) cards' w1) in
      request <$> awaits w2 =
        (request <$> awaits w) ++
          [commitOf (reorderBatch deckId movedUp);
           commitOf (reorderBatch deckId (idsOf cards))].
Proof.
  intros Hnodup Hlen Hi Hc.
  destruct i as [|j]; [lia|].
  assert (S j < length cards)%nat as Hj by (by apply lookup_lt_Some in Hc).
  assert (S j < length (idsOf cards))%nat as Hj'
    by (unfold idsOf; by rewrite length_fmap).
  pose proof (cardIndexOf_NoDup cards (S j) c Hnodup Hc) as Hidx.
  pose proof (computeMoveUp_valid _ _ _ Hidx) as Hup.
  exists (swapAdjacent j (idsOf cards)). split; [done|].
  intros cards' Hids'.
  assert (NoDup (idsOf cards')) as Hnodup'
    by (rewrite Hids', swapAdjacent_perm; done).
  assert (idsOf cards' !! j = Some (Card.id c)) as Htarget.
  { rewrite Hids', swapAdjacent_lookup by done. rewrite decide_True by done.
    unfold idsOf. by rewrite list_lookup_fmap, Hc. }
  unfold idsOf in Htarget. rewrite list_lookup_fmap in Htarget.
  destruct (cards' !! j) as [c'|] eqn:Hc'; [|done].
  injection Htarget as Hid.
  pose proof (cardIndexOf_NoDup cards' j c' Hnodup' Hc') as Hidx'.
  rewrite Hid in Hidx'.
  assert (S j < length cards')%nat as Hlen'.
  { apply (f_equal length) in Hids'. rewrite swapAdjacent_length in Hids'.
    unfold idsOf in Hids', Hj'. rewrite length_fmap in Hids'. lia. }
  pose proof (computeMoveDown_valid _ _ _ Hidx' Hlen') as Hdown.
  rewrite Hids', swapAdjacent_involutive in Hdown.
  split; [done|]. simpl.
  rewrite (moveCardDown_requests _ _ _ _ _ _ Hdown).
  rewrite (moveCardUp_requests _ _ _ _ _ _ Hup).
  by rewrite <- app_assoc.
Qed.

Lemma moveCardUp_then_moveCardDown_restores_the_order_witness :
  exists movedUp,
    computeMoveUp "B" Sample.abcd = Resolved movedUp /\
    forall cards',
      idsOf cards' = movedUp ->
      computeMoveDown "B" cards' = Resolved ["A"; "B"; "C"; "D"].
Proof.
  destruct (moveCardUp_then_moveCardDown_restores_the_order
              "deck" Sample.alice Sample.abcd Sample.idle 1%nat
              (Sample.card "B" 1))
    as (movedUp & Hup & Hdown).
  - apply (bool_decide_unpack _). vm_compute. exact I.
  - simpl. lia.
  - lia.
  - reflexivity.
  - exists movedUp. split; [exact Hup|].
    intros cards' Hids. exact (proj1 (Hdown cards' Hids)).
Defined.

(** ** The guards of [reorderCards] and of the move operations *)

(** C5. [reorderCards] rejects with [Unauthenticated] whenever there is no
    current user, and with [InvalidArgument] when a signed-in caller
    supplies an empty list.  In both cases the world after the call is the
    world before it: no storage call has been awaited, and no [orderIndex]
    and no timestamp has changed. *)
Theorem reorderCards_rejects_before_any_write
  (deckId : string) (user : option User.t) (cardIds : list string) (w : World) :
  user = None \/ cardIds = [] ->
  reorderCards deckId user cardIds w =
    (Rejected (if isNull user then Unauthenticated else InvalidArgument), w).
Proof.
  intros [-> | ->].
  - apply reorderCards_unauthenticated.
  - destruct user as [u|].
    + apply reorderCards_empty.
    + apply reorderCards_unauthenticated.
Qed.

Lemma reorderCards_rejects_before_any_write_witness :
  reorderCards "deck" None ["A"; "B"] Sample.idle =
    (Rejected Unauthenticated, Sample.idle) /\
  reorderCards "deck" (Some Sample.alice) [] Sample.idle =
    (Rejected InvalidArgument, Sample.idle).
Proof.
  split.
  - apply (reorderCards_rejects_before_any_write "deck" None ["A"; "B"]).
    left. reflexivity.
  - apply (reorderCards_rejects_before_any_write "deck" (Some Sample.alice) []).
    right. reflexivity.
Defined.

(** Without a current user [moveCardUp] rejects with [Unauthenticated] even
    though the target, the first card, cannot be moved up. *)
Lemma moveCardUp_checks_the_caller_first :
  cardIndexOf "A" Sample.abcd = 0 /\
  computeMoveUp "A" Sample.abcd = Rejected InvalidMoveUp /\
  fst (moveCardUp "deck" None "A" Sample.abcd Sample.idle)
    = Rejected Unauthenticated /\
  fst (moveCardUp "deck" None "A" Sample.abcd Sample.idle)
    <> Rejected InvalidMoveUp.
Proof. repeat split; try reflexivity. discriminate. Qed.

(** C6 (amended). The move operations check the caller first, then run the
    ordering computation, and only then commit.  Without a current user both
    reject with [Unauthenticated], whatever the target, and change nothing.
    For a signed-in caller: when the ordering computation fails, it fails
    with [InvalidMoveUp] / [InvalidMoveDown], and the operation rejects with
    that error and changes nothing; when it yields an order, the operation
    completes as [reorderCards] on that order does, with the same database
    and the same awaited calls, so that a rejection of the commit is
    rethrown unchanged, with the busy flag down and the failure recorded in
    [error]. *)
Theorem move_operations_check_caller_then_move_then_commit
  (deckId : string) (user : option User.t) (cardId : string)
  (cards : list Card.t) (w : World) :
  (user = None ->
   moveCardUp deckId user cardId cards w = (Rejected Unauthenticated, w) /\
   moveCardDown deckId user cardId cards w = (Rejected Unauthenticated, w)) /\
  (user <> None ->
   (forall e,
      computeMoveUp cardId cards = Rejected e ->
      e = InvalidMoveUp /\
      moveCardUp deckId user cardId cards w = (Rejected InvalidMoveUp, w)) /\
   (forall e,
      computeMoveDown cardId cards = Rejected e ->
      e = InvalidMoveDown /\
      moveCardDown deckId user cardId cards w = (Rejected InvalidMoveDown, w)) /\
   (forall cardIds,
      computeMoveUp cardId cards = Resolved cardIds ->
      let commit := reorderCards deckId user cardIds w in
      let move := moveCardUp deckId user cardId cards w in
      fst move = fst commit /\
      db (snd move) = db (snd commit) /\
      awaits (snd move) = awaits (snd commit) /\
      loading (snd move) = false /\
      forall e, fst commit = Rejected e ->
        error (snd move) = Some (orElse (message e) "Failed to move card up")) /\
   (forall cardIds,
      computeMoveDown cardId cards = Resolved cardIds ->
      let commit := reorderCards deckId user cardIds w in
      let move := moveCardDown deckId user cardId cards w in
      fst move = fst commit /\
      db (snd move) = db (snd commit) /\
      awaits (snd move) = awaits (snd commit) /\
      loading (snd move) = false /\
      forall e, fst commit = Rejected e ->
        error (snd move) = Some (orElse (message e) "Failed to move card down"))).
Proof.
  split.
  - intros ->. split; reflexivity.
  - intros Huser. destruct user as [u|]; [clear Huser | done].
    split; [|split; [|split]].
    + intros e Hmove.
      pose proof (computeMoveUp_rejected _ _ _ Hmove) as [-> _].
      split; [done | by apply moveCardUp_rejects].
    + intros e Hmove.
      pose proof (computeMoveDown_rejected _ _ _ Hmove) as [-> _].
      split; [done | by apply moveCardDown_rejects].
    + intros cardIds Hmove. simpl.
      rewrite (moveCardUp_commits _ _ _ _ _ _ Hmove).
      destruct (computeMoveUp_resolved _ _ _ Hmove) as (j & _ & Hj & Hids).
      assert (cardIds <> []) as Hne.
      { rewrite Hids. apply swapAdjacent_nonempty.
        unfold idsOf. by rewrite length_fmap. }
      pose proof (reorderCards_run deckId u cardIds w Hne) as Hrun.
      destruct (reorderCards deckId (Some u) cardIds w) as [[a|e] w'] eqn:Hc;
        simpl; repeat split; try done.
      * simpl in Hrun. destruct (mjoin (head (replies w))); [done|].
        destruct (applyWrites _ _ _); [|done]. by injection Hrun as _ ->.
      * intros e' [= <-]. done.
    + intros cardIds Hmove. simpl.
      rewrite (moveCardDown_commits _ _ _ _ _ _ Hmove).
      destruct (computeMoveDown_resolved _ _ _ Hmove) as (j & _ & Hj & Hids).
      assert (cardIds <> []) as Hne.
      { rewrite Hids. apply swapAdjacent_nonempty.
        unfold idsOf. by rewrite length_fmap. }
      pose proof (reorderCards_run deckId u cardIds w Hne) as Hrun.
      destruct (reorderCards deckId (Some u) cardIds w) as [[a|e] w'] eqn:Hc;
        simpl; repeat split; try done.
      * simpl in Hrun. destruct (mjoin (head (replies w))); [done|].
        destruct (applyWrites _ _ _); [|done]. by injection Hrun as _ ->.
      * intros e' [= <-]. done.
Qed.

Lemma move_operations_check_caller_then_move_then_commit_witness :
  moveCardUp "deck" None "A" Sample.abcd Sample.idle =
    (Rejected Unauthenticated, Sample.idle) /\
  moveCardUp "deck" (Some Sample.alice) "A" Sample.abcd Sample.idle =
    (Rejected InvalidMoveUp, Sample.idle) /\
  fst (moveCardUp "deck" (Some Sample.alice) "B" Sample.abcd Sample.offline) =
    fst (reorderCards "deck" (Some Sample.alice) ["B"; "A"; "C"; "D"]
           Sample.offline) /\
  error (snd (moveCardUp "deck" (Some Sample.alice) "B" Sample.abcd
                Sample.offline)) = Some "unavailable".
Proof.
  split; [|split].
  - destruct (move_operations_check_caller_then_move_then_commit
                "deck" None "A" Sample.abcd Sample.idle) as [Hnone _].
    apply Hnone. reflexivity.
  - destruct (move_operations_check_caller_then_move_then_commit
                "deck" (Some Sample.alice) "A" Sample.abcd Sample.idle)
      as [_ Hsome].
    destruct Hsome as (Hup & _); [discriminate|].
    apply (Hup InvalidMoveUp). reflexivity.
  - destruct (move_operations_check_caller_then_move_then_commit
                "deck" (Some Sample.alice) "B" Sample.abcd Sample.offline)
      as [_ Hsome].
    destruct Hsome as (_ & _ & Hcommit & _); [discriminate|].
    destruct (Hcommit ["B"; "A"; "C"; "D"])
      as (Hfst & _ & _ & _ & Herror); [reflexivity|].
    split; [exact Hfst|].
    apply (Herror (mkError "unavailable")). reflexivity.
Defined.

(** ** The commit of [reorderCards] *)

Section Commit.
Variable deckId : string.
Implicit Types (w : World) (user : option User.t) (cardIds : list string).

(** A call that resolves had a current user and a non-empty list, met no
    network failure, and found every document; the world it leaves is the
    one in which the server has executed the batch. *)
Lemma reorderCards_resolved user cardIds w :
  fst (reorderCards deckId user cardIds w) = Resolved tt ->
  exists u s',
    user = Some u /\
    cardIds <> [] /\
    mjoin (head (replies w)) = None /\
    applyWrites (S (serverTime (db w))) (reorderBatch deckId cardIds) (db w)
      = Some s' /\
    let s := mkDb (cards s') (decks s') (S (serverTime (db w))) in
    snd (reorderCards deckId user cardIds w) =
      mkWorld false None s (today w) (tail (replies w))
        (awaits w ++ [mkAwait true (commitOf (reorderBatch deckId cardIds)) s]).
Proof.
  destruct user as [u|]; [|done].
  destruct (decide (cardIds = [])) as [->|Hne]; [done|].
  rewrite reorderCards_run by done. simpl.
  destruct (mjoin (head (replies w))) as [e|]; [done|].
  destruct (applyWrites _ _ _) as [s'|] eqn:Happly; [|done].
  intros _. by exists u, s'.
Qed.

(** The positions written by a call that resolves on a list without
    repeated identifiers. *)
Lemma reorderCards_resolved_positions user cardIds w :
  NoDup cardIds ->
  fst (reorderCards deckId user cardIds w) = Resolved tt ->
  let w' := snd (reorderCards deckId user cardIds w) in
  let now := S (serverTime (db w)) in
  (forall (k : nat) id,
     cardIds !! k = Some id ->
     exists d0 d,
       cards (db w) !! id = Some d0 /\
       cards (db w') !! id = Some d /\
       CardDoc.orderIndex d = Z.of_nat k /\
       CardDoc.updatedAt d = now) /\
  (exists d0 d,
     decks (db w) !! deckId = Some d0 /\
     decks (db w') !! deckId = Some d /\
     DeckDoc.updatedAt d = now).
Proof.
  intros Hnodup Hok.
  destruct (reorderCards_resolved _ _ _ Hok)
    as (u & s' & _ & _ & _ & Happly & ->).
  apply applyWrites_reorderBatch in Happly as (_ & _ & Hin & d0 & Hdeck & Hdecks).
  simpl. split.
  - intros k id Hk.
    destruct (Hin id) as (k' & c0 & c & Hk' & _ & Hc0 & Hc & Hidx & Hupd & _).
    { by apply list_elem_of_lookup_2 in Hk. }
    assert (k' = k) as -> by (by apply (NoDup_lookup cardIds k' k id)).
    by exists c0, c.
  - exists d0, (patchDeck (S (serverTime (db w)))
                  (DeckFields.mk None (Some serverTimestamp)) d0).
    rewrite Hdecks, lookup_insert_eq. by repeat split.
Qed.

End Commit.

(** The sample store is timely. *)
Lemma Sample_store_timely : timely Sample.store.
Proof.
  split; intros id d Hd.
  - unfold Sample.store in Hd. cbn [cards decks] in Hd.
    apply elem_of_list_to_map_2 in Hd.
    repeat (apply elem_of_cons in Hd as [[= -> ->]|Hd]; [simpl; lia|]).
    by apply elem_of_nil in Hd.
  - unfold Sample.store in Hd. cbn [cards decks] in Hd.
    apply elem_of_list_to_map_2 in Hd.
    repeat (apply elem_of_cons in Hd as [[= -> ->]|Hd]; [simpl; lia|]).
    by apply elem_of_nil in Hd.
Qed.




(** C7. When [reorderCards] resolves on a list of [n] identifiers without
    repetition, the indices the [n] cards carry afterwards are, in the order
    of the list, [0, 1, ..., n-1]: pairwise distinct, and exactly the
    integers from [0] to [n-1]. *)
Theorem reorderCards_assigns_zero_to_n_minus_one
  (deckId : string) (user : option User.t) (cardIds : list string)
  (w : World) :
  NoDup cardIds ->
  fst (reorderCards deckId user cardIds w) = Resolved tt ->
  let assigned :=
    orderIndexes (db (snd (reorderCards deckId user cardIds w))) cardIds in
  assigned = (fun k : nat => Some (Z.of_nat k)) <$> seq 0 (length cardIds) /\
  NoDup assigned /\
  (forall z : Z, Some z ∈ assigned <-> 0 <= z < Z.of_nat (length cardIds)).
Proof.
  intros Hnodup Hok assigned.
  assert (assigned
          = (fun k : nat => Some (Z.of_nat k)) <$> seq 0 (length cardIds)) as E.
  { destruct (reorderCards_resolved_positions _ _ _ _ Hnodup Hok) as [Hcards _].
    subst assigned. unfold orderIndexes. apply list_eq. intros k.
    rewrite !list_lookup_fmap.
    destruct (cardIds !! k) as [id|] eqn:Hk; simpl.
    - destruct (Hcards k id Hk) as (d0 & d & _ & -> & Hidx & _). simpl.
      rewrite Hidx.
      rewrite lookup_seq_lt by (by apply lookup_lt_Some in Hk). done.
    - rewrite lookup_seq_ge by (by apply lookup_ge_None in Hk). done. }
  split; [done|]. rewrite E. split.
  - apply NoDup_fmap_2; [|apply NoDup_seq].
    intros k1 k2 [= Hk]. lia.
  - intros z. rewrite list_elem_of_fmap. split.
    + intros (k & [= ->] & Hk). apply elem_of_seq in Hk. lia.
    + intros Hz. exists (Z.to_nat z). split; [f_equal; lia|].
      apply elem_of_seq. lia.
Qed.

Lemma reorderCards_assigns_zero_to_n_minus_one_witness :
  orderIndexes
    (db (snd (reorderCards "deck" (Some Sample.alice) ["C"; "A"; "D"; "B"]
                Sample.idle)))
    ["C"; "A"; "D"; "B"] = [Some 0; Some 1; Some 2; Some 3].
Proof.
  destruct (reorderCards_assigns_zero_to_n_minus_one "deck" (Some Sample.alice)
              ["C"; "A"; "D"; "B"] Sample.idle) as [Hassigned _].
  - apply (bool_decide_unpack _). vm_compute. exact I.
  - vm_compute. reflexivity.
  - exact Hassigned.
Defined.

(** C1. A call of [reorderCards] with a non-empty list awaits at most one
    storage call, the commit of its batch.  The database a reader finds
    once the server has answered is the database at the end of the call,
    and that database is either the one before the call, or one in which
    every update of the batch is in effect: each supplied card carries the
    index of a position at which it was supplied, and all of them and the
    deck carry the time of the commit.  It is the latter when the call
    resolves and the former when it rejects. *)
Theorem reorderCards_commits_all_or_nothing
  (deckId : string) (user : option User.t) (cardIds : list string)
  (w : World) :
  cardIds <> [] ->
  let r := reorderCards deckId user cardIds w in
  let now := S (serverTime (db w)) in
  exists calls,
    awaits (snd r) = awaits w ++ calls /\
    (length calls <= 1)%nat /\
    Forall (fun a => request a = commitOf (reorderBatch deckId cardIds) /\
                     seen a = db (snd r)) calls /\
    (db (snd r) = db w \/ allWritten deckId cardIds now (db (snd r))) /\
    (fst r = Resolved tt -> allWritten deckId cardIds now (db (snd r))) /\
    (forall e, fst r = Rejected e -> db (snd r) = db w).
Proof.
  intros Hne r now.
  assert (forall s',
            applyWrites now (reorderBatch deckId cardIds) (db w) = Some s' ->
            allWritten deckId cardIds now (mkDb (cards s') (decks s') now))
    as Hwritten.
  { intros s' Happly.
    apply applyWrites_reorderBatch in Happly as (_ & _ & Hin & d0 & _ & Hdecks).
    split; simpl.
    - intros id Hid.
      destruct (Hin id Hid) as (k & c0 & c & Hk & _ & _ & Hc & Hidx & Hupd & _).
      by exists k, c.
    - rewrite Hdecks, lookup_insert_eq. by eexists. }
  subst r. destruct user as [u|].
  - rewrite reorderCards_run by done. simpl. fold now.
    destruct (mjoin (head (replies w))) as [e|]; simpl.
    + eexists. split; [done|]. split; [simpl; lia|].
      split; [by repeat constructor|]. split; [by left|]. by split.
    + destruct (applyWrites now _ (db w)) as [s'|] eqn:Happly; simpl.
      * eexists. split; [done|]. split; [simpl; lia|].
        split; [by repeat constructor|].
        split; [right; by apply Hwritten|].
        split; [intros _; by apply Hwritten | done].
      * eexists. split; [done|]. split; [simpl; lia|].
        split; [by repeat constructor|]. split; [by left|]. by split.
  - exists []. rewrite reorderCards_unauthenticated. simpl.
    rewrite app_nil_r. split; [done|]. split; [lia|].
    split; [constructor|]. split; [by left|]. by split.
Qed.

Lemma reorderCards_commits_all_or_nothing_witness :
  let r := reorderCards "deck" (Some Sample.alice) ["B"; "A"; "C"; "D"]
             Sample.idle in
  exists calls,
    awaits (snd r) = calls /\
    Forall (fun a => seen a = db (snd r)) calls /\
    allWritten "deck" ["B"; "A"; "C"; "D"] 1%nat (db (snd r)).
Proof.
  destruct (reorderCards_commits_all_or_nothing "deck" (Some Sample.alice)
              ["B"; "A"; "C"; "D"] Sample.idle)
    as (calls & Hcalls & _ & Hseen & _ & Hok & _).
  - discriminate.
  - exists calls. split; [exact Hcalls|]. split.
    + eapply Forall_impl; [exact Hseen|]. intros a [_ Ha]. exact Ha.
    + apply Hok. vm_compute. reflexivity.
Defined.

(** ** Rules for reasoning about asynchronous computations *)

Section Rules.
Context {A B : Type}.
Implicit Types (P I : World -> Prop) (E : Error -> World -> Prop).

Lemma triple_bind P (m : Async A) (k : A -> Async B)
  (Q : A -> World -> Prop) (R : B -> World -> Prop) E :
  triple P m Q E ->
  (forall a, triple (Q a) (k a) R E) ->
  triple P (m ≫= k) R E.
Proof.
  intros Hm Hk w Hw. specialize (Hm w Hw).
  unfold mbind, Async_bind. destruct (m w) as [[a|e] w']; [|done].
  by apply Hk.
Qed.

Lemma triple_tryCatch P (m : Async A) (handler : Error -> Async A)
  (Q : A -> World -> Prop) E E' :
  triple P m Q E ->
  (forall e, triple (E e) (handler e) Q E') ->
  triple P (tryCatch m handler) Q E'.
Proof.
  intros Hm Hh w Hw. specialize (Hm w Hw).
  unfold tryCatch. destruct (m w) as [[a|e] w']; [done|].
  by apply Hh.
Qed.

Lemma triple_await P (req : Request) (serve : Db -> Completion A * Db)
  (Q : A -> World -> Prop) E :
  (forall w res s,
     P w ->
     (exists e, mjoin (head (replies w)) = Some e /\ res = Rejected e /\ s = db w) \/
     (mjoin (head (replies w)) = None /\ serve (db w) = (res, s)) ->
     let w' := mkWorld (loading w) (error w) s (today w) (tail (replies w))
                 (awaits w ++ [mkAwait (loading w) req s]) in
     match res with
     | Resolved a => Q a w'
     | Rejected e => E e w'
     end) ->
  triple P (await req serve) Q E.
Proof.
  intros H w Hw. unfold await.
  destruct (mjoin (head (replies w))) as [e|] eqn:Hreply.
  - apply (H w (Rejected e) (db w) Hw). left. by exists e.
  - destruct (serve (db w)) as [res s] eqn:Hserve.
    specialize (H w res s Hw). simpl in H.
    destruct res; apply H; by right.
Qed.

(** Invariants *)

Lemma keeps_ret I (a : A) : keeps I (mret a).
Proof. by intros w Hw. Qed.

Lemma keeps_bind I (m : Async A) (k : A -> Async B) :
  keeps I m -> (forall a, keeps I (k a)) -> keeps I (m ≫= k).
Proof. intros Hm Hk. eapply triple_bind; [apply Hm | apply Hk]. Qed.

Lemma keeps_throw I (e : Error) : keeps I (@throw A e).
Proof. by intros w Hw. Qed.

Lemma keeps_tryCatch I (m : Async A) (handler : Error -> Async A) :
  keeps I m -> (forall e, keeps I (handler e)) -> keeps I (tryCatch m handler).
Proof. intros Hm Hh. eapply triple_tryCatch; [apply Hm | apply Hh]. Qed.

Lemma keeps_eval I (c : Completion A) : keeps I (eval c).
Proof. intros w Hw. unfold eval. by destruct c. Qed.

End Rules.

Lemma keeps_throwIf I (c : bool) (msg : string) : keeps I (throwIf c msg).
Proof. intros w Hw. unfold throwIf. by destruct c. Qed.

Lemma keeps_newDate I : keeps I newDate.
Proof. by intros w Hw. Qed.


(** ** Invariants of the database *)

Section DbInvariants.
Variable J : Db -> Prop.

Lemma keeps_setLoading b : keeps (onDb J) (setLoading b).
Proof. by intros w Hw. Qed.

Lemma keeps_setError e : keeps (onDb J) (setError e).
Proof. by intros w Hw. Qed.

Lemma keeps_await {A} (req : Request) (serve : Db -> Completion A * Db) :
  (forall s, J s -> J (snd (serve s))) ->
  keeps (onDb J) (await req serve).
Proof.
  intros Hserve. apply triple_await. intros w res s Hw [(e & _ & -> & ->)|[_ Hs]].
  - done.
  - specialize (Hserve (db w) Hw). rewrite Hs in Hserve.
    by destruct res.
Qed.

Lemma keeps_getDocs deckId : keeps (onDb J) (getDocs deckId).
Proof. by apply keeps_await. Qed.

End DbInvariants.

Ltac keeps_step :=
  lazymatch goal with
  | |- keeps _ (mbind _ _) => apply keeps_bind; [|intros ?]
  | |- keeps _ (tryCatch _ _) => apply keeps_tryCatch; [|intros ?]
  | |- keeps _ (setLoading _) => apply keeps_setLoading
  | |- keeps _ (setError _) => apply keeps_setError
  | |- keeps _ (getDocs _) => apply keeps_getDocs
  | |- keeps _ (throwIf _ _) => apply keeps_throwIf
  | |- keeps _ (throw _) => apply keeps_throw
  | |- keeps _ (mret _) => apply keeps_ret
  | |- keeps _ newDate => apply keeps_newDate
  | |- keeps _ (eval _) => apply keeps_eval
  end.

Ltac keeps_steps := repeat keeps_step.

(** *** The fields an edit does not touch *)

Lemma applyWrites_fixedFields now ws s s' :
  Forall keepsFixedFields ws ->
  applyWrites now ws s = Some s' ->
  forall id, fixedFields <$> cards s' !! id = fixedFields <$> cards s !! id.
Proof.
  intros Hws. revert s. induction Hws as [|w ws Hw _ IH]; intros s Happly id.
  - by injection Happly as <-.
  - simpl in Happly.
    destruct (applyWrite now w s) as [s1|] eqn:Hstep; [|done].
    rewrite (IH s1 Happly). clear IH Happly.
    destruct w as [cid data|did data]; simpl in *.
    + destruct (cards s !! cid) as [d|] eqn:Hd; [|done].
      injection Hstep as <-. simpl.
      destruct (decide (cid = id)) as [->|Hne].
      * rewrite lookup_insert_eq, Hd. simpl.
        destruct Hw as (Hidx & Hdeck & Hcreated).
        unfold fixedFields, patchCard. simpl.
        by rewrite Hidx, Hdeck, Hcreated.
      * by rewrite lookup_insert_ne.
    + destruct (decks s !! did); [|done]. by injection Hstep as <-.
Qed.

Lemma commit_fixedFields ws s :
  Forall keepsFixedFields ws ->
  forall id,
    fixedFields <$> cards (snd (commit ws s)) !! id
    = fixedFields <$> cards s !! id.
Proof.
  intros Hws id. unfold commit.
  destruct (applyWrites (S (serverTime s)) ws s) as [s'|] eqn:Happly; [|done].
  simpl. by apply (applyWrites_fixedFields _ _ _ _ Hws Happly).
Qed.

Lemma updateCard_keeps_fixedFields deckId user cardId updates (s0 : Db) :
  keeps
    (onDb (fun s => forall id,
             fixedFields <$> cards s !! id = fixedFields <$> cards s0 !! id))
    (updateCard deckId user cardId updates).
Proof.
  unfold updateCard. keeps_steps.
  - apply keeps_await. intros s Hs id.
    rewrite commit_fixedFields; [apply Hs|]. by repeat constructor.
  - apply keeps_await. intros s Hs id.
    rewrite commit_fixedFields; [apply Hs|]. by repeat constructor.
Qed.

(** C10. An edit through [updateCard] carries at most a title, a body and a
    modification time ([CardUpdates.t] has no other field), and whatever it
    carries and however the call completes, every stored card has the same
    [orderIndex], [deckId] and [createdAt] afterwards as before, and the
    stored cards have the same identifiers. *)
Theorem updateCard_never_touches_order_or_identity
  (deckId : string) (user : option User.t) (cardId : string)
  (updates : CardUpdates.t) (w : World) :
  let w' := snd (updateCard deckId user cardId updates w) in
  (forall id,
     fixedFields <$> cards (db w') !! id = fixedFields <$> cards (db w) !! id) /\
  dom (cards (db w')) = dom (cards (db w)).
Proof.
  intros w'.
  assert (forall id,
            fixedFields <$> cards (db w') !! id
            = fixedFields <$> cards (db w) !! id) as Hfixed.
  { pose proof (updateCard_keeps_fixedFields deckId user cardId updates (db w) w)
      as Hkeeps.
    subst w'. destruct (updateCard deckId user cardId updates w) as [[a|e] w1];
      by apply Hkeeps. }
  split; [done|].
  apply set_eq. intros id. rewrite !elem_of_dom.
  specialize (Hfixed id).
  destruct (cards (db w') !! id), (cards (db w) !! id); simpl in Hfixed;
    try done; split; intros [? ?]; done.
Qed.

(** *** Server time

    Every write of the hook stamps [serverTimestamp()], so no stored
    modification time is ever ahead of the server: [timely] is an invariant
    of the six operations. *)

Lemma applyWrite_notAfter now w s s' :
  serverStamped w ->
  notAfter now s ->
  applyWrite now w s = Some s' ->
  notAfter now s'.
Proof.
  intros Hw [Hcards Hdecks] Hstep.
  destruct w as [cid data|did data]; simpl in *.
  - destruct (cards s !! cid) as [d|] eqn:Hd; [|done].
    injection Hstep as <-. split; simpl; [|done].
    intros id d'. destruct (decide (cid = id)) as [->|Hne].
    + rewrite lookup_insert_eq. intros [= <-]. simpl.
      specialize (Hcards id d Hd).
      destruct Hw as [-> | ->]; simpl; lia.
    + rewrite lookup_insert_ne by done. apply Hcards.
  - destruct (decks s !! did) as [d|] eqn:Hd; [|done].
    injection Hstep as <-. split; simpl; [done|].
    intros id d'. destruct (decide (did = id)) as [->|Hne].
    + rewrite lookup_insert_eq. intros [= <-]. simpl.
      specialize (Hdecks id d Hd).
      destruct Hw as [-> | ->]; simpl; lia.
    + rewrite lookup_insert_ne by done. apply Hdecks.
Qed.

Lemma applyWrites_notAfter now ws s s' :
  Forall serverStamped ws ->
  notAfter now s ->
  applyWrites now ws s = Some s' ->
  notAfter now s'.
Proof.
  intros Hws. revert s. induction Hws as [|w ws Hw _ IH]; intros s Hs Happly.
  - by injection Happly as <-.
  - simpl in Happly.
    destruct (applyWrite now w s) as [s1|] eqn:Hstep; [|done].
    apply (IH s1); [|done]. by apply (applyWrite_notAfter now w s).
Qed.

Lemma notAfter_later t t' s : (t <= t')%nat -> notAfter t s -> notAfter t' s.
Proof.
  intros Ht [Hcards Hdecks]. split; intros id d Hd.
  - specialize (Hcards id d Hd). lia.
  - specialize (Hdecks id d Hd). lia.
Qed.

Lemma commit_timely ws s :
  Forall serverStamped ws -> timely s -> timely (snd (commit ws s)).
Proof.
  intros Hws Hs. unfold commit.
  destruct (applyWrites (S (serverTime s)) ws s) as [s'|] eqn:Happly; [|done].
  simpl. unfold timely. simpl.
  assert (notAfter (S (serverTime s)) s') as [Hcards Hdecks].
  { apply (applyWrites_notAfter _ ws s); [done | | done].
    apply (notAfter_later (serverTime s)); [lia | done]. }
  by split.
Qed.

Lemma add_timely data s :
  NewCard.updatedAt data = serverTimestamp ->
  timely s -> timely (snd (add data s)).
Proof.
  intros Hdata [Hcards Hdecks]. unfold add, timely. simpl. split; simpl.
  - intros id d. destruct (decide (fresh (dom (cards s)) = id)) as [->|Hne].
    + rewrite lookup_insert_eq. intros [= <-]. simpl. rewrite Hdata. simpl. lia.
    + rewrite lookup_insert_ne by done. intros Hd.
      specialize (Hcards id d Hd). lia.
  - intros id d Hd. specialize (Hdecks id d Hd). lia.
Qed.

Lemma remove_timely cardId s : timely s -> timely (remove cardId s).
Proof.
  intros [Hcards Hdecks]. unfold remove, timely. split; simpl.
  - intros id d Hd. apply lookup_delete_Some in Hd as [_ Hd].
    specialize (Hcards id d Hd). lia.
  - intros id d Hd. specialize (Hdecks id d Hd). lia.
Qed.

Lemma reorderBatch_serverStamped deckId cardIds :
  Forall serverStamped (reorderBatch deckId cardIds).
Proof.
  rewrite reorderBatch_writes. apply Forall_app. split.
  - apply Forall_lookup. intros i w Hw.
    rewrite list_lookup_imap in Hw.
    destruct (cardIds !! i); [|done]. injection Hw as <-. by right.
  - apply Forall_singleton. by right.
Qed.

Section Timely.
Variable deckId : string.
Variable user : option User.t.

Lemma reorderCards_timely cardIds :
  keeps (onDb timely) (reorderCards deckId user cardIds).
Proof.
  unfold reorderCards. keeps_steps.
  apply keeps_await. intros s Hs.
  apply commit_timely; [apply reorderBatch_serverStamped | done].
Qed.

Lemma createCard_timely title body :
  keeps (onDb timely) (createCard deckId user title body).
Proof.
  unfold createCard. cbv zeta. keeps_steps.
  - apply keeps_await. intros s Hs.
    destruct (add _ s) as [id s'] eqn:Hadd. simpl.
    change s' with (snd (id, s')). rewrite <- Hadd. by apply add_timely.
  - apply keeps_await. intros s Hs.
    apply commit_timely; [|done]. apply Forall_singleton. by right.
Qed.

Lemma updateCard_timely cardId updates :
  keeps (onDb timely) (updateCard deckId user cardId updates).
Proof.
  unfold updateCard. cbv zeta. keeps_steps.
  - apply keeps_await. intros s Hs.
    apply commit_timely; [|done]. apply Forall_singleton. by right.
  - apply keeps_await. intros s Hs.
    apply commit_timely; [|done]. apply Forall_singleton. by right.
Qed.

Lemma deleteCard_timely cardId :
  keeps (onDb timely) (deleteCard deckId user cardId).
Proof.
  unfold deleteCard. keeps_steps.
  - apply keeps_await. intros s Hs. by apply remove_timely.
  - apply keeps_await. intros s Hs.
    apply commit_timely; [|done]. apply Forall_singleton. by right.
Qed.

Lemma moveCardUp_timely cardId currentCards :
  keeps (onDb timely) (moveCardUp deckId user cardId currentCards).
Proof.
  unfold moveCardUp. cbv zeta. keeps_steps. apply reorderCards_timely.
Qed.

Lemma moveCardDown_timely cardId currentCards :
  keeps (onDb timely) (moveCardDown deckId user cardId currentCards).
Proof.
  unfold moveCardDown. cbv zeta. keeps_steps. apply reorderCards_timely.
Qed.

End Timely.


(** ** The busy flag *)

Lemma await_result {A} (req : Request) (serve : Db -> Completion A * Db) w :
  exists res s,
    await req serve w =
      (res, mkWorld (loading w) (error w) s (today w) (tail (replies w))
              (awaits w ++ [mkAwait (loading w) req s])).
Proof.
  unfold await. destruct (mjoin (head (replies w))) as [e|].
  - by eexists _, _.
  - destruct (serve (db w)) as [res s]. by eexists _, _.
Qed.

Ltac run_await :=
  match goal with
  | |- context [await ?req ?serve ?w] =>
      let res := fresh "res" in
      let s := fresh "s" in
      destruct (await_result req serve w) as (res & s & ->);
      destruct res; cbn -[await]
  end.


Section BusyFlag.
Variable deckId : string.
Variable user : option User.t.
Implicit Types (w : World).









End BusyFlag.

(** ** Calls that overlap *)

(** A task run on its own is the sequence of its pieces. *)
Lemma alone_bind {A B} (t : Overlap.Task A) (k : A -> Overlap.Task B) w :
  Overlap.alone (t ≫= k) w =
    match Overlap.alone t w with
    | (Resolved a, w') => Overlap.alone (k a) w'
    | (Rejected e, w') => (Rejected e, w')
    end.
Proof.
  revert w.
  induction t as [[a|e]|b next IH|e next IH|next IH|C req serve next IH];
    intros w; simpl; try done.
  destruct (await req serve w) as [r w']. apply IH.
Qed.

Lemma alone_tryCatch {A} (t : Overlap.Task A)
  (handler : Error -> Overlap.Task A) w :
  Overlap.alone (Overlap.tryCatch t handler) w =
    match Overlap.alone t w with
    | (Resolved a, w') => (Resolved a, w')
    | (Rejected e, w') => Overlap.alone (handler e) w'
    end.
Proof.
  revert w.
  induction t as [[a|e]|b next IH|e next IH|next IH|C req serve next IH];
    intros w; simpl; try done.
  destruct (await req serve w) as [r w']. apply IH.
Qed.

(** Answering the awaited calls of a task one after the other, with nothing
    in between, is running it on its own. *)
Lemma alone_advance {A} (t : Overlap.Task A) w :
  Overlap.alone t w =
    Overlap.alone (fst (Overlap.advance t w)) (snd (Overlap.advance t w)).
Proof.
  revert w. induction t as [c|b next IH|e next IH|next IH|C req serve next IH];
    intros w; simpl; done.
Qed.

Lemma alone_answer {A} (t : Overlap.Task A) w :
  Overlap.alone t w =
    Overlap.alone (fst (Overlap.answer t w)) (snd (Overlap.answer t w)).
Proof.
  destruct t as [c|b next|e next|next|C req serve next]; simpl; try done.
  destruct (await req serve w) as [r w']. apply alone_advance.
Qed.

(** A hook with a single call: whatever number of its awaited calls has
    been answered, what is left of the call, run on its own from the state
    reached, completes as the call run on its own from the start. *)
Lemma play_single_call (t : Overlap.Task unit) w (n : nat) :
  let h :=
    Overlap.play (Overlap.Called t :: replicate n (Overlap.Answered 0))
      (Overlap.mkHook w []) in
  exists t',
    Overlap.tasks h = [t'] /\
    Overlap.alone t w = Overlap.alone t' (Overlap.state h).
Proof.
  cbv zeta. unfold Overlap.play. induction n as [|n IH].
  - simpl. destruct (Overlap.advance t w) as [t' w'] eqn:Hadv. simpl.
    exists t'. split; [done|].
    rewrite (alone_advance t w). by rewrite Hadv.
  - destruct IH as (t1 & Htasks & Halone).
    rewrite replicate_S_end, app_comm_cons, foldl_app.
    set (h := foldl Overlap.step _ (_ :: replicate n _)) in *.
    simpl. rewrite Htasks. simpl.
    destruct (Overlap.answer t1 (Overlap.state h)) as [t2 w2] eqn:Hans.
    simpl. exists t2. split; [done|].
    rewrite Halone, (alone_answer t1 (Overlap.state h)). by rewrite Hans.
Qed.



Section Alone.
Variable deckId : string.
Variable user : option User.t.
Implicit Types (w : World).







End Alone.




(** ** Scenarios *)

(** The deck holds A, B, C, D at the indices 0, 1, 2, 3.  Moving A down
    commits [B; A; C; D]: A gets 1, B gets 0, C and D keep 2 and 3. *)
Example scenario_move_A_down :
  let r := moveCardDown "deck" (Some Sample.alice) "A" Sample.abcd Sample.idle in
  fst r = Resolved tt /\
  orderIndexes (db (snd r)) ["A"; "B"; "C"; "D"]
    = [Some 1; Some 0; Some 2; Some 3] /\
  loading (snd r) = false /\
  error (snd r) = None.
Proof. vm_compute. repeat split. Qed.

(** Moving A, already first, up fails and writes nothing. *)
Example scenario_move_A_up :
  moveCardUp "deck" (Some Sample.alice) "A" Sample.abcd Sample.idle
    = (Rejected InvalidMoveUp, Sample.idle).
Proof. reflexivity. Qed.

(** Moving D, already last, down fails and writes nothing; so does moving
    a card of an empty list. *)
Example scenario_move_D_down :
  moveCardDown "deck" (Some Sample.alice) "D" Sample.abcd Sample.idle
    = (Rejected InvalidMoveDown, Sample.idle) /\
  moveCardDown "deck" (Some Sample.alice) "any-card" [] Sample.idle
    = (Rejected InvalidMoveDown, Sample.idle).
Proof. split; reflexivity. Qed.

(** Moving B up and then down again, on the list as it is after the first
    move, leaves every card at its original index. *)
Example scenario_move_B_up_then_down :
  let w1 := snd (moveCardUp "deck" (Some Sample.alice) "B" Sample.abcd
                   Sample.idle) in
  let moved :=
    [Sample.card "B" 0; Sample.card "A" 1; Sample.card "C" 2;
     Sample.card "D" 3] in
  let w2 := snd (moveCardDown "deck" (Some Sample.alice) "B" moved w1) in
  orderIndexes (db w1) ["A"; "B"; "C"; "D"]
    = [Some 1; Some 0; Some 2; Some 3] /\
  orderIndexes (db w2) ["A"; "B"; "C"; "D"]
    = [Some 0; Some 1; Some 2; Some 3].
Proof. vm_compute. split; reflexivity. Qed.

(** A commit that names a card the deck does not have is rejected as a
    whole: no index changes. *)
Example scenario_commit_with_unknown_card :
  let r := reorderCards "deck" (Some Sample.alice) ["B"; "A"; "Z"] Sample.idle in
  fst r = Rejected notFound /\
  db (snd r) = db Sample.idle /\
  loading (snd r) = false /\
  error (snd r) = Some "No document to update".
Proof. vm_compute. repeat split. Qed.

(** * Further properties of the hook and of the card screen *)

(** ** More on the ordering computation *)

(** X1. Whenever the ordering computation of either move operation yields
    an order, whatever the list (identifiers may repeat), that order is a
    rearrangement of the identifiers it was given: same length, same
    identifiers with the same multiplicities; the list has then at least two
    cards and the target is among them. *)
Theorem move_computation_rearranges_the_identifiers
  (cardId : string) (cards : list Card.t) (newOrder : list string) :
  computeMoveUp cardId cards = Resolved newOrder \/
  computeMoveDown cardId cards = Resolved newOrder ->
  newOrder ≡ₚ idsOf cards /\
  length newOrder = length cards /\
  (2 <= length cards)%nat /\
  cardId ∈ newOrder.
Proof.
  intros Hmove.
  assert (exists j : nat,
            (S j < length cards)%nat /\
            newOrder = swapAdjacent j (idsOf cards) /\
            exists i : nat, cardIndexOf cardId cards = Z.of_nat i)
    as (j & Hj & -> & i & Hi).
  { destruct Hmove as [Hup|Hdown].
    - destruct (computeMoveUp_resolved _ _ _ Hup) as (j & Hidx & Hj & ->).
      exists j. repeat split; try done. by exists (S j).
    - destruct (computeMoveDown_resolved _ _ _ Hdown) as (j & Hidx & Hj & ->).
      exists j. repeat split; try done. by exists j. }
  split; [apply swapAdjacent_perm|].
  split; [rewrite swapAdjacent_length; unfold idsOf; by rewrite length_fmap|].
  split; [lia|].
  rewrite swapAdjacent_perm.
  destruct (cardIndexOf_found _ _ _ Hi) as (c & Hc & <- & _).
  unfold idsOf. apply list_elem_of_fmap_2.
  by apply list_elem_of_lookup_2 in Hc.
Qed.

Lemma move_computation_rearranges_the_identifiers_witness :
  ["A"; "C"; "B"; "D"] ≡ₚ idsOf Sample.abcd /\ "C" ∈ ["A"; "C"; "B"; "D"].
Proof.
  destruct (move_computation_rearranges_the_identifiers
              "C" Sample.abcd ["A"; "C"; "B"; "D"]) as (Hperm & _ & _ & Hin).
  - left. reflexivity.
  - split; [exact Hperm | exact Hin].
Defined.

(** X2. In a list of cards with distinct identifiers, moving down a card
    that is not the last and then moving the same card up, in the list so
    ordered, gives back the original order of identifiers. *)
Theorem moveCardDown_then_moveCardUp_restores_the_order
  (cards : list Card.t) (i : nat) (c : Card.t) :
  NoDup (idsOf cards) ->
  cards !! i = Some c ->
  (i < length cards - 1)%nat ->
  exists movedDown,
    computeMoveDown (Card.id c) cards = Resolved movedDown /\
    forall cards',
      idsOf cards' = movedDown ->
      computeMoveUp (Card.id c) cards' = Resolved (idsOf cards).
Proof.
  intros Hnodup Hc Hi.
  assert (S i < length cards)%nat as Hj by lia.
  assert (S i < length (idsOf cards))%nat as Hj'
    by (unfold idsOf; by rewrite length_fmap).
  pose proof (cardIndexOf_NoDup cards i c Hnodup Hc) as Hidx.
  pose proof (computeMoveDown_valid _ _ _ Hidx Hj) as Hdown.
  exists (swapAdjacent i (idsOf cards)). split; [done|].
  intros cards' Hids'.
  assert (NoDup (idsOf cards')) as Hnodup'
    by (rewrite Hids', swapAdjacent_perm; done).
  assert (idsOf cards' !! S i = Some (Card.id c)) as Htarget.
  { rewrite Hids', swapAdjacent_lookup by done.
    rewrite decide_False by lia. rewrite decide_True by done.
    unfold idsOf. by rewrite list_lookup_fmap, Hc. }
  unfold idsOf in Htarget. rewrite list_lookup_fmap in Htarget.
  destruct (cards' !! S i) as [c'|] eqn:Hc'; [|done].
  injection Htarget as Hid.
  pose proof (cardIndexOf_NoDup cards' (S i) c' Hnodup' Hc') as Hidx'.
  rewrite Hid in Hidx'.
  rewrite (computeMoveUp_valid _ _ _ Hidx').
  by rewrite Hids', swapAdjacent_involutive.
Qed.

Lemma moveCardDown_then_moveCardUp_restores_the_order_witness :
  exists movedDown,
    computeMoveDown "B" Sample.abcd = Resolved movedDown /\
    forall cards',
      idsOf cards' = movedDown ->
      computeMoveUp "B" cards' = Resolved ["A"; "B"; "C"; "D"].
Proof.
  apply (moveCardDown_then_moveCardUp_restores_the_order
           Sample.abcd 1%nat (Sample.card "B" 1)).
  - apply (bool_decide_unpack _). vm_compute. exact I.
  - reflexivity.
  - simpl. lia.
Defined.

(** ** The move controls of the card screen *)

(** X3. In a rendered list of cards with distinct identifiers, the
    enabling of the move controls agrees with the guards of the hook: the
    Up control of the card at [index] is enabled exactly when the ordering
    computation of [moveCardUp] yields an order for that card, and when it is
    disabled the computation fails with [InvalidMoveUp]; the same holds for
    Down. *)
Theorem move_controls_agree_with_the_guards
  (shown : list Card.t) (index : nat) (c : Card.t) :
  NoDup (idsOf shown) ->
  shown !! index = Some c ->
  (if CardScreen.canMoveUp index
   then exists newOrder, computeMoveUp (Card.id c) shown = Resolved newOrder
   else computeMoveUp (Card.id c) shown = Rejected InvalidMoveUp) /\
  (if CardScreen.canMoveDown index shown
   then exists newOrder, computeMoveDown (Card.id c) shown = Resolved newOrder
   else computeMoveDown (Card.id c) shown = Rejected InvalidMoveDown).
Proof.
  intros Hnodup Hc.
  pose proof (cardIndexOf_NoDup shown index c Hnodup Hc) as Hidx.
  pose proof (lookup_lt_Some _ _ _ Hc) as Hlen.
  split.
  - unfold CardScreen.canMoveUp.
    destruct (Z.ltb_spec 0 (Z.of_nat index)) as [Hpos|Hzero].
    + destruct index as [|j]; [lia|].
      eexists. by apply computeMoveUp_valid.
    + apply computeMoveUp_invalid. lia.
  - unfold CardScreen.canMoveDown.
    destruct (Z.ltb_spec (Z.of_nat index) (Z.of_nat (length shown) - 1))
      as [Hin|Hlast].
    + eexists. apply (computeMoveDown_valid _ _ index); [done | lia].
    + apply computeMoveDown_invalid. right. lia.
Qed.

Lemma move_controls_agree_with_the_guards_witness :
  computeMoveUp "A" Sample.abcd = Rejected InvalidMoveUp /\
  exists newOrder, computeMoveDown "A" Sample.abcd = Resolved newOrder.
Proof.
  destruct (move_controls_agree_with_the_guards
              Sample.abcd 0%nat (Sample.card "A" 0)) as [Hup Hdown].
  - apply (bool_decide_unpack _). vm_compute. exact I.
  - reflexivity.
  - split; [exact Hup | exact Hdown].
Defined.

(** ** The search filter and the preview of the card screen *)

Lemma List_filter_sublist {A} (p : A -> bool) (l : list A) :
  List.filter p l `sublist_of` l.
Proof.
  induction l as [|x l IH]; simpl; [constructor|].
  destruct (p x); by constructor.
Qed.

Lemma List_filter_fixed {A} (p : A -> bool) (l : list A) :
  List.filter p (List.filter p l) = List.filter p l.
Proof.
  induction l as [|x l IH]; simpl; [done|].
  destruct (p x) eqn:Hx; simpl; [|done]. by rewrite Hx, IH.
Qed.

Abbreviation chars := String.list_ascii_of_string (only parsing).

Lemma chars_rev_app (s1 s2 : string) :
  chars (String.rev_app s1 s2) = rev (chars s1) ++ chars s2.
Proof.
  revert s2. induction s1 as [|c s1 IH]; intros s2; simpl; [done|].
  rewrite IH. simpl. by rewrite <- app_assoc.
Qed.

Lemma chars_rev (s : string) : chars (String.rev s) = rev (chars s).
Proof. unfold String.rev. rewrite chars_rev_app. simpl. apply app_nil_r. Qed.

Lemma chars_empty (s : string) : chars s = [] <-> s = "".
Proof. by destruct s. Qed.

Lemma trimStart_blank (s : string) :
  Forall (fun c => isWhiteSpace c = true) (chars (trimStart s)) <->
  Forall (fun c => isWhiteSpace c = true) (chars s).
Proof.
  induction s as [|c s IH]; simpl; [done|].
  destruct (isWhiteSpace c) eqn:Hc; simpl; [|done].
  rewrite IH. split; [by constructor | by inversion 1].
Qed.

Lemma trimStart_empty (s : string) :
  trimStart s = "" <-> Forall (fun c => isWhiteSpace c = true) (chars s).
Proof.
  induction s as [|c s IH]; simpl; [done|].
  destruct (isWhiteSpace c) eqn:Hc.
  - rewrite IH. split; [by constructor | by inversion 1].
  - split; [done|]. inversion 1; congruence.
Qed.

(** [trim] yields the empty string exactly on strings of white space. *)
Lemma trim_empty (s : string) :
  trim s = "" <-> Forall (fun c => isWhiteSpace c = true) (chars s).
Proof.
  unfold trim. rewrite <- chars_empty, chars_rev.
  rewrite <- trimStart_blank.
  split.
  - intros Hnil. apply (f_equal (@rev _)) in Hnil.
    rewrite rev_involutive in Hnil. simpl in Hnil.
    apply chars_empty, trimStart_empty in Hnil.
    rewrite chars_rev in Hnil. by apply Forall_rev in Hnil;
      rewrite rev_involutive in Hnil.
  - intros Hblank.
    assert (trimStart (String.rev (trimStart s)) = "") as ->; [|done].
    apply trimStart_empty. rewrite chars_rev. by apply Forall_rev.
Qed.

Lemma prefix_append (q s : string) :
  String.prefix q s = true <-> exists after, s = q +:+ after.
Proof.
  revert s. induction q as [|a q IH]; intros s.
  - split; [intros _; by exists s | intros _; by destruct s].
  - destruct s as [|b s]; simpl.
    + split; [done | by intros [after ?]].
    + destruct (Ascii.ascii_dec a b) as [->|Hne].
      * rewrite IH. split.
        -- intros [after ->]. by exists after.
        -- intros [after [= ->]]. by exists after.
      * split; [done|]. intros [after [= ? _]]. by destruct Hne.
Qed.

(** [s.includes(query)] holds exactly when [query] occurs in [s]. *)
Lemma includes_append (s q : string) :
  CardScreen.includes s q = true <->
  exists before after, s = before +:+ q +:+ after.
Proof.
  induction s as [|c s IH]; cbn [CardScreen.includes].
  - rewrite orb_false_r, prefix_append. split.
    + intros [after ->]. by exists "", after.
    + intros (before & after & Hs). destruct before; [|done].
      by exists after.
  - rewrite orb_true_iff, prefix_append, IH. split.
    + intros [[after ->]|(before & after & ->)].
      * by exists "", after.
      * by exists (String c before), after.
    + intros (before & after & Hs). destruct before as [|c' before].
      * left. by exists after.
      * right. injection Hs as _ ->. by exists before, after.
Qed.

Lemma lowerChar_lowerChar (c : Ascii.ascii) :
  CardScreen.lowerChar (CardScreen.lowerChar c) = CardScreen.lowerChar c.
Proof. by destruct c as [[] [] [] [] [] [] [] []]. Qed.

Lemma isWhiteSpace_lowerChar (c : Ascii.ascii) :
  isWhiteSpace (CardScreen.lowerChar c) = isWhiteSpace c.
Proof. by destruct c as [[] [] [] [] [] [] [] []]. Qed.

Lemma toLowerCase_toLowerCase (s : string) :
  CardScreen.toLowerCase (CardScreen.toLowerCase s) = CardScreen.toLowerCase s.
Proof.
  induction s as [|c s IH]; simpl; [done|].
  by rewrite lowerChar_lowerChar, IH.
Qed.

Lemma chars_toLowerCase (s : string) :
  chars (CardScreen.toLowerCase s) = CardScreen.lowerChar <$> chars s.
Proof. induction s as [|c s IH]; simpl; [done | by rewrite IH]. Qed.

(** Lowering the case makes no text blank, and no blank text visible. *)
Lemma trim_toLowerCase_empty (s : string) :
  trim (CardScreen.toLowerCase s) = "" <-> trim s = "".
Proof.
  rewrite !trim_empty, chars_toLowerCase, Forall_fmap.
  apply Forall_iff. intros c. simpl. by rewrite isWhiteSpace_lowerChar.
Qed.

(** X4. The cards shown under a search are cards of the deck, in the
    order of the deck; with a blank search they are all the cards; with any
    other search a card is shown exactly when the search text, lower-cased
    and trimmed, occurs in its lower-cased title or in its lower-cased body.
    Distinct identifiers stay distinct, filtering what is shown again
    changes nothing, and the case of the search text does not matter. *)
Theorem filteredCards_shows_the_matching_cards_in_order
  (cards : list Card.t) (searchQuery : string) :
  let shown := CardScreen.filteredCards cards searchQuery in
  let query := trim (CardScreen.toLowerCase searchQuery) in
  let contains (text : string) :=
    exists before after,
      CardScreen.toLowerCase text = before +:+ query +:+ after in
  shown `sublist_of` cards /\
  (trim searchQuery = "" -> shown = cards) /\
  (trim searchQuery <> "" ->
   forall card,
     card ∈ shown <->
     card ∈ cards /\
     (contains (Card.title card) \/ contains (Card.body card))) /\
  (NoDup (idsOf cards) -> NoDup (idsOf shown)) /\
  CardScreen.filteredCards shown searchQuery = shown /\
  CardScreen.filteredCards cards (CardScreen.toLowerCase searchQuery) = shown.
Proof.
  intros shown query contains.
  assert (CardScreen.filteredCards cards (CardScreen.toLowerCase searchQuery)
          = shown) as Hcase.
  { subst shown. unfold CardScreen.filteredCards, isEmpty.
    rewrite toLowerCase_toLowerCase.
    destruct (String.eqb_spec (trim searchQuery) "") as [Hblank|Hquery];
      destruct (String.eqb_spec
                  (trim (CardScreen.toLowerCase searchQuery)) "")
        as [Hblank'|Hquery']; try done.
    - destruct Hquery'. by apply trim_toLowerCase_empty.
    - destruct Hquery. by apply trim_toLowerCase_empty. }
  subst shown. unfold CardScreen.filteredCards, isEmpty in *.
  destruct (String.eqb_spec (trim searchQuery) "") as [Hblank|Hquery].
  - split; [done|]. split; [done|]. split; [done|]. by split.
  - assert (List.filter (CardScreen.matches query) cards `sublist_of` cards)
      as Hsub by apply List_filter_sublist.
    split; [done|]. split; [done|]. split; [|split; [|split]].
    + intros _ card. rewrite !list_elem_of_In, List.filter_In.
      unfold CardScreen.matches.
      by rewrite orb_true_iff, !includes_append.
    + intros Hnodup. apply (sublist_NoDup _ (idsOf cards)); [done|].
      unfold idsOf. by apply fmap_sublist.
    + apply List_filter_fixed.
    + done.
Qed.

Lemma filteredCards_shows_the_matching_cards_in_order_witness :
  CardScreen.filteredCards Sample.fruits "  " = Sample.fruits /\
  (Card.mk "C" "deck" "Apricot" "" 2 0%nat 0%nat
     ∈ CardScreen.filteredCards Sample.fruits " AP ").
Proof.
  split.
  - destruct (filteredCards_shows_the_matching_cards_in_order
                Sample.fruits "  ") as (_ & Hblank & _).
    apply Hblank. reflexivity.
  - destruct (filteredCards_shows_the_matching_cards_in_order
                Sample.fruits " AP ") as (_ & _ & Hquery & _).
    apply (Hquery ltac:(discriminate)).
    split; [apply list_elem_of_lookup; by exists 2%nat|].
    left. by exists "", "ricot".
Defined.

Lemma substring_from_start (n : nat) (s : string) :
  (n <= String.length s)%nat ->
  exists rest,
    s = String.append (String.substring 0 n s) rest /\
    String.length (String.substring 0 n s) = n.
Proof.
  revert s. induction n as [|n IH]; intros s Hn.
  - exists s. by destruct s.
  - destruct s as [|c s]; simpl in *; [lia|].
    destruct (IH s) as (rest & Hs & Hlen); [lia|].
    exists rest. split; [|by rewrite Hlen].
    change (String c s = String c (String.substring 0 n s +:+ rest)).
    by f_equal.
Qed.

Lemma String_length_append (s1 s2 : string) :
  String.length (String.append s1 s2)
  = (String.length s1 + String.length s2)%nat.
Proof. induction s1 as [|c s1 IH]; simpl; [done | by rewrite IH]. Qed.

(** X5. The preview of a card body is the body itself when the body has at
    most [maxLength] characters (120 when none is given); otherwise it is
    the first [maxLength] characters of the body followed by three dots.  It
    is never longer than [maxLength + 3]. *)
Theorem truncateBody_keeps_a_prefix
  (body : string) (maxLength : option nat) :
  let limit := default 120%nat maxLength in
  let preview := CardScreen.truncateBody body maxLength in
  ((String.length body <= limit)%nat -> preview = body) /\
  ((limit < String.length body)%nat ->
   exists first rest,
     body = String.append first rest /\
     String.length first = limit /\
     preview = String.append first "...") /\
  (String.length preview <= limit + 3)%nat.
Proof.
  intros limit preview. subst preview. unfold CardScreen.truncateBody.
  fold limit.
  destruct (Nat.leb_spec (String.length body) limit) as [Hshort|Hlong].
  - split; [done|]. split; [lia|]. lia.
  - destruct (substring_from_start limit body) as (rest & Hbody & Hlen); [lia|].
    split; [lia|]. split.
    + intros _. by exists (String.substring 0 limit body), rest.
    + rewrite String_length_append, Hlen. simpl. lia.
Qed.

Lemma truncateBody_keeps_a_prefix_witness :
  CardScreen.truncateBody "No description" None = "No description" /\
  exists first rest,
    "abcdefgh" = String.append first rest /\
    String.length first = 3%nat /\
    CardScreen.truncateBody "abcdefgh" (Some 3%nat) = String.append first "...".
Proof.
  split.
  - destruct (truncateBody_keeps_a_prefix "No description" None)
      as (Hshort & _).
    apply Hshort. simpl. lia.
  - destruct (truncateBody_keeps_a_prefix "abcdefgh" (Some 3%nat))
      as (_ & Hlong & _).
    apply Hlong. simpl. lia.
Defined.

(** ** Creating, editing and deleting cards *)

Lemma await_inv {A} (req : Request) (serve : Db -> Completion A * Db)
  (w : World) res w' :
  await req serve w = (res, w') ->
  loading w' = loading w /\
  error w' = error w /\
  today w' = today w /\
  replies w' = tail (replies w) /\
  awaits w' = awaits w ++ [mkAwait (loading w) req (db w')] /\
  ((exists e,
      mjoin (head (replies w)) = Some e /\ res = Rejected e /\ db w' = db w) \/
   (mjoin (head (replies w)) = None /\ serve (db w) = (res, db w'))).
Proof.
  unfold await. destruct (mjoin (head (replies w))) as [e|].
  - intros [= <- <-]. simpl. repeat split; try done. left. by exists e.
  - destruct (serve (db w)) as [r s] eqn:Hs. intros [= <- <-]. simpl.
    repeat split; try done. by right.
Qed.

Lemma isEmpty_false (s : string) : s <> "" -> isEmpty s = false.
Proof. intros Hs. by apply String.eqb_neq. Qed.

Lemma isEmpty_true (s : string) : isEmpty s = true -> s = "".
Proof. intros Hs. by apply String.eqb_eq. Qed.

Ltac unfold_control :=
  unfold throwIf, tryCatch, eval, newDate, setLoading, setError, throw,
    mbind, Async_bind, mret, Async_ret.

Section Editing.
Variable deckId : string.
Implicit Types (w : World) (u : User.t) (cardId title : string).

(** Past its guards, [createCard] awaits the query, the insertion and the
    update of the deck, in this order, and stops at the first that is
    rejected. *)
Lemma createCard_run u title body w :
  deckId <> "" ->
  trim title <> "" ->
  createCard deckId (Some u) title body w =
    let failed (e : Error) (w1 : World) : Completion Card.t * World :=
      (Rejected e,
       mkWorld false (Some (orElse (message e) "Failed to create card"))
         (db w1) (today w1) (replies w1) (awaits w1)) in
    match getDocs deckId
            (mkWorld true None (db w) (today w) (replies w) (awaits w)) with
    | (Rejected e, w1) => failed e w1
    | (Resolved existingCards, w1) =>
        let index :=
          addNumbers
            (foldl (fun max doc =>
                      Z.max max (orZero (CardDoc.orderIndex doc.2)))
                   (-1) existingCards) 1 in
        match addDoc
                (NewCard.mk deckId (trim title) (trim (default "" body)) index
                   serverTimestamp serverTimestamp) w1 with
        | (Rejected e, w2) => failed e w2
        | (Resolved docRef, w2) =>
            match updateDoc
                    (updateDeckDoc deckId
                       (DeckFields.mk
                          (Some (Z.of_nat (length existingCards) + 1))
                          (Some serverTimestamp))) w2 with
            | (Rejected e, w3) => failed e w3
            | (Resolved _, w3) =>
                (Resolved
                   (Card.mk docRef deckId (trim title)
                      (trim (default "" body)) index (today w3) (today w3)),
                 mkWorld false None (db w3) (today w3) (replies w3)
                   (awaits w3))
            end
        end
    end.
Proof.
  intros Hdeck Htitle. unfold createCard.
  rewrite (isEmpty_false _ Hdeck), (isEmpty_false _ Htitle).
  unfold_control. cbn -[getDocs addDoc updateDoc].
  destruct (getDocs deckId _) as [[existing|e] w1]; [|done].
  cbn -[getDocs addDoc updateDoc].
  destruct (addDoc _ w1) as [[docRef|e] w2]; [|done].
  cbn -[getDocs addDoc updateDoc].
  by destruct (updateDoc _ w2) as [[[]|e] w3].
Qed.

Lemma updateCard_run u cardId updates w :
  trim cardId <> "" ->
  updateCard deckId (Some u) cardId updates w =
    let failed (e : Error) (w1 : World) : Completion unit * World :=
      (Rejected e,
       mkWorld false (Some (orElse (message e) "Failed to update card"))
         (db w1) (today w1) (replies w1) (awaits w1)) in
    match updateDoc
            (updateCardDoc cardId
               (CardFields.mk None (CardUpdates.title updates)
                  (CardUpdates.body updates) None None (Some serverTimestamp)))
            (mkWorld true None (db w) (today w) (replies w) (awaits w)) with
    | (Rejected e, w1) => failed e w1
    | (Resolved _, w1) =>
        match updateDoc
                (updateDeckDoc deckId (DeckFields.mk None (Some serverTimestamp)))
                w1 with
        | (Rejected e, w2) => failed e w2
        | (Resolved _, w2) =>
            (Resolved tt,
             mkWorld false None (db w2) (today w2) (replies w2) (awaits w2))
        end
    end.
Proof.
  intros Hid. unfold updateCard. rewrite (isEmpty_false _ Hid).
  unfold_control. cbn -[updateDoc].
  destruct (updateDoc _ _) as [[[]|e] w1]; [|done].
  cbn -[updateDoc].
  by destruct (updateDoc _ w1) as [[[]|e] w2].
Qed.

Lemma deleteCard_run u cardId w :
  trim cardId <> "" ->
  deleteCard deckId (Some u) cardId w =
    let failed (e : Error) (w1 : World) : Completion unit * World :=
      (Rejected e,
       mkWorld false (Some (orElse (message e) "Failed to delete card"))
         (db w1) (today w1) (replies w1) (awaits w1)) in
    match deleteDoc cardId
            (mkWorld true None (db w) (today w) (replies w) (awaits w)) with
    | (Rejected e, w1) => failed e w1
    | (Resolved _, w1) =>
        match getDocs deckId w1 with
        | (Rejected e, w2) => failed e w2
        | (Resolved remainingCards, w2) =>
            match updateDoc
                    (updateDeckDoc deckId
                       (DeckFields.mk
                          (Some (Z.of_nat (length remainingCards)))
                          (Some serverTimestamp))) w2 with
            | (Rejected e, w3) => failed e w3
            | (Resolved _, w3) =>
                (Resolved tt,
                 mkWorld false None (db w3) (today w3) (replies w3)
                   (awaits w3))
            end
        end
    end.
Proof.
  intros Hid. unfold deleteCard. rewrite (isEmpty_false _ Hid).
  unfold_control. cbn -[getDocs deleteDoc updateDoc].
  destruct (deleteDoc cardId _) as [[[]|e] w1]; [|done].
  cbn -[getDocs deleteDoc updateDoc].
  destruct (getDocs deckId w1) as [[remaining|e] w2]; [|done].
  cbn -[getDocs deleteDoc updateDoc].
  by destruct (updateDoc _ w2) as [[[]|e] w3].
Qed.

End Editing.

(** *** White space *)

(** *** Guards *)

Section EditGuards.
Variable deckId : string.
Implicit Types (w : World) (user : option User.t).

Lemma createCard_guarded user title body w :
  user = None \/ deckId = "" \/ trim title = "" ->
  createCard deckId user title body w =
    (Rejected
       (mkError
          (if isNull user then "User must be authenticated"
           else if isEmpty deckId then "Deck ID is required"
           else "Card title is required")),
     w).
Proof.
  intros Hguard. unfold createCard.
  destruct user as [u|]; [|done]. simpl.
  destruct (isEmpty deckId) eqn:Hdeck; [done|].
  destruct (isEmpty (trim title)) eqn:Htitle; [done|].
  destruct Hguard as [?|[Hd|Ht]]; [done | by rewrite Hd in Hdeck |].
  by rewrite Ht in Htitle.
Qed.

Lemma updateCard_guarded user cardId updates w :
  user = None \/ trim cardId = "" ->
  updateCard deckId user cardId updates w =
    (Rejected
       (mkError
          (if isNull user then "User must be authenticated"
           else "Card ID is required")),
     w).
Proof.
  intros Hguard. unfold updateCard.
  destruct user as [u|]; [|done]. simpl.
  destruct (isEmpty (trim cardId)) eqn:Hid; [done|].
  destruct Hguard as [?|Ht]; [done | by rewrite Ht in Hid].
Qed.

Lemma deleteCard_guarded user cardId w :
  user = None \/ trim cardId = "" ->
  deleteCard deckId user cardId w =
    (Rejected
       (mkError
          (if isNull user then "User must be authenticated"
           else "Card ID is required")),
     w).
Proof.
  intros Hguard. unfold deleteCard.
  destruct user as [u|]; [|done]. simpl.
  destruct (isEmpty (trim cardId)) eqn:Hid; [done|].
  destruct Hguard as [?|Ht]; [done | by rewrite Ht in Hid].
Qed.

End EditGuards.

(** X6. [createCard] rejects, before any storage call and without touching
    the flags, a call without a current user ('User must be authenticated'),
    otherwise a call of a hook without a deck identifier ('Deck ID is
    required'), otherwise a title that is empty or made of white space only
    ('Card title is required'). *)
Theorem createCard_rejects_before_any_call
  (deckId : string) (user : option User.t) (title : string)
  (body : option string) (w : World) :
  user = None \/
  deckId = "" \/
  Forall (fun c => isWhiteSpace c = true)
    (String.list_ascii_of_string title) ->
  createCard deckId user title body w =
    (Rejected
       (mkError
          (if isNull user then "User must be authenticated"
           else if isEmpty deckId then "Deck ID is required"
           else "Card title is required")),
     w).
Proof.
  intros Hguard. apply createCard_guarded.
  destruct Hguard as [?|[?|Hblank]]; [by left | by right; left |].
  right; right. by apply trim_empty.
Qed.

Lemma createCard_rejects_before_any_call_witness :
  createCard "deck" (Some Sample.alice) Sample.blank None Sample.idle =
    (Rejected (mkError "Card title is required"), Sample.idle) /\
  createCard "" (Some Sample.alice) "   " None Sample.idle =
    (Rejected (mkError "Deck ID is required"), Sample.idle).
Proof.
  split.
  - apply (createCard_rejects_before_any_call "deck" (Some Sample.alice)
             Sample.blank).
    right; right. repeat constructor.
  - apply (createCard_rejects_before_any_call "" (Some Sample.alice) "   ").
    right; left. reflexivity.
Defined.

(** X7. [updateCard] and [deleteCard] reject, before any storage call and
    without touching the flags, a call without a current user ('User must
    be authenticated'), otherwise a card identifier that is empty or made of
    white space only ('Card ID is required'). *)
Theorem updateCard_and_deleteCard_reject_before_any_call
  (deckId : string) (user : option User.t) (cardId : string)
  (updates : CardUpdates.t) (w : World) :
  user = None \/
  Forall (fun c => isWhiteSpace c = true)
    (String.list_ascii_of_string cardId) ->
  let e :=
    mkError (if isNull user then "User must be authenticated"
             else "Card ID is required") in
  updateCard deckId user cardId updates w = (Rejected e, w) /\
  deleteCard deckId user cardId w = (Rejected e, w).
Proof.
  intros Hguard.
  assert (user = None \/ trim cardId = "") as Hguard'.
  { destruct Hguard as [?|Hblank]; [by left|]. right. by apply trim_empty. }
  split; [by apply updateCard_guarded | by apply deleteCard_guarded].
Qed.

Lemma updateCard_and_deleteCard_reject_before_any_call_witness :
  deleteCard "deck" None "A" Sample.idle =
    (Rejected Unauthenticated, Sample.idle) /\
  updateCard "deck" (Some Sample.alice) Sample.blank
    (CardUpdates.mk None None None) Sample.idle
  = (Rejected (mkError "Card ID is required"), Sample.idle).
Proof.
  split.
  - apply (updateCard_and_deleteCard_reject_before_any_call
             "deck" None "A" (CardUpdates.mk None None None)).
    left. reflexivity.
  - apply (updateCard_and_deleteCard_reject_before_any_call
             "deck" (Some Sample.alice) Sample.blank
             (CardUpdates.mk None None None)).
    right. repeat constructor.
Defined.

(** *** Effects on the database *)

Lemma commit_deck (id : string) (data : DeckFields.t) (s : Db) :
  commit [updateDeckDoc id data] s =
    match decks s !! id with
    | Some d =>
        (Resolved tt,
         mkDb (cards s) (<[id := patchDeck (S (serverTime s)) data d]> (decks s))
           (S (serverTime s)))
    | None => (Rejected notFound, s)
    end.
Proof. unfold commit. simpl. by destruct (decks s !! id). Qed.

Lemma commit_card (id : string) (data : CardFields.t) (s : Db) :
  commit [updateCardDoc id data] s =
    match cards s !! id with
    | Some d =>
        (Resolved tt,
         mkDb (<[id := patchCard (S (serverTime s)) data d]> (cards s)) (decks s)
           (S (serverTime s)))
    | None => (Rejected notFound, s)
    end.
Proof. unfold commit. simpl. by destruct (cards s !! id). Qed.






Section CreateCard.
Variable deckId : string.
Implicit Types (w : World) (user : option User.t) (title : string).

(** A call of [createCard] that resolves found the deck, and leaves the
    database with the new card under an unused identifier and the deck
    updated. *)
Lemma createCard_resolved user title body w c :
  fst (createCard deckId user title body w) = Resolved c ->
  let existing := cardsOfDeck deckId (db w) in
  let index :=
    addNumbers
      (foldl (fun max doc => Z.max max (orZero (CardDoc.orderIndex doc.2)))
         (-1) existing) 1 in
  let id := fresh (dom (cards (db w))) in
  let now := S (serverTime (db w)) in
  exists dk,
    decks (db w) !! deckId = Some dk /\
    c = Card.mk id deckId (trim title) (trim (default "" body)) index
          (today w) (today w) /\
    db (snd (createCard deckId user title body w)) =
      mkDb
        (<[id := CardDoc.mk deckId (trim title) (trim (default "" body))
                   index now now]> (cards (db w)))
        (<[deckId :=
             patchDeck (S now)
               (DeckFields.mk (Some (Z.of_nat (length existing) + 1))
                  (Some serverTimestamp)) dk]> (decks (db w)))
        (S now).
Proof.
  destruct user as [u|]; [|done].
  destruct (decide (deckId = "")) as [Hd|Hd].
  { rewrite createCard_guarded by (by right; left). done. }
  destruct (decide (trim title = "")) as [Ht|Ht].
  { rewrite createCard_guarded by (by right; right). done. }
  rewrite createCard_run by done. cbv zeta.
  destruct (getDocs deckId _) as [[existing|e] w1] eqn:H1; [|done].
  unfold getDocs in H1.
  apply await_inv in H1 as (_ & _ & Htoday1 & _ & _ & [(e & _ & ? & _)|[_ H1]]);
    [done|].
  injection H1 as <- Hdb1. simpl in Hdb1, Htoday1.
  destruct (addDoc _ w1) as [[docRef|e] w2] eqn:H2; [|done].
  unfold addDoc in H2.
  apply await_inv in H2 as (_ & _ & Htoday2 & _ & _ & [(e & _ & ? & _)|[_ H2]]);
    [done|].
  unfold add in H2. simpl in H2. injection H2 as <- Hdb2.
  destruct (updateDoc _ w2) as [[[]|e] w3] eqn:H3; [|done].
  unfold updateDoc in H3.
  apply await_inv in H3 as (_ & _ & Htoday3 & _ & _ & [(e & _ & ? & _)|[_ H3]]);
    [done|].
  rewrite commit_deck in H3. rewrite <- Hdb2 in H3. simpl in H3.
  rewrite <- Hdb1 in H3. simpl in H3.
  destruct (decks (db w) !! deckId) as [dk|] eqn:Hdeck; [|done].
  injection H3 as Hdb3. simpl. intros [= <-].
  exists dk. split; [done|]. split.
  - rewrite <- ?Hdb1. by rewrite Htoday3, Htoday2, Htoday1.
  - by rewrite <- Hdb3.
Qed.

End CreateCard.





(** From [2^53] on the sum [maxOrderIndex + 1] is rounded: in a deck whose
    last card has the index [2^53] the new card gets that index too. *)
Example scenario_createCard_at_the_limit :
  let s :=
    mkDb (<["Z" := Sample.cardDoc (2 ^ 53)]> (cards Sample.store))
      (decks Sample.store) 0%nat in
  let w := mkWorld false None s 0%nat [] [] in
  exists c,
    fst (createCard "deck" (Some Sample.alice) "E" None w) = Resolved c /\
    Card.orderIndex c = 2 ^ 53.
Proof. eexists. split; vm_compute; reflexivity. Qed.

Section UpdateAndDelete.
Variable deckId : string.
Implicit Types (w : World) (user : option User.t) (cardId : string).

(** A call of [updateCard] that resolves found the card and the deck, and
    leaves the database with both updated, the card first. *)
Lemma updateCard_resolved user cardId updates w :
  fst (updateCard deckId user cardId updates w) = Resolved tt ->
  let now := S (serverTime (db w)) in
  exists d0 dk,
    cards (db w) !! cardId = Some d0 /\
    decks (db w) !! deckId = Some dk /\
    db (snd (updateCard deckId user cardId updates w)) =
      mkDb
        (<[cardId :=
             patchCard now
               (CardFields.mk None (CardUpdates.title updates)
                  (CardUpdates.body updates) None None (Some serverTimestamp))
               d0]> (cards (db w)))
        (<[deckId :=
             patchDeck (S now) (DeckFields.mk None (Some serverTimestamp)) dk]>
           (decks (db w)))
        (S now).
Proof.
  destruct user as [u|]; [|done].
  destruct (decide (trim cardId = "")) as [Hid|Hid].
  { rewrite updateCard_guarded by (by right). done. }
  rewrite updateCard_run by done. cbv zeta.
  destruct (updateDoc _ _) as [[[]|e] w1] eqn:H1; [|done].
  unfold updateDoc in H1.
  apply await_inv in H1 as (_ & _ & _ & _ & _ & [(e & _ & ? & _)|[_ H1]]);
    [done|].
  rewrite commit_card in H1. simpl in H1.
  destruct (cards (db w) !! cardId) as [d0|] eqn:Hcard; [|done].
  injection H1 as Hdb1.
  destruct (updateDoc _ w1) as [[[]|e] w2] eqn:H2; [|done].
  unfold updateDoc in H2.
  apply await_inv in H2 as (_ & _ & _ & _ & _ & [(e & _ & ? & _)|[_ H2]]);
    [done|].
  rewrite commit_deck in H2. rewrite <- Hdb1 in H2. simpl in H2.
  destruct (decks (db w) !! deckId) as [dk|] eqn:Hdeck; [|done].
  injection H2 as Hdb2. simpl. intros _.
  exists d0, dk. by rewrite <- Hdb2.
Qed.

(** A call of [deleteCard] that resolves found the deck, and leaves the
    database without the card and with the deck updated. *)
Lemma deleteCard_resolved user cardId w :
  fst (deleteCard deckId user cardId w) = Resolved tt ->
  let now := S (serverTime (db w)) in
  exists dk,
    decks (db w) !! deckId = Some dk /\
    db (snd (deleteCard deckId user cardId w)) =
      mkDb
        (delete cardId (cards (db w)))
        (<[deckId :=
             patchDeck (S now)
               (DeckFields.mk
                  (Some (Z.of_nat
                           (length (cardsOfDeck deckId
                                      (remove cardId (db w))))))
                  (Some serverTimestamp)) dk]> (decks (db w)))
        (S now).
Proof.
  destruct user as [u|]; [|done].
  destruct (decide (trim cardId = "")) as [Hid|Hid].
  { rewrite deleteCard_guarded by (by right). done. }
  rewrite deleteCard_run by done. cbv zeta.
  destruct (deleteDoc cardId _) as [[[]|e] w1] eqn:H1; [|done].
  unfold deleteDoc in H1.
  apply await_inv in H1 as (_ & _ & _ & _ & _ & [(e & _ & ? & _)|[_ H1]]);
    [done|].
  injection H1 as Hdb1. simpl in Hdb1.
  destruct (getDocs deckId w1) as [[remaining|e] w2] eqn:H2; [|done].
  unfold getDocs in H2.
  apply await_inv in H2 as (_ & _ & _ & _ & _ & [(e & _ & ? & _)|[_ H2]]);
    [done|].
  injection H2 as <- Hdb2.
  destruct (updateDoc _ w2) as [[[]|e] w3] eqn:H3; [|done].
  unfold updateDoc in H3.
  apply await_inv in H3 as (_ & _ & _ & _ & _ & [(e & _ & ? & _)|[_ H3]]);
    [done|].
  rewrite commit_deck in H3. rewrite <- Hdb2, <- Hdb1 in H3. simpl in H3.
  destruct (decks (db w) !! deckId) as [dk|] eqn:Hdeck; [|done].
  injection H3 as Hdb3. simpl. intros _.
  exists dk. by rewrite <- Hdb3.
Qed.

End UpdateAndDelete.

(** X9. When [updateCard] resolves, the card had a document; its title and
    body are the ones supplied, or the old ones where none was supplied; its
    modification time is the time of the write on the server, whatever
    [updatedAt] the caller supplied; every other card is as before; and the
    deck carries a modification time of its own, later than the card's. *)
Theorem updateCard_edits_title_and_body_of_one_card
  (deckId : string) (user : option User.t) (cardId : string)
  (updates : CardUpdates.t) (w : World) :
  fst (updateCard deckId user cardId updates w) = Resolved tt ->
  let w' := snd (updateCard deckId user cardId updates w) in
  (exists d0 d,
     cards (db w) !! cardId = Some d0 /\
     cards (db w') !! cardId = Some d /\
     CardDoc.title d = default (CardDoc.title d0) (CardUpdates.title updates) /\
     CardDoc.body d = default (CardDoc.body d0) (CardUpdates.body updates) /\
     CardDoc.updatedAt d = S (serverTime (db w))) /\
  (forall id, id <> cardId -> cards (db w') !! id = cards (db w) !! id) /\
  (exists dk,
     decks (db w') !! deckId = Some dk /\
     DeckDoc.updatedAt dk = S (S (serverTime (db w)))).
Proof.
  intros Hok w'. subst w'.
  destruct (updateCard_resolved _ _ _ _ _ Hok) as (d0 & dk & Hd0 & Hdk & ->).
  simpl. split; [|split].
  - eexists d0, _. rewrite lookup_insert_eq. by repeat split.
  - intros id Hid. by rewrite lookup_insert_ne.
  - eexists. rewrite lookup_insert_eq. by split.
Qed.

Lemma updateCard_edits_title_and_body_of_one_card_witness :
  exists d,
    cards (db (snd (updateCard "deck" (Some Sample.alice) "B"
                      (CardUpdates.mk (Some "new") None (Some 99%nat))
                      Sample.idle))) !! "B" = Some d /\
    CardDoc.title d = "new" /\
    CardDoc.body d = "" /\
    CardDoc.updatedAt d = 1%nat.
Proof.
  destruct (updateCard_edits_title_and_body_of_one_card
              "deck" (Some Sample.alice) "B"
              (CardUpdates.mk (Some "new") None (Some 99%nat)) Sample.idle)
    as ((d0 & d & Hd0 & Hd & Htitle & Hbody & Htime) & _).
  - vm_compute. reflexivity.
  - exists d. split; [exact Hd|].
    assert (d0 = Sample.cardDoc 1) as ->
      by (vm_compute in Hd0; injection Hd0 as <-; reflexivity).
    split; [exact Htitle|]. split; [exact Hbody | exact Htime].
Defined.

(** X10. When [deleteCard] resolves, the card has no document any more,
    whether or not it had one, and every other card is exactly as before:
    the remaining cards keep their [orderIndex], the gap is not closed. *)
Theorem deleteCard_removes_one_card_and_keeps_the_others
  (deckId : string) (user : option User.t) (cardId : string) (w : World) :
  fst (deleteCard deckId user cardId w) = Resolved tt ->
  let w' := snd (deleteCard deckId user cardId w) in
  cards (db w') !! cardId = None /\
  (forall id, id <> cardId -> cards (db w') !! id = cards (db w) !! id).
Proof.
  intros Hok w'. subst w'.
  destruct (deleteCard_resolved _ _ _ _ Hok) as (dk & Hdk & ->).
  simpl. split.
  - apply lookup_delete_eq.
  - intros id Hid. by apply lookup_delete_ne.
Qed.

Lemma deleteCard_removes_one_card_and_keeps_the_others_witness :
  let w' := snd (deleteCard "deck" (Some Sample.alice) "B" Sample.idle) in
  cards (db w') !! "B" = None /\
  cards (db w') !! "C" = cards Sample.store !! "C".
Proof.
  destruct (deleteCard_removes_one_card_and_keeps_the_others
              "deck" (Some Sample.alice) "B" Sample.idle) as [Hgone Hkept].
  - vm_compute. reflexivity.
  - split; [exact Hgone|]. apply Hkept. discriminate.
Defined.



(** *** Failures after the first write *)

Lemma await_served {A} (req : Request) (serve : Db -> Completion A * Db) w :
  mjoin (head (replies w)) = None ->
  await req serve w =
    (fst (serve (db w)),
     mkWorld (loading w) (error w) (snd (serve (db w))) (today w)
       (tail (replies w))
       (awaits w ++ [mkAwait (loading w) req (snd (serve (db w)))])).
Proof.
  intros Hreply. unfold await. rewrite Hreply.
  by destruct (serve (db w)).
Qed.

Lemma await_refused {A} (req : Request) (serve : Db -> Completion A * Db) w e :
  mjoin (head (replies w)) = Some e ->
  await req serve w =
    (Rejected e,
     mkWorld (loading w) (error w) (db w) (today w) (tail (replies w))
       (awaits w ++ [mkAwait (loading w) req (db w)])).
Proof. intros Hreply. unfold await. by rewrite Hreply. Qed.

(** The last call of an operation fails with [e]: the network rejects it
    with [e], or the server finds no document for the deck. *)
Lemma updateDoc_deck_fails (deckId : string) (data : DeckFields.t) w e :
  mjoin (head (replies w)) = Some e \/
  (mjoin (head (replies w)) = None /\
   decks (db w) !! deckId = None /\ e = notFound) ->
  updateDoc (updateDeckDoc deckId data) w =
    (Rejected e,
     mkWorld (loading w) (error w) (db w) (today w) (tail (replies w))
       (awaits w ++
          [mkAwait (loading w) (updateDocOf (updateDeckDoc deckId data))
             (db w)])).
Proof.
  unfold updateDoc. intros [Hreply|(Hreply & Hdeck & ->)].
  - by apply await_refused.
  - rewrite await_served by done. rewrite commit_deck, Hdeck. done.
Qed.

(** X12. The three editing operations write the card and the deck in
    separate calls, the card first.  When the calls before the update of the
    deck are served and that update fails, because the network rejects it or
    because the deck has no document, the operation rejects with that
    failure although the card has been written: the new card is stored, the
    edit is made, the card is deleted, and the deck is as before. *)
Theorem editing_operations_keep_the_card_write_when_the_deck_update_fails
  (deckId : string) (u : User.t) (w : World) (e : Error) :
  let reply (n : nat) := mjoin (head (Nat.iter n tail (replies w))) in
  let deckUpdateFails (n : nat) :=
    reply n = Some e \/
    (reply n = None /\ decks (db w) !! deckId = None /\ e = notFound) in
  (forall title body,
     deckId <> "" ->
     trim title <> "" ->
     reply 0%nat = None ->
     reply 1%nat = None ->
     deckUpdateFails 2%nat ->
     let r := createCard deckId (Some u) title body w in
     fst r = Rejected e /\
     decks (db (snd r)) = decks (db w) /\
     exists id d,
       cards (db w) !! id = None /\
       cards (db (snd r)) = <[id := d]> (cards (db w)) /\
       CardDoc.deckId d = deckId /\
       CardDoc.title d = trim title) /\
  (forall cardId updates d0,
     trim cardId <> "" ->
     cards (db w) !! cardId = Some d0 ->
     reply 0%nat = None ->
     deckUpdateFails 1%nat ->
     let r := updateCard deckId (Some u) cardId updates w in
     fst r = Rejected e /\
     decks (db (snd r)) = decks (db w) /\
     exists d,
       cards (db (snd r)) = <[cardId := d]> (cards (db w)) /\
       CardDoc.title d = default (CardDoc.title d0) (CardUpdates.title updates) /\
       CardDoc.body d = default (CardDoc.body d0) (CardUpdates.body updates)) /\
  (forall cardId,
     trim cardId <> "" ->
     reply 0%nat = None ->
     reply 1%nat = None ->
     deckUpdateFails 2%nat ->
     let r := deleteCard deckId (Some u) cardId w in
     fst r = Rejected e /\
     decks (db (snd r)) = decks (db w) /\
     cards (db (snd r)) = delete cardId (cards (db w))).
Proof.
  intros reply deckUpdateFails. subst reply deckUpdateFails.
  simpl.
  split; [|split].
  - intros title body Hd Ht H0 H1 H2.
    rewrite createCard_run by done. cbv zeta.
    unfold getDocs. rewrite await_served by done. simpl.
    unfold addDoc. rewrite await_served by done.
    simpl.
    rewrite (updateDoc_deck_fails _ _ _ e); simpl.
    + split; [done|]. split; [done|].
      eexists _, _. split; [|split; [done|by split]].
      apply not_elem_of_dom. apply is_fresh.
    + done.
  - intros cardId updates d0 Hid Hcard H0 H1.
    rewrite updateCard_run by done. cbv zeta.
    unfold updateDoc at 1 3 5. rewrite await_served by done.
    rewrite commit_card. simpl. rewrite Hcard. simpl.
    rewrite (updateDoc_deck_fails _ _ _ e); simpl.
    + split; [done|]. split; [done|]. eexists. by repeat split.
    + done.
  - intros cardId Hid H0 H1 H2.
    rewrite deleteCard_run by done. cbv zeta.
    unfold deleteDoc. rewrite await_served by done. simpl.
    unfold getDocs. rewrite await_served by done.
    simpl.
    rewrite (updateDoc_deck_fails _ _ _ e); simpl.
    + done.
    + done.
Qed.

Lemma editing_operations_keep_the_card_write_when_the_deck_update_fails_witness :
  (let r := createCard "no-deck" (Some Sample.alice) "E" None Sample.idle in
   fst r = Rejected notFound /\
   exists id d,
     cards Sample.store !! id = None /\
     cards (db (snd r)) = <[id := d]> (cards Sample.store)) /\
  (let r := deleteCard "no-deck" (Some Sample.alice) "B" Sample.idle in
   fst r = Rejected notFound /\
   cards (db (snd r)) = delete "B" (cards Sample.store)).
Proof.
  destruct (editing_operations_keep_the_card_write_when_the_deck_update_fails
              "no-deck" Sample.alice Sample.idle notFound)
    as (Hcreate & _ & Hdelete).
  split.
  - destruct (Hcreate "E" None) as (Hfst & _ & id & d & Hnew & Hcards & _).
    + discriminate.
    + vm_compute. discriminate.
    + reflexivity.
    + reflexivity.
    + right. repeat split; reflexivity.
    + split; [exact Hfst|]. exists id, d. split; [exact Hnew | exact Hcards].
  - destruct (Hdelete "B") as (Hfst & _ & Hcards).
    + vm_compute. discriminate.
    + reflexivity.
    + reflexivity.
    + right. repeat split; reflexivity.
    + split; [exact Hfst | exact Hcards].
Defined.

(** X13. When the card has no document and the network serves the call,
    [updateCard] rejects with 'No document to update' after a single storage
    call: nothing is written, the deck is not touched, and the failure is
    recorded with the busy flag down. *)
Theorem updateCard_of_a_missing_card_writes_nothing
  (deckId : string) (u : User.t) (cardId : string) (updates : CardUpdates.t)
  (w : World) :
  trim cardId <> "" ->
  cards (db w) !! cardId = None ->
  mjoin (head (replies w)) = None ->
  let r := updateCard deckId (Some u) cardId updates w in
  fst r = Rejected notFound /\
  db (snd r) = db w /\
  (exists call, awaits (snd r) = awaits w ++ [call]) /\
  loading (snd r) = false /\
  error (snd r) = Some "No document to update".
Proof.
  intros Hid Hcard Hreply r. subst r.
  rewrite updateCard_run by done. cbv zeta.
  unfold updateDoc. rewrite await_served by done.
  rewrite commit_card. simpl. rewrite Hcard. simpl.
  repeat split; try done. by eexists.
Qed.

Lemma updateCard_of_a_missing_card_writes_nothing_witness :
  let r := updateCard "deck" (Some Sample.alice) "Z"
             (CardUpdates.mk (Some "new") None None) Sample.idle in
  fst r = Rejected notFound /\ db (snd r) = db Sample.idle.
Proof.
  destruct (updateCard_of_a_missing_card_writes_nothing
              "deck" Sample.alice "Z" (CardUpdates.mk (Some "new") None None)
              Sample.idle) as (Hfst & Hdb & _).
  - vm_compute. discriminate.
  - reflexivity.
  - reflexivity.
  - split; [exact Hfst | exact Hdb].
Defined.

(** ** What reordering leaves alone *)

(** Whatever its outcome, [reorderCards] leaves the database as it was or
    as the server makes it by executing the batch. *)
Lemma reorderCards_effect (deckId : string) (user : option User.t)
  (cardIds : list string) (w : World) :
  let w' := snd (reorderCards deckId user cardIds w) in
  db w' = db w \/
  exists s',
    applyWrites (S (serverTime (db w))) (reorderBatch deckId cardIds) (db w)
      = Some s' /\
    db w' = mkDb (cards s') (decks s') (S (serverTime (db w))).
Proof.
  destruct user as [u|]; [|by left].
  destruct (decide (cardIds = [])) as [->|Hne]; [by left|].
  simpl. rewrite reorderCards_run by done. simpl.
  destruct (mjoin (head (replies w))) as [e|]; [by left|].
  destruct (applyWrites _ _ _) as [s'|] eqn:Happly; [|by left].
  right. by exists s'.
Qed.

(** X14. Whatever its outcome, [reorderCards] creates and deletes no card,
    leaves the cards it is not given exactly as they were, leaves the deck,
    title, body and creation time of every card as they were, and leaves
    every other deck, and the title, owner, creation time and card count of
    its own deck, as they were. *)
Theorem reorderCards_changes_only_indices_and_modification_times
  (deckId : string) (user : option User.t) (cardIds : list string)
  (w : World) :
  let w' := snd (reorderCards deckId user cardIds w) in
  dom (cards (db w')) = dom (cards (db w)) /\
  (forall id, id ∉ cardIds -> cards (db w') !! id = cards (db w) !! id) /\
  (forall id,
     cardContent <$> cards (db w') !! id = cardContent <$> cards (db w) !! id) /\
  (forall id, id <> deckId -> decks (db w') !! id = decks (db w) !! id) /\
  deckContent <$> decks (db w') !! deckId
  = deckContent <$> decks (db w) !! deckId.
Proof.
  intros w'. subst w'.
  destruct (reorderCards_effect deckId user cardIds w)
    as [->|(s' & Happly & ->)]; [done|].
  apply applyWrites_reorderBatch in Happly
    as (_ & Hother & Hin & d0 & Hdeck & Hdecks).
  simpl.
  assert (forall id,
            cardContent <$> cards s' !! id = cardContent <$> cards (db w) !! id)
    as Hcontent.
  { intros id. destruct (decide (id ∈ cardIds)) as [Hid|Hid].
    - destruct (Hin id Hid)
        as (k & c0 & c & _ & _ & -> & -> & _ & _ & Hd & Ht & Hb & Hc).
      simpl. unfold cardContent. by rewrite Hd, Ht, Hb, Hc.
    - by rewrite Hother. }
  split; [|split; [done|split; [done|split]]].
  - apply set_eq. intros id. rewrite !elem_of_dom.
    specialize (Hcontent id).
    destruct (cards s' !! id), (cards (db w) !! id); simpl in Hcontent;
      try done; split; intros [? ?]; done.
  - intros id Hid. rewrite Hdecks. by apply lookup_insert_ne.
  - rewrite Hdecks, lookup_insert_eq, Hdeck. done.
Qed.

(** ** The indices stored by a move *)

Section StoredMoves.
Variable deckId : string.
Implicit Types (w : World) (user : option User.t) (cards : list Card.t).

(** When a move operation resolves, its ordering computation has yielded
    an order, [reorderCards] has resolved on that order, and the database is
    the one [reorderCards] leaves. *)
Lemma moveCardUp_resolved user cardId cards w :
  fst (moveCardUp deckId user cardId cards w) = Resolved tt ->
  exists newOrder,
    computeMoveUp cardId cards = Resolved newOrder /\
    fst (reorderCards deckId user newOrder w) = Resolved tt /\
    db (snd (moveCardUp deckId user cardId cards w))
    = db (snd (reorderCards deckId user newOrder w)).
Proof.
  destruct user as [u|]; [|done].
  destruct (computeMoveUp cardId cards) as [newOrder|e] eqn:Hmove.
  - rewrite (moveCardUp_commits _ _ _ _ _ _ Hmove).
    destruct (reorderCards deckId (Some u) newOrder w) as [[[]|e] w1] eqn:Hc;
      [|done].
    intros _. exists newOrder. by rewrite Hc.
  - by rewrite (moveCardUp_rejects _ _ _ _ _ _ Hmove).
Qed.

Lemma moveCardDown_resolved user cardId cards w :
  fst (moveCardDown deckId user cardId cards w) = Resolved tt ->
  exists newOrder,
    computeMoveDown cardId cards = Resolved newOrder /\
    fst (reorderCards deckId user newOrder w) = Resolved tt /\
    db (snd (moveCardDown deckId user cardId cards w))
    = db (snd (reorderCards deckId user newOrder w)).
Proof.
  destruct user as [u|]; [|done].
  destruct (computeMoveDown cardId cards) as [newOrder|e] eqn:Hmove.
  - rewrite (moveCardDown_commits _ _ _ _ _ _ Hmove).
    destruct (reorderCards deckId (Some u) newOrder w) as [[[]|e] w1] eqn:Hc;
      [|done].
    intros _. exists newOrder. by rewrite Hc.
  - by rewrite (moveCardDown_rejects _ _ _ _ _ _ Hmove).
Qed.

(** When [reorderCards] resolves on the adjacent swap of a list of
    distinct identifiers, each card of the list carries the position it
    has after the swap, and the cards outside the list are as before. *)
Lemma reorderCards_swapped_positions user cards (j : nat) w :
  NoDup (idsOf cards) ->
  (S j < length cards)%nat ->
  fst (reorderCards deckId user (swapAdjacent j (idsOf cards)) w)
    = Resolved tt ->
  let w' := snd (reorderCards deckId user (swapAdjacent j (idsOf cards)) w) in
  (forall (k : nat) c,
     cards !! k = Some c ->
     CardDoc.orderIndex <$> Firestore.cards (db w') !! Card.id c =
       Some (Z.of_nat (if decide (k = j) then S j
                       else if decide (k = S j) then j else k))) /\
  (forall id, id ∉ idsOf cards -> Firestore.cards (db w') !! id = Firestore.cards (db w) !! id).
Proof.
  intros Hnodup Hj Hok w'. subst w'.
  assert (S j < length (idsOf cards))%nat as Hj'
    by (unfold idsOf; by rewrite length_fmap).
  assert (NoDup (swapAdjacent j (idsOf cards))) as Hnodup'
    by (by rewrite swapAdjacent_perm).
  destruct (reorderCards_resolved_positions _ _ _ _ Hnodup' Hok)
    as [Hpos _].
  split.
  - intros k c Hc.
    set (k' := if decide (k = j) then S j
               else if decide (k = S j) then j else k).
    assert (swapAdjacent j (idsOf cards) !! k' = Some (Card.id c)) as Hk'.
    { rewrite swapAdjacent_lookup by done. subst k'.
      assert (idsOf cards !! k = Some (Card.id c)) as Hid
        by (unfold idsOf; by rewrite list_lookup_fmap, Hc).
      repeat case_decide; subst; try done; lia. }
    destruct (Hpos k' _ Hk') as (d0 & d & _ & -> & Hidx & _). simpl.
    by rewrite Hidx.
  - intros id Hid.
    destruct (reorderCards_effect deckId user (swapAdjacent j (idsOf cards)) w)
      as [->|(s' & Happly & ->)]; [done|].
    apply applyWrites_reorderBatch in Happly as (_ & Hother & _).
    simpl. apply Hother. by rewrite swapAdjacent_perm.
Qed.

End StoredMoves.

Lemma moveCardUp_positions
  (deckId : string) (user : option User.t) (cards : list Card.t)
  (i : nat) (c : Card.t) (w : World) :
  NoDup (idsOf cards) ->
  cards !! i = Some c ->
  fst (moveCardUp deckId user (Card.id c) cards w) = Resolved tt ->
  let w' := snd (moveCardUp deckId user (Card.id c) cards w) in
  (1 <= i)%nat /\
  (forall (k : nat) c',
     cards !! k = Some c' ->
     CardDoc.orderIndex <$> Firestore.cards (db w') !! Card.id c' =
       Some (Z.of_nat (if decide (k = i) then (i - 1)%nat
                       else if decide (k = (i - 1)%nat) then i else k))) /\
  (forall id, id ∉ idsOf cards -> Firestore.cards (db w') !! id = Firestore.cards (db w) !! id).
Proof.
  intros Hnodup Hc Hok w'. subst w'.
  destruct (moveCardUp_resolved _ _ _ _ _ Hok) as (newOrder & Hmove & Hok' & ->).
  destruct (computeMoveUp_resolved _ _ _ Hmove) as (j & Hidx & Hj & ->).
  rewrite (cardIndexOf_NoDup cards i c Hnodup Hc) in Hidx.
  assert (i = S j) as -> by lia.
  destruct (reorderCards_swapped_positions _ _ _ _ _ Hnodup Hj Hok')
    as [Hpos Hout].
  split; [lia|]. split; [|done].
  intros k c' Hc'. rewrite (Hpos k c' Hc').
  replace (S j - 1)%nat with j by lia.
  repeat case_decide; subst; try done; lia.
Qed.

(** X15. When [moveCardUp] resolves for the card at position [i] of a list
    of cards with distinct identifiers, [i] is at least 1, the card carries
    the index [i-1], the card that was above it carries [i], every other
    card of the list carries its own position, and the cards that are not in
    the list are as before. *)
Theorem moveCardUp_stores_the_swapped_positions
  (deckId : string) (user : option User.t) (cards : list Card.t)
  (i : nat) (c : Card.t) (w : World) :
  NoDup (idsOf cards) ->
  cards !! i = Some c ->
  fst (moveCardUp deckId user (Card.id c) cards w) = Resolved tt ->
  let w' := snd (moveCardUp deckId user (Card.id c) cards w) in
  (1 <= i)%nat /\
  (forall (k : nat) c',
     cards !! k = Some c' ->
     CardDoc.orderIndex <$> Firestore.cards (db w') !! Card.id c' =
       Some (Z.of_nat (if decide (k = i) then (i - 1)%nat
                       else if decide (k = (i - 1)%nat) then i else k))) /\
  (forall id, id ∉ idsOf cards -> Firestore.cards (db w') !! id = Firestore.cards (db w) !! id).
Proof. apply moveCardUp_positions. Qed.

Lemma moveCardUp_stores_the_swapped_positions_witness :
  let w' := snd (moveCardUp "deck" (Some Sample.alice) "C" Sample.abcd
                   Sample.idle) in
  CardDoc.orderIndex <$> cards (db w') !! "C" = Some 1 /\
  CardDoc.orderIndex <$> cards (db w') !! "B" = Some 2 /\
  CardDoc.orderIndex <$> cards (db w') !! "D" = Some 3.
Proof.
  destruct (moveCardUp_stores_the_swapped_positions
              "deck" (Some Sample.alice) Sample.abcd 2%nat (Sample.card "C" 2)
              Sample.idle) as (_ & Hpos & _).
  - apply (bool_decide_unpack _). vm_compute. exact I.
  - reflexivity.
  - vm_compute. reflexivity.
  - split; [|split].
    + exact (Hpos 2%nat (Sample.card "C" 2) eq_refl).
    + exact (Hpos 1%nat (Sample.card "B" 1) eq_refl).
    + exact (Hpos 3%nat (Sample.card "D" 3) eq_refl).
Defined.

Lemma moveCardDown_positions
  (deckId : string) (user : option User.t) (cards : list Card.t)
  (i : nat) (c : Card.t) (w : World) :
  NoDup (idsOf cards) ->
  cards !! i = Some c ->
  fst (moveCardDown deckId user (Card.id c) cards w) = Resolved tt ->
  let w' := snd (moveCardDown deckId user (Card.id c) cards w) in
  (S i < length cards)%nat /\
  (forall (k : nat) c',
     cards !! k = Some c' ->
     CardDoc.orderIndex <$> Firestore.cards (db w') !! Card.id c' =
       Some (Z.of_nat (if decide (k = i) then S i
                       else if decide (k = S i) then i else k))) /\
  (forall id, id ∉ idsOf cards -> Firestore.cards (db w') !! id = Firestore.cards (db w) !! id).
Proof.
  intros Hnodup Hc Hok w'. subst w'.
  destruct (moveCardDown_resolved _ _ _ _ _ Hok)
    as (newOrder & Hmove & Hok' & ->).
  destruct (computeMoveDown_resolved _ _ _ Hmove) as (j & Hidx & Hj & ->).
  rewrite (cardIndexOf_NoDup cards i c Hnodup Hc) in Hidx.
  assert (i = j) as -> by lia.
  destruct (reorderCards_swapped_positions _ _ _ _ _ Hnodup Hj Hok')
    as [Hpos Hout].
  by split.
Qed.

(** X16. When [moveCardDown] resolves for the card at position [i] of a
    list of cards with distinct identifiers, the card is not the last of the
    list, it carries the index [i+1], the card that was below it carries [i],
    every other card of the list carries its own position, and the cards that
    are not in the list are as before. *)
Theorem moveCardDown_stores_the_swapped_positions
  (deckId : string) (user : option User.t) (cards : list Card.t)
  (i : nat) (c : Card.t) (w : World) :
  NoDup (idsOf cards) ->
  cards !! i = Some c ->
  fst (moveCardDown deckId user (Card.id c) cards w) = Resolved tt ->
  let w' := snd (moveCardDown deckId user (Card.id c) cards w) in
  (S i < length cards)%nat /\
  (forall (k : nat) c',
     cards !! k = Some c' ->
     CardDoc.orderIndex <$> Firestore.cards (db w') !! Card.id c' =
       Some (Z.of_nat (if decide (k = i) then S i
                       else if decide (k = S i) then i else k))) /\
  (forall id, id ∉ idsOf cards -> Firestore.cards (db w') !! id = Firestore.cards (db w) !! id).
Proof. apply moveCardDown_positions. Qed.

Lemma moveCardDown_stores_the_swapped_positions_witness :
  let w' := snd (moveCardDown "deck" (Some Sample.alice) "A" Sample.abcd
                   Sample.idle) in
  CardDoc.orderIndex <$> cards (db w') !! "A" = Some 1 /\
  CardDoc.orderIndex <$> cards (db w') !! "B" = Some 0 /\
  CardDoc.orderIndex <$> cards (db w') !! "D" = Some 3.
Proof.
  destruct (moveCardDown_stores_the_swapped_positions
              "deck" (Some Sample.alice) Sample.abcd 0%nat (Sample.card "A" 0)
              Sample.idle) as (_ & Hpos & _).
  - apply (bool_decide_unpack _). vm_compute. exact I.
  - reflexivity.
  - vm_compute. reflexivity.
  - split; [|split].
    + exact (Hpos 0%nat (Sample.card "A" 0) eq_refl).
    + exact (Hpos 1%nat (Sample.card "B" 1) eq_refl).
    + exact (Hpos 3%nat (Sample.card "D" 3) eq_refl).
Defined.

(** ** Moving a card while a search is active *)

Lemma NoDup_ids_same_card (cards : list Card.t) (c1 c2 : Card.t) :
  NoDup (idsOf cards) ->
  c1 ∈ cards -> c2 ∈ cards -> Card.id c1 = Card.id c2 -> c1 = c2.
Proof.
  intros Hnodup H1 H2 Hid.
  apply list_elem_of_lookup in H1 as [k1 Hk1].
  apply list_elem_of_lookup in H2 as [k2 Hk2].
  assert (k1 = k2) as ->; [|congruence].
  apply (NoDup_lookup (idsOf cards) k1 k2 (Card.id c1)); [done | |];
    unfold idsOf; rewrite list_lookup_fmap.
  - by rewrite Hk1.
  - by rewrite Hk2, Hid.
Qed.

(** X17. The handler of the move-up control never rejects: a failure of the
    move is caught, and the world is the one the move leaves.  The move is
    made on the cards shown under the search, so that, when it succeeds, the
    shown cards carry their positions among the shown cards after the swap,
    and every hidden card of the deck is as before. *)
Theorem handleMoveCardUp_renumbers_the_shown_cards_only
  (deckId : string) (user : option User.t) (cards : list Card.t)
  (searchQuery : string) (i : nat) (c : Card.t) (w : World) :
  let shown := CardScreen.filteredCards cards searchQuery in
  let move := moveCardUp deckId user (Card.id c) shown w in
  let handled :=
    CardScreen.handleMoveCardUp deckId user cards searchQuery (Card.id c) w in
  fst handled = Resolved tt /\
  snd handled = snd move /\
  (NoDup (idsOf cards) ->
   shown !! i = Some c ->
   fst move = Resolved tt ->
   (forall (k : nat) c',
      shown !! k = Some c' ->
      CardDoc.orderIndex <$> Firestore.cards (db (snd handled)) !! Card.id c' =
        Some (Z.of_nat (if decide (k = i) then (i - 1)%nat
                        else if decide (k = (i - 1)%nat) then i else k))) /\
   (forall c',
      c' ∈ cards -> c' ∉ shown ->
      Firestore.cards (db (snd handled)) !! Card.id c'
      = Firestore.cards (db w) !! Card.id c')).
Proof.
  intros shown move handled.
  assert (fst handled = Resolved tt /\ snd handled = snd move) as [Hfst Hsnd].
  { subst handled move. unfold CardScreen.handleMoveCardUp, tryCatch. fold shown.
    by destruct (moveCardUp deckId user (Card.id c) shown w) as [[[]|e] w']. }
  split; [done|]. split; [done|].
  intros Hnodup Hc Hok. rewrite Hsnd.
  assert (shown `sublist_of` cards) as Hsub.
  { subst shown. unfold CardScreen.filteredCards.
    destruct (isEmpty (trim searchQuery)); [done | apply List_filter_sublist]. }
  assert (NoDup (idsOf shown)) as Hnodup'.
  { apply (sublist_NoDup _ (idsOf cards)); [done|].
    unfold idsOf. by apply fmap_sublist. }
  destruct (moveCardUp_positions deckId user shown i c w Hnodup' Hc Hok)
    as (_ & Hpos & Hout).
  split; [done|].
  intros c' Hin Hhidden. apply Hout.
  unfold idsOf. intros Hid. apply list_elem_of_fmap in Hid as (c2 & Hid & Hc2).
  apply Hhidden.
  assert (c' = c2) as ->; [|done].
  apply (NoDup_ids_same_card cards); [done | done | | done].
  by apply (elem_of_sublist shown).
Qed.

Lemma handleMoveCardUp_renumbers_the_shown_cards_only_witness :
  let handled :=
    CardScreen.handleMoveCardUp "deck" (Some Sample.alice) Sample.fruits "ap"
      "C" Sample.idle in
  CardDoc.orderIndex <$> cards (db (snd handled)) !! "C" = Some 0 /\
  CardDoc.orderIndex <$> cards (db (snd handled)) !! "A" = Some 1 /\
  CardDoc.orderIndex <$> cards (db (snd handled)) !! "B" = Some 1.
Proof.
  destruct (handleMoveCardUp_renumbers_the_shown_cards_only
              "deck" (Some Sample.alice) Sample.fruits "ap" 1%nat
              (Card.mk "C" "deck" "Apricot" "" 2 0%nat 0%nat) Sample.idle)
    as (_ & _ & Hmoved).
  destruct Hmoved as [Hshown Hhidden].
  - apply (bool_decide_unpack _). vm_compute. exact I.
  - reflexivity.
  - vm_compute. reflexivity.
  - split; [|split].
    + exact (Hshown 1%nat (Card.mk "C" "deck" "Apricot" "" 2 0%nat 0%nat)
               eq_refl).
    + exact (Hshown 0%nat (Card.mk "A" "deck" "Apple" "" 0 0%nat 0%nat)
               eq_refl).
    + refine (eq_trans
                (f_equal (fmap CardDoc.orderIndex)
                   (Hhidden (Card.mk "B" "deck" "Banana" "" 1 0%nat 0%nat)
                      _ _)) _).
      * apply list_elem_of_lookup. by exists 1%nat.
      * intros Hin. apply (list_elem_of_fmap_2 Card.id) in Hin. revert Hin.
        apply (bool_decide_unpack _). vm_compute. exact I.
      * reflexivity.
Defined.

(** X18. The handler of the move-down control never rejects: a failure of
    the move is caught, and the world is the one the move leaves.  The move
    is made on the cards shown under the search, so that, when it succeeds,
    the shown cards carry their positions among the shown cards after the
    swap with the card below, and every hidden card of the deck is as
    before. *)
Theorem handleMoveCardDown_renumbers_the_shown_cards_only
  (deckId : string) (user : option User.t) (cards : list Card.t)
  (searchQuery : string) (i : nat) (c : Card.t) (w : World) :
  let shown := CardScreen.filteredCards cards searchQuery in
  let move := moveCardDown deckId user (Card.id c) shown w in
  let handled :=
    CardScreen.handleMoveCardDown deckId user cards searchQuery (Card.id c) w in
  fst handled = Resolved tt /\
  snd handled = snd move /\
  (NoDup (idsOf cards) ->
   shown !! i = Some c ->
   fst move = Resolved tt ->
   (forall (k : nat) c',
      shown !! k = Some c' ->
      CardDoc.orderIndex <$> Firestore.cards (db (snd handled)) !! Card.id c' =
        Some (Z.of_nat (if decide (k = i) then S i
                        else if decide (k = S i) then i else k))) /\
   (forall c',
      c' ∈ cards -> c' ∉ shown ->
      Firestore.cards (db (snd handled)) !! Card.id c'
      = Firestore.cards (db w) !! Card.id c')).
Proof.
  intros shown move handled.
  assert (fst handled = Resolved tt /\ snd handled = snd move) as [Hfst Hsnd].
  { subst handled move. unfold CardScreen.handleMoveCardDown, tryCatch. fold shown.
    by destruct (moveCardDown deckId user (Card.id c) shown w) as [[[]|e] w']. }
  split; [done|]. split; [done|].
  intros Hnodup Hc Hok. rewrite Hsnd.
  assert (shown `sublist_of` cards) as Hsub.
  { subst shown. unfold CardScreen.filteredCards.
    destruct (isEmpty (trim searchQuery)); [done | apply List_filter_sublist]. }
  assert (NoDup (idsOf shown)) as Hnodup'.
  { apply (sublist_NoDup _ (idsOf cards)); [done|].
    unfold idsOf. by apply fmap_sublist. }
  destruct (moveCardDown_positions deckId user shown i c w Hnodup' Hc Hok)
    as (_ & Hpos & Hout).
  split; [done|].
  intros c' Hin Hhidden. apply Hout.
  unfold idsOf. intros Hid. apply list_elem_of_fmap in Hid as (c2 & Hid & Hc2).
  apply Hhidden.
  assert (c' = c2) as ->; [|done].
  apply (NoDup_ids_same_card cards); [done | done | | done].
  by apply (elem_of_sublist shown).
Qed.

Lemma handleMoveCardDown_renumbers_the_shown_cards_only_witness :
  let handled :=
    CardScreen.handleMoveCardDown "deck" (Some Sample.alice) Sample.fruits "ap"
      "A" Sample.idle in
  CardDoc.orderIndex <$> cards (db (snd handled)) !! "C" = Some 0 /\
  CardDoc.orderIndex <$> cards (db (snd handled)) !! "A" = Some 1 /\
  CardDoc.orderIndex <$> cards (db (snd handled)) !! "B" = Some 1.
Proof.
  destruct (handleMoveCardDown_renumbers_the_shown_cards_only
              "deck" (Some Sample.alice) Sample.fruits "ap" 0%nat
              (Card.mk "A" "deck" "Apple" "" 0 0%nat 0%nat) Sample.idle)
    as (_ & _ & Hmoved).
  destruct Hmoved as [Hshown Hhidden].
  - apply (bool_decide_unpack _). vm_compute. exact I.
  - reflexivity.
  - vm_compute. reflexivity.
  - split; [|split].
    + exact (Hshown 1%nat (Card.mk "C" "deck" "Apricot" "" 2 0%nat 0%nat)
               eq_refl).
    + exact (Hshown 0%nat (Card.mk "A" "deck" "Apple" "" 0 0%nat 0%nat)
               eq_refl).
    + refine (eq_trans
                (f_equal (fmap CardDoc.orderIndex)
                   (Hhidden (Card.mk "B" "deck" "Banana" "" 1 0%nat 0%nat)
                      _ _)) _).
      * apply list_elem_of_lookup. by exists 1%nat.
      * intros Hin. apply (list_elem_of_fmap_2 Card.id) in Hin. revert Hin.
        apply (bool_decide_unpack _). vm_compute. exact I.
      * reflexivity.
Defined.

(** ** The error state *)

Ltac finish_outcome :=
  first
    [ by right
    | by left
    | done
    | split; reflexivity
    | right; split; reflexivity ].

Section ErrorState.
Variable deckId : string.
Variable user : option User.t.
Implicit Types (w : World).

Lemma reorderCards_outcome cardIds w :
  reportsOutcome "Failed to reorder cards"
    (reorderCards deckId user cardIds) w.
Proof.
  unfold reportsOutcome, reorderCards. unfold_flow.
  destruct user as [u|]; cbn -[await]; [|by left].
  destruct (length cardIds =? 0)%nat; cbn -[await]; [by left|].
  run_await; finish_outcome.
Qed.

Lemma createCard_outcome title body w :
  reportsOutcome "Failed to create card"
    (createCard deckId user title body) w.
Proof.
  unfold reportsOutcome, createCard. unfold_flow.
  destruct user as [u|]; cbn -[await]; [|by left].
  destruct (isEmpty deckId); cbn -[await]; [by left|].
  destruct (isEmpty (trim title)); cbn -[await]; [by left|].
  run_await; [|finish_outcome].
  run_await; [|finish_outcome].
  run_await; finish_outcome.
Qed.

Lemma updateCard_outcome cardId updates w :
  reportsOutcome "Failed to update card"
    (updateCard deckId user cardId updates) w.
Proof.
  unfold reportsOutcome, updateCard. unfold_flow.
  destruct user as [u|]; cbn -[await]; [|by left].
  destruct (isEmpty (trim cardId)); cbn -[await]; [by left|].
  run_await; [|finish_outcome].
  run_await; finish_outcome.
Qed.

Lemma deleteCard_outcome cardId w :
  reportsOutcome "Failed to delete card"
    (deleteCard deckId user cardId) w.
Proof.
  unfold reportsOutcome, deleteCard. unfold_flow.
  destruct user as [u|]; cbn -[await]; [|by left].
  destruct (isEmpty (trim cardId)); cbn -[await]; [by left|].
  run_await; [|finish_outcome].
  run_await; [|finish_outcome].
  run_await; finish_outcome.
Qed.

Lemma moveCardUp_outcome cardId currentCards w :
  reportsOutcome "Failed to move card up"
    (moveCardUp deckId user cardId currentCards) w.
Proof.
  unfold reportsOutcome, moveCardUp, reorderCards. unfold_flow.
  destruct user as [u|]; cbn -[await]; [|by left].
  destruct (cannotMoveUp _); cbn -[await]; [by left|].
  destruct (swapWithAbove _ _) as [cardIds|e]; cbn -[await];
    [|finish_outcome].
  destruct (length cardIds =? 0)%nat; cbn -[await]; [finish_outcome|].
  run_await; finish_outcome.
Qed.

Lemma moveCardDown_outcome cardId currentCards w :
  reportsOutcome "Failed to move card down"
    (moveCardDown deckId user cardId currentCards) w.
Proof.
  unfold reportsOutcome, moveCardDown, reorderCards. unfold_flow.
  destruct user as [u|]; cbn -[await]; [|by left].
  destruct (cannotMoveDown _ _); cbn -[await]; [by left|].
  destruct (swapWithBelow _ _) as [cardIds|e]; cbn -[await];
    [|finish_outcome].
  destruct (length cardIds =? 0)%nat; cbn -[await]; [finish_outcome|].
  run_await; finish_outcome.
Qed.

End ErrorState.

(** X19. After a call of any of the six operations [error] tells how the
    call went: it is [null], with [loading] down, when the call resolved;
    when it rejected, either a guard rejected it and the state is the one
    before the call, or [error] holds the message of the failure (the
    operation's own text when the failure has no message) and [loading] is
    down.  For the move operations the text is that of the move, also when
    the failure is one of [reorderCards]. *)
Theorem error_state_reports_the_outcome_of_each_operation
  (deckId : string) (user : option User.t) (w : World) :
  (forall title body,
     reportsOutcome "Failed to create card"
       (createCard deckId user title body) w) /\
  (forall cardId updates,
     reportsOutcome "Failed to update card"
       (updateCard deckId user cardId updates) w) /\
  (forall cardId,
     reportsOutcome "Failed to delete card"
       (deleteCard deckId user cardId) w) /\
  (forall cardIds,
     reportsOutcome "Failed to reorder cards"
       (reorderCards deckId user cardIds) w) /\
  (forall cardId currentCards,
     reportsOutcome "Failed to move card up"
       (moveCardUp deckId user cardId currentCards) w) /\
  (forall cardId currentCards,
     reportsOutcome "Failed to move card down"
       (moveCardDown deckId user cardId currentCards) w).
Proof.
  split; [intros; apply createCard_outcome|].
  split; [intros; apply updateCard_outcome|].
  split; [intros; apply deleteCard_outcome|].
  split; [intros; apply reorderCards_outcome|].
  split; [intros; apply moveCardUp_outcome|].
  intros; apply moveCardDown_outcome.
Qed.

(** ** Modification times *)

Lemma keeps_timely {A} (op : Async A) (w : World) :
  keeps (onDb timely) op -> timely (db w) -> timely (db (snd (op w))).
Proof.
  intros Hkeeps Hw. specialize (Hkeeps w Hw).
  by destruct (op w) as [[a|e] w'].
Qed.

(** X20. Every modification time the six operations store is the server's:
    when no stored card or deck is dated after the last write of the server
    before a call, none is after the call, however the call completes and
    whatever modification time the caller of [updateCard] put in its
    updates. *)
Theorem operations_store_server_times_only
  (deckId : string) (user : option User.t) (w : World) :
  timely (db w) ->
  (forall title body,
     timely (db (snd (createCard deckId user title body w)))) /\
  (forall cardId updates,
     timely (db (snd (updateCard deckId user cardId updates w)))) /\
  (forall cardId, timely (db (snd (deleteCard deckId user cardId w)))) /\
  (forall cardIds, timely (db (snd (reorderCards deckId user cardIds w)))) /\
  (forall cardId currentCards,
     timely (db (snd (moveCardUp deckId user cardId currentCards w)))) /\
  (forall cardId currentCards,
     timely (db (snd (moveCardDown deckId user cardId currentCards w)))).
Proof.
  intros Hw.
  split; [intros; by apply keeps_timely; [apply createCard_timely|]|].
  split; [intros; by apply keeps_timely; [apply updateCard_timely|]|].
  split; [intros; by apply keeps_timely; [apply deleteCard_timely|]|].
  split; [intros; by apply keeps_timely; [apply reorderCards_timely|]|].
  split; [intros; by apply keeps_timely; [apply moveCardUp_timely|]|].
  intros; by apply keeps_timely; [apply moveCardDown_timely|].
Qed.

Lemma operations_store_server_times_only_witness :
  timely (db Sample.idle) /\
  timely
    (db (snd (updateCard "deck" (Some Sample.alice) "B"
                (CardUpdates.mk (Some "Blueberry") None (Some 99%nat))
                Sample.idle))).
Proof.
  split; [exact Sample_store_timely|].
  exact (proj1 (proj2 (operations_store_server_times_only "deck"
                         (Some Sample.alice) Sample.idle
                         Sample_store_timely))
           "B" (CardUpdates.mk (Some "Blueberry") None (Some 99%nat))).
Defined.

(** ** Creating a card and deleting it again *)

(** X21. Deleting the card that [createCard] has just returned gives back
    the cards stored before: when both calls resolve, the collection of
    cards is the one before the creation and the deck's [cardCount] is the
    number of cards of the deck in it. *)
Theorem createCard_then_deleteCard_restores_the_cards
  (deckId : string) (user : option User.t) (title : string)
  (body : option string) (c : Card.t) (w : World) :
  let w1 := snd (createCard deckId user title body w) in
  let w2 := snd (deleteCard deckId user (Card.id c) w1) in
  fst (createCard deckId user title body w) = Resolved c ->
  fst (deleteCard deckId user (Card.id c) w1) = Resolved tt ->
  cards (db w2) = cards (db w) /\
  exists dk,
    decks (db w2) !! deckId = Some dk /\
    DeckDoc.cardCount dk
    = Some (Z.of_nat (length (cardsOfDeck deckId (db w)))).
Proof.
  intros w1 w2 Hcreate Hdelete.
  destruct (createCard_resolved deckId user title body w c Hcreate)
    as (dk0 & Hdk0 & Hc & Hdb1).
  destruct (deleteCard_resolved deckId user (Card.id c) w1 Hdelete)
    as (dk1 & Hdk1 & Hdb2).
  fold w1 in Hdb1. fold w2 in Hdb2.
  assert (Card.id c = fresh (dom (cards (db w)))) as Hid by (by rewrite Hc).
  assert (cards (db w) !! Card.id c = None) as Hfresh.
  { rewrite Hid. apply not_elem_of_dom. apply is_fresh. }
  assert (delete (Card.id c) (cards (db w1)) = cards (db w)) as Hcards.
  { rewrite Hdb1. cbn [cards]. rewrite <- Hid. by apply delete_insert_id. }
  split; [by rewrite Hdb2|].
  rewrite Hdb2. cbn [decks]. eexists. split; [apply lookup_insert_eq|].
  unfold patchDeck. cbn [DeckDoc.cardCount DeckFields.cardCount].
  unfold cardsOfDeck, remove. cbn [cards]. by rewrite Hcards.
Qed.

Lemma createCard_then_deleteCard_restores_the_cards_witness :
  let w1 :=
    snd (createCard "deck" (Some Sample.alice) "Elder" None Sample.idle) in
  let w2 := snd (deleteCard "deck" (Some Sample.alice) "0" w1) in
  cards (db w2) = cards (db Sample.idle).
Proof.
  intros w1 w2.
  assert (fst (createCard "deck" (Some Sample.alice) "Elder" None
                 Sample.idle)
          = Resolved (Card.mk "0" "deck" "Elder" "" 4 0%nat 0%nat)) as Hcreate
    by (vm_compute; reflexivity).
  assert (fst (deleteCard "deck" (Some Sample.alice) "0" w1) = Resolved tt)
    as Hdelete by (vm_compute; reflexivity).
  exact (proj1 (createCard_then_deleteCard_restores_the_cards "deck"
                  (Some Sample.alice) "Elder" None
                  (Card.mk "0" "deck" "Elder" "" 4 0%nat 0%nat) Sample.idle
                  Hcreate Hdelete)).
Defined.
